(** * ModMail thread engine: a shallow embedding of [src/data/Thread.js]

    The development follows the source file method by method.  The chat
    gateway ([bot]), the store ([knex]) and the clock ([moment]) are the
    collaborators of the class; they are modelled by one explicit [World]
    that every asynchronous method threads through, in the order in which
    the source awaits its calls.

    What the [World] holds: the two tables, the channels the gateway
    knows with the answer it gives for each, the DM channel of each user,
    the messages the gateway delivered (oldest first), the deletions
    registered with [setTimeout], the events pushed to the event sink and
    the current time, which the methods read and never advance.  Console
    output and the attachment store are not part of it. *)

From Stdlib Require Import ZArith Ascii.
From Stdlib Require Import DecimalString.
From stdpp Require Import gmap strings list fin_maps.

Local Open Scope Z_scope.

(** ** JavaScript string primitives used by the class *)

Module Js.

(** A string used as a condition: only the empty string is falsy. *)
Definition truthy (s : string) : bool :=
  match s with EmptyString => false | String _ _ => true end.

(** A nullable string used as a condition ([null] and [undefined] are
    falsy as well). *)
Definition truthy_opt (o : option string) : bool :=
  match o with Some s => truthy s | None => false end.

(** A nullable string inside a template literal. *)
Definition show_opt (o : option string) : string :=
  match o with Some s => s | None => "null" end.

(** [arr.join(sep)] *)
Fixpoint join (sep : string) (l : list string) : string :=
  match l with
  | [] => ""
  | [x] => x
  | x :: tl => x +:+ sep +:+ join sep tl
  end.

(** [s.split(", ")]: [cur] is the piece being read. *)
Fixpoint split_comma_from (cur s : string) : list string :=
  match s with
  | EmptyString => [cur]
  | String "," (String " " rest) => cur :: split_comma_from "" rest
  | String c rest => split_comma_from (cur +:+ String c "") rest
  end.

Definition split_comma (s : string) : list string := split_comma_from "" s.

(** [s.split("#")] *)
Fixpoint split_hash_from (cur s : string) : list string :=
  match s with
  | EmptyString => [cur]
  | String "#" rest => cur :: split_hash_from "" rest
  | String c rest => split_hash_from (cur +:+ String c "") rest
  end.

Definition split_hash (s : string) : list string := split_hash_from "" s.

(** [arr.slice(0, -1)] *)
Definition slice_init {A} (l : list A) : list A := removelast l.

(** [arr.slice(-1)[0]] on an array of strings; [split] never returns an
    empty array, so the default is never used. *)
Definition slice_last (l : list string) : string := List.last l "".

(** [arr.includes(x)] *)
Definition includes (x : string) (l : list string) : bool :=
  bool_decide (x ∈ l).

(** [i = arr.indexOf(x); if (i > -1) arr.splice(i, 1)] *)
Fixpoint splice_first (x : string) (l : list string) : list string :=
  match l with
  | [] => []
  | y :: tl => if decide (y = x) then tl else y :: splice_first x tl
  end.

(** White space in the sense of [String.prototype.trim], restricted to
    the one-byte characters. *)
Definition is_space (c : ascii) : bool := Ascii.is_space c.

Fixpoint trim_start (s : string) : string :=
  match s with
  | String c rest => if is_space c then trim_start rest else s
  | EmptyString => ""
  end.

(** Drops trailing white space: a character is kept when something
    non-blank follows it or it is not blank itself. *)
Fixpoint trim_end (s : string) : string :=
  match s with
  | EmptyString => ""
  | String c rest =>
      match trim_end rest with
      | EmptyString => if is_space c then "" else String c ""
      | r => String c r
      end
  end.

Definition trim (s : string) : string := trim_end (trim_start s).

(** Decimal rendering of a counter, for generated message ids. *)
Definition of_nat (n : nat) : string :=
  NilZero.string_of_uint (Nat.to_uint n).

End Js.

(** ** Data model *)

(** Epoch milliseconds.  The store keeps formatted date strings; parsing
    and formatting belong to [moment] and are not part of the class. *)
Definition Timestamp := Z.

(** Modelled from the spec: [THREAD_STATUS] of [./constants], a file that
    is not part of the sources at hand; the spec lists the three states. *)
Inductive ThreadStatus := OPEN | CLOSED | SUSPENDED.

(** Modelled from the spec: [THREAD_MESSAGE_TYPE] of [./constants]; the
    members are the ones the class names. *)
Inductive ThreadMessageType := SYSTEM | CHAT | FROM_USER | TO_USER | COMMAND.

#[global] Instance ThreadStatus_eq_dec : EqDecision ThreadStatus.
Proof. solve_decision. Defined.
#[global] Instance ThreadMessageType_eq_dec : EqDecision ThreadMessageType.
Proof. solve_decision. Defined.

(** A row of table [threads], which is also the shape of a [Thread]
    object: the constructor copies the row's columns onto [this].
    [staff_role_overrides] holds the JSON text of an object from operator
    ids to role ids; it is kept here as the finite map that [JSON.parse]
    yields ([Some ∅] is the text of the empty object, which is truthy). *)
Record Thread := mkThread {
  thread_id : string;
  status : ThreadStatus;
  user_id : string;
  user_name : string;
  channel_id : string;
  scheduled_close_at : option Timestamp;
  scheduled_close_id : option string;
  scheduled_close_name : option string;
  alert_users : option string;
  staff_role_overrides : option (gmap string string);
  created_at : Timestamp;
}.

(** A row of table [thread_messages]; rows are kept in insertion order. *)
Record ThreadMessage := mkThreadMessage {
  tm_thread_id : string;
  tm_created_at : Timestamp;
  message_type : ThreadMessageType;
  tm_user_id : option string;
  tm_user_name : string;
  body : string;
  is_anonymous : bool;
  dm_message_id : string;
  thread_message_id : string;
}.

Record Role := mkRole { role_id : string; role_name : string }.

(** [Eris.Member]: [member_roles] is [member.guild.roles] ([None] when the
    guild is not available). *)
Record Member := mkMember {
  member_id : string;
  member_username : string;
  member_nick : option string;
  member_roles : option (gmap string Role);
}.

(** [Eris.User] *)
Record User := mkUser {
  id : string;
  username : string;
  discriminator : string;
}.

(** The [author] argument of [close]: an [Eris.User], or the triple rebuilt
    from the persisted columns (whose id column may be null). *)
Record Author := mkAuthor {
  author_id : option string;
  author_username : string;
  author_discriminator : string;
}.

Definition author_of_user (u : User) : Author :=
  mkAuthor (Some (id u)) (username u) (discriminator u).

Record Attachment := mkAttachment {
  attachment_id : string;
  attachment_filename : string;
  attachment_size : Z;
}.

(** [Eris.MessageFile] *)
Record MessageFile := mkFile { file_name : string; file_of : string }.

(** [Eris.MessageContent]: a string, or an object with [content] and an
    optional [embed]. *)
Inductive MessageContent :=
| Text (s : string)
| Rich (content : string) (embed : bool).

(** An inbound [Eris.Message] read by [receiveUserReply]. *)
Record UserMessage := mkUserMessage {
  msg_id : string;
  msg_content : string;
  msg_embeds : nat;
  msg_author_username : string;
  msg_author_discriminator : string;
  msg_timestamp : Timestamp;
  msg_attachments : list Attachment;
  msg_channel_id : string;
}.

(** ** The collaborators *)

(** What the gateway answers when a message is created in a channel (or
    the channel is deleted): a channel that is not listed at all is
    answered with Discord's code 10003. *)
Inductive ChannelState := Live | Faulty (code : Z) (message : string).

(** A message the gateway delivered. *)
Record Sent := mkSent {
  sent_id : string;
  sent_channel : string;
  sent_content : MessageContent;
  sent_files : list MessageFile;
}.

Inductive SseEvent :=
| NewMessage (m : ThreadMessage)
| ThreadClose (t : option Thread).

Record World := mkWorld {
  threads : gmap string Thread;
  thread_messages : list ThreadMessage;
  channels : gmap string ChannelState;
  dm_channels : gmap string string;
  sent : list Sent;
  timers : list (Z * string);
  sse_log : list SseEvent;
  clock : Timestamp;
}.

(** Values a rejected promise or a [throw] carries: a gateway error with
    its numeric [code], or a plain [Error]/[TypeError]. *)
Inductive Err :=
| DiscordError (code : Z) (message : string)
| JsError (message : string).

Definition err_message (e : Err) : string :=
  match e with DiscordError _ m => m | JsError m => m end.

Definition err_code (e : Err) : option Z :=
  match e with DiscordError c _ => Some c | JsError _ => None end.

(** Configuration flags and the helper modules the class calls
    ([../config], [../utils], [./attachments], [bot.user]); none of them is
    among the sources, so they are parameters of the embedding. *)
Record Env := mkEnv {
  useNicknames : bool;
  threadTimestamps : bool;
  relaySmallAttachmentsAsAttachments : bool;
  bot_user : User;
  utils_getTimestamp : Timestamp → string;
  utils_getMainRole : Member → option Role;
  utils_formatAttachment : Attachment → string;
  attachments_getUrl : string → string → string;
  attachments_attachmentToFile : Attachment → MessageFile;
}.

(** ** The monad of asynchronous methods

    An [async] method either resolves with a value or rejects with an
    error; in both cases the effects performed so far stay. *)
Inductive Res (A : Type) :=
| Ok (a : A) (w : World)
| Throw (e : Err) (w : World).
Arguments Ok {A} a w.
Arguments Throw {A} e w.

Definition M (A : Type) : Type := World → Res A.

Definition ret {A} (a : A) : M A := λ w, Ok a w.

Definition bind {A B} (m : M A) (k : A → M B) : M B :=
  λ w, match m w with
       | Ok a w' => k a w'
       | Throw e w' => Throw e w'
       end.

Definition throw {A} (e : Err) : M A := λ w, Throw e w.

(** [try { m } catch (e) { h(e) }] *)
Definition try_catch {A} (m : M A) (h : Err → M A) : M A :=
  λ w, match m w with
       | Ok a w' => Ok a w'
       | Throw e w' => h e w'
       end.

(** A call whose promise is not awaited.  The callee is run to completion
    at the point of the call, and a rejection goes nowhere in the caller
    (the process-wide handler of unhandled rejections receives it).  The
    callee issues its first request before the caller goes on, and the
    store and the gateway serve requests in the order they were issued,
    so this is the order of the effects the statements below speak of. *)
Definition detached {A} (m : M A) : M unit :=
  λ w, match m w with
       | Ok _ w' => Ok tt w'
       | Throw _ w' => Ok tt w'
       end.

Definition gets {A} (f : World → A) : M A := λ w, Ok (f w) w.
Definition modify (f : World → World) : M unit := λ w, Ok tt (f w).

Declare Scope async_scope.
Delimit Scope async_scope with async.
Notation "'let+' x := m 'in' k" := (bind m (λ x, k))
  (at level 10, x name, m at level 100, k at level 200) : async_scope.
Notation "m >> k" := (bind m (λ _, k))
  (at level 100, k at level 200, right associativity) : async_scope.

Definition world_of {A} (r : Res A) : World :=
  match r with Ok _ w => w | Throw _ w => w end.

Definition resolved {A} (r : Res A) : Prop :=
  match r with Ok _ _ => True | Throw _ _ => False end.

(** ** Updates of the modelled state *)

Definition with_threads (f : gmap string Thread → gmap string Thread)
    (w : World) : World :=
  mkWorld (f (threads w)) (thread_messages w) (channels w) (dm_channels w)
          (sent w) (timers w) (sse_log w) (clock w).

Definition with_thread_messages (f : list ThreadMessage → list ThreadMessage)
    (w : World) : World :=
  mkWorld (threads w) (f (thread_messages w)) (channels w) (dm_channels w)
          (sent w) (timers w) (sse_log w) (clock w).

Definition with_channels (f : gmap string ChannelState → gmap string ChannelState)
    (w : World) : World :=
  mkWorld (threads w) (thread_messages w) (f (channels w)) (dm_channels w)
          (sent w) (timers w) (sse_log w) (clock w).

Definition with_sent (f : list Sent → list Sent) (w : World) : World :=
  mkWorld (threads w) (thread_messages w) (channels w) (dm_channels w)
          (f (sent w)) (timers w) (sse_log w) (clock w).

Definition with_timers (f : list (Z * string) → list (Z * string))
    (w : World) : World :=
  mkWorld (threads w) (thread_messages w) (channels w) (dm_channels w)
          (sent w) (f (timers w)) (sse_log w) (clock w).

Definition with_sse_log (f : list SseEvent → list SseEvent) (w : World) : World :=
  mkWorld (threads w) (thread_messages w) (channels w) (dm_channels w)
          (sent w) (timers w) (f (sse_log w)) (clock w).

(** Column assignments of the [update] calls. *)
Definition set_status (s : ThreadStatus) (r : Thread) : Thread :=
  mkThread (thread_id r) s (user_id r) (user_name r) (channel_id r)
           (scheduled_close_at r) (scheduled_close_id r)
           (scheduled_close_name r) (alert_users r) (staff_role_overrides r)
           (created_at r).

Definition set_scheduled_close (at_ : option Timestamp)
    (by_id by_name : option string) (r : Thread) : Thread :=
  mkThread (thread_id r) (status r) (user_id r) (user_name r) (channel_id r)
           at_ by_id by_name (alert_users r) (staff_role_overrides r)
           (created_at r).

Definition set_alert_users (a : option string) (r : Thread) : Thread :=
  mkThread (thread_id r) (status r) (user_id r) (user_name r) (channel_id r)
           (scheduled_close_at r) (scheduled_close_id r)
           (scheduled_close_name r) a (staff_role_overrides r) (created_at r).

Definition set_staff_role_overrides (o : option (gmap string string))
    (r : Thread) : Thread :=
  mkThread (thread_id r) (status r) (user_id r) (user_name r) (channel_id r)
           (scheduled_close_at r) (scheduled_close_id r)
           (scheduled_close_name r) (alert_users r) o (created_at r).

Local Open Scope async_scope.

(** ** The store: [knex] *)

(** [knex("threads").where("id", id).first()] *)
Definition threads_first (tid : string) : M (option Thread) :=
  gets (λ w, threads w !! tid).

(** [knex("threads").where("id", id).update(cols)]: no row, no change. *)
Definition threads_update (tid : string) (cols : Thread → Thread) : M unit :=
  modify (with_threads (alter cols tid)).

(** [knex("thread_messages").insert(row)] *)
Definition thread_messages_insert (row : ThreadMessage) : M unit :=
  modify (with_thread_messages (λ rows, rows ++ [row])).

(** Reading a column of the result of [first()]: a [TypeError] when no row
    matched. *)
Definition row_or_throw (r : option Thread) : M Thread :=
  match r with
  | Some row => ret row
  | None => throw (JsError "TypeError: Cannot read properties of undefined")
  end.

(** ** The gateway: [bot] *)

Definition unknown_channel : Z := 10003.

(** [bot.createMessage(channelId, content, file)] and
    [channel.createMessage(content, file)] *)
Definition bot_createMessage (ch : string) (content : MessageContent)
    (files : list MessageFile) : M Sent :=
  λ w, match channels w !! ch with
       | Some Live =>
           let m := mkSent (Js.of_nat (length (sent w))) ch content files in
           Ok m (with_sent (λ l, l ++ [m]) w)
       | Some (Faulty c e) => Throw (DiscordError c e) w
       | None => Throw (DiscordError unknown_channel "Unknown Channel") w
       end.

(** [bot.getChannel(id)] followed by [channel.delete(reason)] *)
Definition channel_delete (ch : string) (st : ChannelState) : M unit :=
  match st with
  | Live => modify (with_channels (delete ch))
  | Faulty c e => throw (DiscordError c e)
  end.

(** [setTimeout(() => message.delete(), delay)] *)
Definition setTimeout_delete (m : Sent) (delay : Z) : M unit :=
  modify (with_timers (λ l, l ++ [(delay, sent_id m)])).

(** [sse.send(...)], when an event sink was passed. *)
Definition sse_send (sse : bool) (ev : SseEvent) : M unit :=
  if sse then modify (with_sse_log (λ l, l ++ [ev])) else ret tt.

(** ** The methods of class [Thread] *)

(** The columns a row needs when it is appended to the transcript. *)
Record MessageData := mkMessageData {
  data_message_type : ThreadMessageType;
  data_user_id : option string;
  data_user_name : string;
  data_body : string;
  data_is_anonymous : bool;
  data_dm_message_id : string;
  data_thread_message_id : string;
}.

Definition newline : string := String "010"%char "".

(** [getStaffRoleOverride(userId)]: reads the object's own field, not the
    store. *)
Definition getStaffRoleOverride (this : Thread) (userId : string)
    : option string :=
  match staff_role_overrides this with
  | Some overrides => overrides !! userId
  | None => None
  end.

(** The body that [postSystemMessage] logs.  For an object the source
    evaluates [(text.content + text.embed ? " <embed>" : "").trim()]; the
    sum binds tighter than the conditional and is a non-empty string
    whatever [embed] is, so the result is the trimmed marker. *)
Definition system_body (text : MessageContent) : string :=
  match text with
  | Text s => s
  | Rich content embed =>
      Js.trim (if Js.truthy (content +:+ (if embed then "[object Object]"
                                          else "undefined"))
               then " <embed>" else "")
  end.

(** The mention list of [receiveUserReply]:
    [split(", ").filter(..).map((id, i, arr) => ..).join("")]. *)
Definition alert_mentions (alert_users : string)
    (scheduled_close_id : option string) : string :=
  let arr := filter (λ id, Some id ≠ scheduled_close_id)
                    (Js.split_comma alert_users) in
  Js.join ""
    (imap (λ i id,
             (if decide (i = 0%nat) then ""
              else if decide (i = (length arr - 1)%nat) then " and "
                   else ", ") +:+ "<@" +:+ id +:+ ">")
          arr).

Section Engine.

Variable env : Env.

(** [addThreadMessageToDB(data, sse)] *)
Definition addThreadMessageToDB (this : Thread) (data : MessageData)
    (sse : bool) : M unit :=
  let+ now := gets clock in
  let threadMessage :=
    mkThreadMessage (thread_id this) now (data_message_type data)
      (data_user_id data) (data_user_name data) (data_body data)
      (data_is_anonymous data) (data_dm_message_id data)
      (data_thread_message_id data) in
  thread_messages_insert threadMessage >>
  sse_send sse (NewMessage threadMessage).

(** [getDMChannel()] *)
Definition getDMChannel (this : Thread) : M (option string) :=
  gets (λ w, dm_channels w !! user_id this).

(** [postToUser(text, file)] *)
Definition postToUser (this : Thread) (text : MessageContent)
    (file : list MessageFile) : M Sent :=
  let+ dmChannel := getDMChannel this in
  match dmChannel with
  | None =>
      throw (JsError "Could not open DMs with the user. They may have blocked the bot or set their privacy settings higher.")
  | Some ch => bot_createMessage ch text file
  end.

(** [close(author, silent, sse)], with the one method it calls back
    into, [postToThreadChannel], as the argument [post]: the two methods
    call each other in the source, and [post] is only used when [silent]
    is false. *)
Definition close_with
    (post : MessageContent → list MessageFile → M (option Sent))
    (this : Thread) (author : option Author) (silent : bool) (sse : bool)
    : M unit :=
  (if negb silent
   then let+ _ := post (Text "Closing thread...") [] in ret tt
   else ret tt) >>
  let+ author :=
    match author with
    | Some a => ret a
    | None =>
        let+ found := threads_first (thread_id this) in
        let+ newThread := row_or_throw found in
        match scheduled_close_name newThread with
        | None =>
            throw (JsError "TypeError: Cannot read properties of null")
        | Some name =>
            ret (mkAuthor (scheduled_close_id newThread)
                   (Js.join "#" (Js.slice_init (Js.split_hash name)))
                   (Js.slice_last (Js.split_hash name)))
        end
    end in
  let+ now := gets clock in
  threads_update (thread_id this)
    (λ row,
       set_staff_role_overrides None
         (set_alert_users None
            (set_scheduled_close (Some now) (author_id author)
               (Some (author_username author +:+ "#"
                        +:+ author_discriminator author))
               (set_status CLOSED row)))) >>
  (if sse
   then let+ row := threads_first (thread_id this) in
        sse_send true (ThreadClose row)
   else ret tt) >>
  let+ channel := gets (λ w, channels w !! channel_id this) in
  match channel with
  | Some st => channel_delete (channel_id this) st
  | None => ret tt
  end.

(** [postToThreadChannel(content, file)]: [None] is the [undefined] the
    method returns after the automatic close.  That close is silent, so
    it never posts. *)
Definition postToThreadChannel (this : Thread) (content : MessageContent)
    (file : list MessageFile) : M (option Sent) :=
  try_catch
    (let+ m := bot_createMessage (channel_id this) content file in
     ret (Some m))
    (λ e,
       if decide (err_code e = Some unknown_channel)
       then detached (close_with (λ _ _, ret None) this
                        (Some (author_of_user (bot_user env))) true false) >>
            ret None
       else throw e).

(** [close(author, silent = false, sse)] *)
Definition close (this : Thread) (author : option Author) (silent : bool)
    (sse : bool) : M unit :=
  close_with (postToThreadChannel this) this author silent sse.

(** [postSystemMessage(text, file)] *)
Definition postSystemMessage (this : Thread) (text : MessageContent)
    (file : list MessageFile) : M (option Sent) :=
  let+ msg := postToThreadChannel this text file in
  match msg with
  | None => ret None
  | Some m =>
      addThreadMessageToDB this
        (mkMessageData SYSTEM None "" (system_body text) false
           (sent_id m) (sent_id m))
        false >>
      ret (Some m)
  end.

(** [scheduleClose(time, user)] *)
Definition scheduleClose (this : Thread) (time : Timestamp) (user : User)
    : M unit :=
  threads_update (thread_id this)
    (set_scheduled_close (Some time) (Some (id user))
       (Some (username user +:+ "#" +:+ discriminator user))).

(** [cancelScheduledClose()] *)
Definition cancelScheduledClose (this : Thread) : M unit :=
  threads_update (thread_id this) (set_scheduled_close None None None).

(** [suspend()] and [unsuspend()] *)
Definition suspend (this : Thread) : M unit :=
  threads_update (thread_id this) (set_status SUSPENDED).

Definition unsuspend (this : Thread) : M unit :=
  threads_update (thread_id this) (set_status OPEN).

(** [setStaffRoleOverride(userId, roleId)] *)
Definition setStaffRoleOverride (this : Thread) (userId roleId : string)
    : M unit :=
  let+ found := threads_first (thread_id this) in
  let+ row := row_or_throw found in
  let overrides :=
    match staff_role_overrides row with
    | Some o => o
    | None => ∅
    end in
  threads_update (thread_id this)
    (set_staff_role_overrides (Some (<[userId := roleId]> overrides))).

(** [deleteStaffRoleOverride(userId)] *)
Definition deleteStaffRoleOverride (this : Thread) (userId : string)
    : M unit :=
  let+ found := threads_first (thread_id this) in
  let+ row := row_or_throw found in
  match staff_role_overrides row with
  | Some overrides =>
      if Js.truthy_opt (overrides !! userId)
      then threads_update (thread_id this)
             (set_staff_role_overrides (Some (delete userId overrides)))
      else ret tt
  | None => ret tt
  end.

(** [getMainRole(member)] *)
Definition getMainRole (this : Thread) (member : Member) : option Role :=
  let role := getStaffRoleOverride this (member_id member) in
  let override :=
    if Js.truthy_opt role
    then match member_roles member, role with
         | Some roles, Some r => roles !! r
         | _, _ => None
         end
    else None in
  match override with
  | Some o => Some o
  | None => utils_getMainRole env member
  end.

(** [alertStatus(userId, status)] *)
Definition alertStatus (this : Thread) (userId : string) (status : bool)
    : M unit :=
  let+ found := threads_first (thread_id this) in
  let+ row := row_or_throw found in
  let alerts :=
    match alert_users row with
    | Some s => if Js.truthy s then Js.split_comma s else []
    | None => []
    end in
  let alerts :=
    if negb (Js.includes userId alerts) && status
    then alerts ++ [userId]
    else if negb status then Js.splice_first userId alerts
         else alerts in
  let alerts :=
    match alerts with
    | [] => None
    | _ :: _ => Some (Js.join ", " alerts)
    end in
  threads_update (thread_id this) (set_alert_users alerts).

End Engine.

Section Relay.

Variable env : Env.

(** The two user names of a reply: the one the user sees and the one
    the relay channel and the transcript see. *)
Definition reply_usernames (this : Thread) (moderator : Member)
    (isAnonymous : bool) : string * string :=
  let mainRole := getMainRole env this moderator in
  if isAnonymous
  then
    let shown := match mainRole with Some r => role_name r | None => "Staff" end in
    (shown, "(" +:+ member_username moderator +:+ ") " +:+ shown)
  else
    let name :=
      if useNicknames env
      then (if Js.truthy_opt (member_nick moderator)
            then Js.show_opt (member_nick moderator)
            else member_username moderator)
      else member_username moderator in
    let modUsername :=
      match mainRole with
      | Some r => "(" +:+ name +:+ ") " +:+ role_name r
      | None => name
      end in
    (modUsername, modUsername).

Definition reply_dmContent (this : Thread) (moderator : Member)
    (text : string) (isAnonymous : bool) : string :=
  "**" +:+ fst (reply_usernames this moderator isAnonymous) +:+ ":** " +:+ text.

Definition reply_threadContent (this : Thread) (moderator : Member)
    (text : string) (isAnonymous : bool) (now : Timestamp) : string :=
  let threadContent :=
    "**" +:+ snd (reply_usernames this moderator isAnonymous) +:+ ":** " +:+ text in
  if threadTimestamps env
  then "[**" +:+ utils_getTimestamp env now +:+ "**] » " +:+ threadContent
  else threadContent.

(** The loop over [replyAttachments]: the files to send and the grown
    [logContent]. *)
Definition reply_attachments (text : string) (replyAttachments : list Attachment)
    : list MessageFile * string :=
  fold_left
    (λ '(files, logContent) attachment,
       (files ++ [attachments_attachmentToFile env attachment],
        logContent +:+ newline +:+ newline +:+ "**Attachment:** "
          +:+ attachments_getUrl env (attachment_id attachment)
                (attachment_filename attachment)))
    replyAttachments ([], text).

(** The tail shared by [replyToUser] and [sendCommandToUser]: a reply
    cancels a scheduled close. *)
Definition reply_cancels_close (this : Thread) : M unit :=
  match scheduled_close_at this with
  | Some _ =>
      cancelScheduledClose this >>
      let+ systemMessage :=
        postSystemMessage env this
          (Text "Cancelling scheduled closing of this thread due to new reply") [] in
      match systemMessage with
      | Some m => setTimeout_delete m 30000
      | None => ret tt
      end
  | None => ret tt
  end.

(** [replyToUser(moderator, text, replyAttachments, isAnonymous, sse)] *)
Definition replyToUser (this : Thread) (moderator : Member) (text : string)
    (replyAttachments : list Attachment) (isAnonymous : bool) (sse : bool)
    : M unit :=
  let logModUsername := snd (reply_usernames this moderator isAnonymous) in
  let dmContent := reply_dmContent this moderator text isAnonymous in
  let+ now := gets clock in
  let threadContent := reply_threadContent this moderator text isAnonymous now in
  let '(files, logContent) := reply_attachments text replyAttachments in
  let+ dm :=
    try_catch
      (let+ m := postToUser this (Text dmContent) files in ret (Some m))
      (λ e,
         postSystemMessage env this
           (Text ("Error while replying to user: " +:+ err_message e)) [] >>
         ret None) in
  match dm with
  | None => ret tt
  | Some dmMessage =>
      let+ sentToThread := postToThreadChannel env this (Text threadContent) files in
      match sentToThread with
      | None => ret tt
      | Some threadMessage =>
          addThreadMessageToDB this
            (mkMessageData TO_USER (Some (member_id moderator))
               logModUsername logContent isAnonymous
               (sent_id dmMessage) (sent_id threadMessage))
            sse >>
          reply_cancels_close this
      end
  end.

(** [sendCommandToUser(moderator, message, command, isAnonymous)]: the
    sibling of [replyToUser] that relays a prepared help message. *)
Definition sendCommandToUser (this : Thread) (moderator : Member)
    (message : MessageContent) (command_name : string) (isAnonymous : bool)
    : M unit :=
  let mainRole := getMainRole env this moderator in
  let text := "[Command Help: " +:+ command_name +:+ "]" in
  let logModUsername :=
    if isAnonymous
    then "(Anonymous) (" +:+ member_username moderator +:+ ") "
           +:+ match mainRole with Some r => role_name r | None => "Moderator" end
    else
      let name :=
        if useNicknames env
        then (if Js.truthy_opt (member_nick moderator)
              then Js.show_opt (member_nick moderator)
              else member_username moderator)
        else member_username moderator in
      match mainRole with
      | Some r => "(" +:+ role_name r +:+ ") " +:+ name
      | None => name
      end in
  let+ now := gets clock in
  let threadContent :=
    let threadContent := "**" +:+ logModUsername +:+ ":** " +:+ text in
    if threadTimestamps env
    then "[" +:+ utils_getTimestamp env now +:+ "] » " +:+ threadContent
    else threadContent in
  let+ dm :=
    try_catch
      (let+ m := postToUser this message [] in ret (Some m))
      (λ e,
         postSystemMessage env this
           (Text ("Error while replying to user: " +:+ err_message e)) [] >>
         ret None) in
  match dm with
  | None => ret tt
  | Some dmMessage =>
      let+ sentToThread := postToThreadChannel env this (Text threadContent) [] in
      match sentToThread with
      | None => ret tt
      | Some threadMessage =>
          addThreadMessageToDB this
            (mkMessageData TO_USER (Some (member_id moderator))
               logModUsername text isAnonymous
               (sent_id dmMessage) (sent_id threadMessage))
            false >>
          reply_cancels_close this
      end
  end.

(** The loop over [msg.attachments] of [receiveUserReply]: files to
    forward, the relay text and the logged text.  The loop also saves
    each attachment in the attachment store, which is outside the
    [World]. *)
Definition inbound_attachments (threadContent logContent : string)
    (l : list Attachment) : list MessageFile * string * string :=
  fold_left
    (λ '(attachmentFiles, threadContent, logContent) attachment,
       let formatted :=
         newline +:+ newline +:+ utils_formatAttachment env attachment in
       if relaySmallAttachmentsAsAttachments env
          && bool_decide (attachment_size attachment ≤ 1024 * 1024 * 2)
       then (attachmentFiles ++ [attachments_attachmentToFile env attachment],
             threadContent, logContent +:+ formatted)
       else (attachmentFiles, threadContent +:+ formatted,
             logContent +:+ formatted))
    l ([], threadContent, logContent).

(** The text shown for an inbound message. *)
Definition inbound_content (msg : UserMessage) : string :=
  if bool_decide (Js.trim (msg_content msg) = "")
     && negb (bool_decide (msg_embeds msg = 0%nat))
  then "<message contains embeds>"
  else msg_content msg.

Definition inbound_threadContent (msg : UserMessage) : string :=
  let threadContent :=
    "**" +:+ msg_author_username msg +:+ "#"
      +:+ msg_author_discriminator msg +:+ ":** " +:+ inbound_content msg in
  if threadTimestamps env
  then "[**" +:+ utils_getTimestamp env (msg_timestamp msg) +:+ "**] « "
         +:+ threadContent
  else threadContent.

(** The alert step of [receiveUserReply]; its [postSystemMessage] is not
    awaited. *)
Definition inbound_alerts (this : Thread) : M unit :=
  if Js.truthy_opt (alert_users this)
  then
    let alerts :=
      alert_mentions (Js.show_opt (alert_users this)) (scheduled_close_id this) in
    if Js.truthy alerts
    then detached
           (postSystemMessage env this
              (Text (alerts +:+ ", there is a new message from **"
                       +:+ user_name this +:+ "**!")) [])
    else ret tt
  else ret tt.

(** The pending-close step of [receiveUserReply]. *)
Definition inbound_pending_close (this : Thread) : M unit :=
  match scheduled_close_at this with
  | Some closedAt =>
      let+ now := gets clock in
      let+ systemMessage :=
        if bool_decide (closedAt - now ≤ 30000)
        then
          cancelScheduledClose this >>
          postSystemMessage env this
            (Rich ("<@!" +:+ Js.show_opt (scheduled_close_id this)
                     +:+ "> Thread that was scheduled to be closed got a new reply. Cancelling.")
                  false) []
        else
          postSystemMessage env this
            (Rich ("<@!" +:+ Js.show_opt (scheduled_close_id this)
                     +:+ "> The thread was updated, use `!close cancel` if you would like to cancel.")
                  false) [] in
      match systemMessage with
      | Some m => setTimeout_delete m 30000
      | None => ret tt
      end
  | None => ret tt
  end.

(** [receiveUserReply(msg, sse)] *)
Definition receiveUserReply (this : Thread) (msg : UserMessage) (sse : bool)
    : M unit :=
  let '(attachmentFiles, threadContent, logContent) :=
    inbound_attachments (inbound_threadContent msg) (msg_content msg)
      (msg_attachments msg) in
  let+ sentToThread :=
    postToThreadChannel env this (Text threadContent) attachmentFiles in
  match sentToThread with
  | None =>
      let+ _ :=
        bot_createMessage (msg_channel_id msg)
          (Text "The current thread was automatically closed due to an internal error. Please send another message to open a new thread.")
          [] in
      ret tt
  | Some threadMessage =>
      addThreadMessageToDB this
        (mkMessageData FROM_USER (Some (user_id this))
           (msg_author_username msg +:+ "#" +:+ msg_author_discriminator msg)
           logContent false (msg_id msg) (sent_id threadMessage))
        sse >>
      inbound_alerts this >>
      inbound_pending_close this
  end.

End Relay.

(** ** Notions used in the statements *)

(** The row of the thread as the store holds it. *)
Definition persisted (w : World) (this : Thread) : option Thread :=
  threads w !! thread_id this.

(** The relay channel accepts messages. *)
Definition relay_live (w : World) (this : Thread) : Prop :=
  channels w !! channel_id this = Some Live.

(** The relay channel no longer exists: the gateway answers a send with
    code 10003. *)
Definition relay_gone (w : World) (this : Thread) : Prop :=
  match channels w !! channel_id this with
  | None => True
  | Some (Faulty c _) => c = unknown_channel
  | Some Live => False
  end.

(** A send to the relay channel is not rejected for another reason. *)
Definition relay_answers (w : World) (this : Thread) : Prop :=
  match channels w !! channel_id this with
  | Some (Faulty c _) => c = unknown_channel
  | _ => True
  end.

(** The id the gateway gives to the next message. *)
Definition next_id (w : World) : string := Js.of_nat (length (sent w)).

(** The message a system notice puts in the relay channel, and its
    transcript row. *)
Definition notice (w : World) (this : Thread) (text : MessageContent) : Sent :=
  mkSent (next_id w) (channel_id this) text [].

Definition notice_row (w : World) (this : Thread) (text : MessageContent)
    : ThreadMessage :=
  mkThreadMessage (thread_id this) (clock w) SYSTEM None "" (system_body text)
    false (next_id w) (next_id w).

(** What a system notice adds to the relay channel and to the transcript:
    one message and one row when the channel is live, nothing otherwise. *)
Definition posted_notice (w : World) (this : Thread) (text : MessageContent)
    : list Sent :=
  match channels w !! channel_id this with
  | Some Live => [notice w this text]
  | _ => []
  end.

Definition logged_notice (w : World) (this : Thread) (text : MessageContent)
    : list ThreadMessage :=
  match channels w !! channel_id this with
  | Some Live => [notice_row w this text]
  | _ => []
  end.

Definition dm_failure_text (e : Err) : MessageContent :=
  Text ("Error while replying to user: " +:+ err_message e).

(** The columns [close] writes. *)
Definition closed_row (now : Timestamp) (by_id : option string)
    (by_name : string) (row : Thread) : Thread :=
  mkThread (thread_id row) CLOSED (user_id row) (user_name row)
    (channel_id row) (Some now) by_id (Some by_name) None None (created_at row).

(** The world after the automatic close that a send to a vanished relay
    channel triggers: the row is closed in the bot's name. *)
Definition auto_closed (env : Env) (this : Thread) (w : World) : World :=
  with_threads
    (alter (closed_row (clock w) (Some (id (bot_user env)))
              (username (bot_user env) +:+ "#" +:+ discriminator (bot_user env)))
       (thread_id this))
    w.

Definition closing_notice : MessageContent := Text "Closing thread...".

(** The world once the first step of [close] is over: unchanged for a
    silent close; otherwise the notice is in a live relay channel, or the
    send found the channel gone and closed the thread on its own. *)
Definition after_closing_notice (env : Env) (this : Thread) (silent : bool)
    (w : World) : World :=
  if silent then w
  else match channels w !! channel_id this with
       | Some Live => with_sent (λ l, l ++ [notice w this closing_notice]) w
       | _ => auto_closed env this w
       end.

Definition author_name (a : Author) : string :=
  author_username a +:+ "#" +:+ author_discriminator a.

(** The author [close] records, given the row it reads when no author
    was passed; [None] when the stored name is null. *)
Definition recorded_author (author : option Author) (row : Thread)
    : option Author :=
  match author with
  | Some a => Some a
  | None =>
      match scheduled_close_name row with
      | Some name =>
          Some (mkAuthor (scheduled_close_id row)
                  (Js.join "#" (Js.slice_init (Js.split_hash name)))
                  (Js.slice_last (Js.split_hash name)))
      | None => None
      end
  end.

(** The store and the event sink once [close] has written the row. *)
Definition closed_world (this : Thread) (sse : bool) (a : Author)
    (row : Thread) (w : World) : World :=
  with_sse_log
    (λ l, if sse
          then l ++ [ThreadClose
                       (Some (closed_row (clock w) (author_id a) (author_name a) row))]
          else l)
    (with_threads
       (alter (closed_row (clock w) (author_id a) (author_name a)) (thread_id this))
       w).

(** The name column [close] writes when it rebuilds the author from a
    stored name. *)
Definition rebuilt_name (name : string) : string :=
  Js.join "#" (Js.slice_init (Js.split_hash name)) +:+ "#"
    +:+ Js.slice_last (Js.split_hash name).

Fixpoint has_hash (s : string) : bool :=
  match s with
  | EmptyString => false
  | String c rest => if decide (c = "#"%char) then true else has_hash rest
  end.

(** The three scheduled-close columns are null together or set together. *)
Definition scheduled_close_consistent (row : Thread) : Prop :=
  (scheduled_close_at row = None ∧ scheduled_close_id row = None
   ∧ scheduled_close_name row = None)
  ∨ (is_Some (scheduled_close_at row) ∧ is_Some (scheduled_close_id row)
     ∧ is_Some (scheduled_close_name row)).

Inductive ScheduleOp :=
| OpScheduleClose (time : Timestamp) (user : User)
| OpCancelScheduledClose.

Definition schedule_step (this : Thread) (op : ScheduleOp) : M unit :=
  match op with
  | OpScheduleClose time user => scheduleClose this time user
  | OpCancelScheduledClose => cancelScheduledClose this
  end.

(** Calls made one after the other, each awaited. *)
Fixpoint in_sequence {Op} (step : Op → M unit) (ops : list Op) : M unit :=
  match ops with
  | [] => ret tt
  | op :: rest => step op >> in_sequence step rest
  end.

(** Operator ids are Discord snowflakes; all the class relies on is that
    an id is not empty and holds no comma. *)
Fixpoint comma_free (s : string) : bool :=
  match s with
  | EmptyString => true
  | String c rest => if decide (c = ","%char) then false else comma_free rest
  end.

Definition valid_id (s : string) : Prop := s ≠ "" ∧ comma_free s = true.

(** The watcher list as [alertStatus] and [receiveUserReply] read it from
    the column. *)
Definition watchers (col : option string) : list string :=
  match col with
  | Some s => if Js.truthy s then Js.split_comma s else []
  | None => []
  end.

(** The column encodes a duplicate-free list of operator ids, the empty
    list as null. *)
Definition alerts_encoding (col : option string) : Prop :=
  match col with
  | None => True
  | Some s =>
      ∃ l, l ≠ [] ∧ NoDup l ∧ Forall valid_id l ∧ s = Js.join ", " l
  end.

(** The column [alertStatus] writes for a list of watchers. *)
Definition alerts_column (l : list string) : option string :=
  match l with
  | [] => None
  | _ :: _ => Some (Js.join ", " l)
  end.

(** The list [alertStatus] computes from the list it read. *)
Definition next_watchers (userId : string) (status : bool) (l : list string)
    : list string :=
  if negb (Js.includes userId l) && status then l ++ [userId]
  else if negb status then Js.splice_first userId l
       else l.

(** The watcher set the spec speaks of. *)
Definition watcher_set (col : option string) : gset string :=
  list_to_set (watchers col).

Definition alert_set_step (S : gset string) (op : string * bool) : gset string :=
  if op.2 then S ∪ {[ op.1 ]} else S ∖ {[ op.1 ]}.

Definition alert_step (this : Thread) (op : string * bool) : M unit :=
  alertStatus this op.1 op.2.

(** The mention list in the spec's words: one watcher alone, two joined
    by " and ", more separated by commas with " and " before the last. *)
Definition mention (watcher : string) : string := "<@" +:+ watcher +:+ ">".

Fixpoint mention_list (ids : list string) : string :=
  match ids with
  | [] => ""
  | [a] => mention a
  | [a; b] => mention a +:+ " and " +:+ mention b
  | a :: rest => mention a +:+ ", " +:+ mention_list rest
  end.

(** The mentions after the first one. *)
Fixpoint mention_rest (ids : list string) : string :=
  match ids with
  | [] => ""
  | [b] => " and " +:+ mention b
  | b :: rest => ", " +:+ mention b +:+ mention_rest rest
  end.

Definition alert_text (this : Thread) (ids : list string) : MessageContent :=
  Text (mention_list ids +:+ ", there is a new message from **"
          +:+ user_name this +:+ "**!").

(** The two notices of the pending-close step and the one of a reply. *)
Definition cancel_notice (this : Thread) : MessageContent :=
  Rich ("<@!" +:+ Js.show_opt (scheduled_close_id this)
          +:+ "> Thread that was scheduled to be closed got a new reply. Cancelling.")
       false.

Definition reminder_notice (this : Thread) : MessageContent :=
  Rich ("<@!" +:+ Js.show_opt (scheduled_close_id this)
          +:+ "> The thread was updated, use `!close cancel` if you would like to cancel.")
       false.

Definition reply_cancel_notice : MessageContent :=
  Text "Cancelling scheduled closing of this thread due to new reply".

Definition placeholder : string := "<message contains embeds>".

(** The speaker framing of an inbound message in the relay channel. *)
Definition inbound_header (env : Env) (msg : UserMessage) : string :=
  (if threadTimestamps env
   then "[**" +:+ utils_getTimestamp env (msg_timestamp msg) +:+ "**] « "
   else "")
  +:+ "**" +:+ msg_author_username msg +:+ "#"
  +:+ msg_author_discriminator msg +:+ ":** ".

(** The links [receiveUserReply] appends to the logged text. *)
Definition inbound_log_links (env : Env) (l : list Attachment) : string :=
  fold_right
    (λ attachment acc,
       newline +:+ newline +:+ utils_formatAttachment env attachment +:+ acc)
    "" l.


(** What [receiveUserReply] sends to a live relay channel, the row it
    logs, and the world once both are done. *)
Definition inbound_relayed (env : Env) (this : Thread) (msg : UserMessage)
    (w : World) : Sent :=
  let '(attachmentFiles, threadContent, _) :=
    inbound_attachments env (inbound_threadContent env msg) (msg_content msg)
      (msg_attachments msg) in
  mkSent (next_id w) (channel_id this) (Text threadContent) attachmentFiles.

Definition inbound_row (env : Env) (this : Thread) (msg : UserMessage)
    (w : World) : ThreadMessage :=
  let '(_, _, logContent) :=
    inbound_attachments env (inbound_threadContent env msg) (msg_content msg)
      (msg_attachments msg) in
  mkThreadMessage (thread_id this) (clock w) FROM_USER (Some (user_id this))
    (msg_author_username msg +:+ "#" +:+ msg_author_discriminator msg)
    logContent false (msg_id msg) (next_id w).

Definition inbound_logged (env : Env) (this : Thread) (msg : UserMessage)
    (sse : bool) (w : World) : World :=
  with_sse_log
    (λ l, if sse then l ++ [NewMessage (inbound_row env this msg w)] else l)
    (with_thread_messages (λ rows, rows ++ [inbound_row env this msg w])
       (with_sent (λ l, l ++ [inbound_relayed env this msg w]) w)).

(** The world after a system notice went to a live relay channel. *)
Definition noticed (this : Thread) (text : MessageContent) (w : World) : World :=
  with_thread_messages (λ rows, rows ++ [notice_row w this text])
    (with_sent (λ l, l ++ [notice w this text]) w).

(** The guard window of the pending-close step. *)
Definition within_guard (this : Thread) (w : World) : bool :=
  match scheduled_close_at this with
  | Some closedAt => bool_decide (closedAt - clock w ≤ 30000)
  | None => false
  end.

(** The store after [cancelScheduledClose]. *)
Definition cancelled (this : Thread) (w : World) : World :=
  with_threads (alter (set_scheduled_close None None None) (thread_id this)) w.

Definition is_rich (m : Sent) : Prop :=
  match sent_content m with Rich _ _ => True | Text _ => False end.

(** The links [receiveUserReply] appends to the relay text: those of the
    attachments it does not forward as files. *)
Definition forwarded_as_file (env : Env) (attachment : Attachment) : bool :=
  relaySmallAttachmentsAsAttachments env
  && bool_decide (attachment_size attachment ≤ 1024 * 1024 * 2).

Definition inbound_relay_links (env : Env) (l : list Attachment) : string :=
  fold_right
    (λ attachment acc,
       if forwarded_as_file env attachment then acc
       else newline +:+ newline +:+ utils_formatAttachment env attachment +:+ acc)
    "" l.

Definition inbound_files (env : Env) (l : list Attachment) : list MessageFile :=
  attachments_attachmentToFile env <$> filter (λ a, forwarded_as_file env a = true) l.

(** What [replyToUser] sends to a live relay channel after the DM [dm],
    the row it logs, and the world once both are done. *)
Definition outbound_relayed (env : Env) (this : Thread) (moderator : Member)
    (text : string) (replyAttachments : list Attachment) (isAnonymous : bool)
    (w : World) : Sent :=
  mkSent (Js.of_nat (S (length (sent w)))) (channel_id this)
    (Text (reply_threadContent env this moderator text isAnonymous (clock w)))
    (reply_attachments env text replyAttachments).1.

Definition outbound_row (env : Env) (this : Thread) (moderator : Member)
    (text : string) (replyAttachments : list Attachment) (isAnonymous : bool)
    (dm : Sent) (w : World) : ThreadMessage :=
  mkThreadMessage (thread_id this) (clock w) TO_USER (Some (member_id moderator))
    (reply_usernames env this moderator isAnonymous).2
    (reply_attachments env text replyAttachments).2 isAnonymous (sent_id dm)
    (Js.of_nat (S (length (sent w)))).

Definition outbound_logged (env : Env) (this : Thread) (moderator : Member)
    (text : string) (replyAttachments : list Attachment) (isAnonymous : bool)
    (sse : bool) (dm : Sent) (w : World) : World :=
  let row := outbound_row env this moderator text replyAttachments isAnonymous dm w in
  with_sse_log (λ l, if sse then l ++ [NewMessage row] else l)
    (with_thread_messages (λ rows, rows ++ [row])
       (with_sent
          (λ l, l ++ [dm; outbound_relayed env this moderator text
                            replyAttachments isAnonymous w])
          w)).

(** ** A concrete deployment, used to run the methods *)

Definition env0 : Env :=
  mkEnv true false true (mkUser "999" "ModMail" "0000")
    (λ _, "12:00") (λ _, None)
    (λ a, "**Attachment:** " +:+ attachment_filename a)
    (λ i f, "https://modmail.example/" +:+ i +:+ "/" +:+ f)
    (λ a, mkFile (attachment_filename a) (attachment_id a)).

Definition th0 : Thread :=
  mkThread "1" OPEN "42" "alice#0001" "c1" None None None None None 0.

Definition w0 : World :=
  mkWorld {[ "1" := th0 ]} [] {[ "c1" := Live; "dm42" := Live ]}
          {[ "42" := "dm42" ]} [] [] [] 1000.

Definition bob : Member := mkMember "7" "bob" None None.

(** The user cannot be reached: no DM channel can be opened. *)
Definition w_unreachable : World :=
  mkWorld {[ "1" := th0 ]} [] {[ "c1" := Live ]} ∅ [] [] [] 1000.

(** The relay channel has been deleted; the user can still be reached. *)
Definition w_relay_gone : World :=
  mkWorld {[ "1" := th0 ]} [] {[ "dm42" := Live ]} {[ "42" := "dm42" ]}
          [] [] [] 1000.

(** A message the user sends: plain text, no embed, no attachment. *)
Definition hi : UserMessage :=
  mkUserMessage "900" "hi there" 0 "alice" "0001" 990 [] "dm42".

(** Thread 1 with a close scheduled by bob for one minute after [now]. *)
Definition th_scheduled : Thread :=
  mkThread "1" OPEN "42" "alice#0001" "c1" (Some 61000) (Some "7")
           (Some "bob#0007") (Some "7, 8") None 0.

Definition w_scheduled : World :=
  mkWorld {[ "1" := th_scheduled ]} [] {[ "c1" := Live; "dm42" := Live ]}
          {[ "42" := "dm42" ]} [] [] [] 1000.

(** The same thread once its relay channel has been deleted. *)
Definition w_scheduled_gone : World :=
  mkWorld {[ "1" := th_scheduled ]} [] {[ "dm42" := Live ]}
          {[ "42" := "dm42" ]} [] [] [] 1000.

(** A message of the user that holds an embed and no text. *)
Definition embed_only : UserMessage :=
  mkUserMessage "901" "  " 1 "alice" "0001" 990 [] "dm42".

(** ** The rest of the class: transcript access and plain relay posts *)

(** A message an operator wrote in the relay channel, as
    [saveChatMessage] and [saveCommandMessage] read it. *)
Record StaffMessage := mkStaffMessage {
  staff_msg_id : string;
  staff_author_id : string;
  staff_author_username : string;
  staff_author_discriminator : string;
  staff_content : string;
}.

(** [saveChatMessage(msg, sse)] *)
Definition saveChatMessage (this : Thread) (msg : StaffMessage) (sse : bool)
    : M unit :=
  addThreadMessageToDB this
    (mkMessageData CHAT (Some (staff_author_id msg))
       (staff_author_username msg +:+ "#" +:+ staff_author_discriminator msg)
       (staff_content msg) false (staff_msg_id msg) (staff_msg_id msg))
    sse.

(** [saveCommandMessage(msg, sse)] *)
Definition saveCommandMessage (this : Thread) (msg : StaffMessage) (sse : bool)
    : M unit :=
  addThreadMessageToDB this
    (mkMessageData COMMAND (Some (staff_author_id msg))
       (staff_author_username msg +:+ "#" +:+ staff_author_discriminator msg)
       (staff_content msg) false (staff_msg_id msg) (staff_msg_id msg))
    sse.

(** [.where("thread_id", this.id).where("dm_message_id", id)] *)
Definition where_dm (this : Thread) (messageId : string) (row : ThreadMessage)
    : Prop :=
  tm_thread_id row = thread_id this ∧ dm_message_id row = messageId.

(** [.where("thread_id", this.id).where("thread_message_id", id)] *)
Definition where_thread_message (this : Thread) (messageId : string)
    (row : ThreadMessage) : Prop :=
  tm_thread_id row = thread_id this ∧ thread_message_id row = messageId.

#[global] Instance where_dm_dec this messageId row :
  Decision (where_dm this messageId row).
Proof. unfold where_dm. apply _. Defined.

#[global] Instance where_thread_message_dec this messageId row :
  Decision (where_thread_message this messageId row).
Proof. unfold where_thread_message. apply _. Defined.

(** The columns [updateChatMessage] assigns. *)
Definition set_body_and_thread_message (new_body new_id : string)
    (row : ThreadMessage) : ThreadMessage :=
  mkThreadMessage (tm_thread_id row) (tm_created_at row) (message_type row)
    (tm_user_id row) (tm_user_name row) new_body (is_anonymous row)
    (dm_message_id row) new_id.

(** [updateChatMessage(msg, threadMessage)] *)
Definition updateChatMessage (this : Thread) (msg : UserMessage)
    (threadMessage : Sent) : M unit :=
  modify
    (with_thread_messages
       (fmap (λ row,
                if decide (where_dm this (msg_id msg) row)
                then set_body_and_thread_message (msg_content msg)
                       (sent_id threadMessage) row
                else row))).

(** [getThreadMessageFromDM(msg)]: [first()] of the matching rows. *)
Definition getThreadMessageFromDM (this : Thread) (msg : UserMessage)
    : M (option ThreadMessage) :=
  gets (λ w, head (filter (where_dm this (msg_id msg)) (thread_messages w))).

(** [getThreadMessageFromThread(msgID)] *)
Definition getThreadMessageFromThread (this : Thread) (msgID : string)
    : M (option ThreadMessage) :=
  gets (λ w, head (filter (where_thread_message this msgID) (thread_messages w))).

(** [deleteChatMessage(messageId)] *)
Definition deleteChatMessage (this : Thread) (messageId : string) : M unit :=
  modify
    (with_thread_messages (filter (λ row, ¬ where_dm this messageId row))).

(** The [created_at] column holds the time formatted to the second, and
    that text is what [orderBy("created_at")] compares. *)
Definition stored_second (t : Timestamp) : Z := t / 1000.

(** [ORDER BY created_at ASC, id ASC]: the rows are kept in the order of
    their automatic ids, so a row goes behind every row that is not
    later than it. *)
Fixpoint insert_by_created_at (row : ThreadMessage) (sorted : list ThreadMessage)
    : list ThreadMessage :=
  match sorted with
  | [] => [row]
  | first :: rest =>
      if decide (stored_second (tm_created_at row)
                 < stored_second (tm_created_at first))
      then row :: first :: rest
      else first :: insert_by_created_at row rest
  end.

Definition order_by_created_at (rows : list ThreadMessage) : list ThreadMessage :=
  foldl (λ sorted row, insert_by_created_at row sorted) [] rows.

(** [getThreadMessages()] *)
Definition getThreadMessages (this : Thread) : M (list ThreadMessage) :=
  gets (λ w, order_by_created_at
               (filter (λ row, tm_thread_id row = thread_id this)
                  (thread_messages w))).

(** [postNonLogMessage(content, file)] *)
Definition postNonLogMessage (env : Env) (this : Thread)
    (content : MessageContent) (file : list MessageFile) : M unit :=
  let+ _ := postToThreadChannel env this content file in ret tt.

(** ** Calls of the class, and what a call keeps *)

(** The methods of the class that write to the store or the gateway. *)
Inductive EngineCall :=
| ReplyToUser (moderator : Member) (text : string)
    (replyAttachments : list Attachment) (isAnonymous sse : bool)
| SendCommandToUser (moderator : Member) (message : MessageContent)
    (command_name : string) (isAnonymous : bool)
| ReceiveUserReply (msg : UserMessage) (sse : bool)
| PostSystemMessage (text : MessageContent) (file : list MessageFile)
| PostNonLogMessage (content : MessageContent) (file : list MessageFile)
| SaveChatMessage (msg : StaffMessage) (sse : bool)
| SaveCommandMessage (msg : StaffMessage) (sse : bool)
| UpdateChatMessage (msg : UserMessage) (threadMessage : Sent)
| DeleteChatMessage (messageId : string)
| AlertStatus (userId : string) (status : bool)
| Close (author : option Author) (silent sse : bool)
| ScheduleClose (time : Timestamp) (user : User)
| CancelScheduledClose
| Suspend
| Unsuspend
| SetStaffRoleOverride (userId roleId : string)
| DeleteStaffRoleOverride (userId : string).

Definition perform (env : Env) (this : Thread) (call : EngineCall) : M unit :=
  match call with
  | ReplyToUser moderator text replyAttachments isAnonymous sse =>
      replyToUser env this moderator text replyAttachments isAnonymous sse
  | SendCommandToUser moderator message command_name isAnonymous =>
      sendCommandToUser env this moderator message command_name isAnonymous
  | ReceiveUserReply msg sse => receiveUserReply env this msg sse
  | PostSystemMessage text file =>
      let+ _ := postSystemMessage env this text file in ret tt
  | PostNonLogMessage content file => postNonLogMessage env this content file
  | SaveChatMessage msg sse => saveChatMessage this msg sse
  | SaveCommandMessage msg sse => saveCommandMessage this msg sse
  | UpdateChatMessage msg threadMessage => updateChatMessage this msg threadMessage
  | DeleteChatMessage messageId => deleteChatMessage this messageId
  | AlertStatus userId status => alertStatus this userId status
  | Close author silent sse => close env this author silent sse
  | ScheduleClose time user => scheduleClose this time user
  | CancelScheduledClose => cancelScheduledClose this
  | Suspend => suspend this
  | Unsuspend => unsuspend this
  | SetStaffRoleOverride userId roleId => setStaffRoleOverride this userId roleId
  | DeleteStaffRoleOverride userId => deleteStaffRoleOverride this userId
  end.

(** The two calls that rewrite transcript rows. *)
Definition rewrites_rows (call : EngineCall) : bool :=
  match call with
  | UpdateChatMessage _ _ | DeleteChatMessage _ => true
  | _ => false
  end.

(** The two calls that set the status without looking at it. *)
Definition sets_status (call : EngineCall) : bool :=
  match call with
  | Suspend | Unsuspend => true
  | _ => false
  end.

(** The channel an inbound message is answered in, besides the relay
    channel and the DM channel of the thread's user. *)
Definition answer_channel (call : EngineCall) : option string :=
  match call with
  | ReceiveUserReply msg _ => Some (msg_channel_id msg)
  | _ => None
  end.

(** Whatever the outcome of [m], the world it leaves is related to the
    one it started from. *)
Definition keeps {A} (R : World → World → Prop) (m : M A) : Prop :=
  ∀ w, R w (world_of (m w)).

(** The transcript only grew, by rows of this thread stamped with the
    current time. *)
Definition appended_rows (this : Thread) (w w' : World) : Prop :=
  clock w' = clock w
  ∧ ∃ new,
      thread_messages w' = thread_messages w ++ new
      ∧ Forall (λ row, tm_thread_id row = thread_id this
                       ∧ tm_created_at row = clock w) new.

(** The channels a call on this thread may post to. *)
Definition reaches (this : Thread) (extra : option string) (w : World)
    (ch : string) : Prop :=
  ch = channel_id this
  ∨ dm_channels w !! user_id this = Some ch
  ∨ Some ch = extra.

(** The gateway only delivered more messages, to those channels, and
    lost no channel but possibly the relay channel. *)
Definition gateway_frame (this : Thread) (extra : option string)
    (w w' : World) : Prop :=
  dm_channels w' = dm_channels w
  ∧ (∃ new, sent w' = sent w ++ new
            ∧ Forall (λ m, reaches this extra w (sent_channel m)) new)
  ∧ (∀ ch, ch ≠ channel_id this → channels w' !! ch = channels w !! ch)
  ∧ (channels w' !! channel_id this = channels w !! channel_id this
     ∨ channels w' !! channel_id this = None).

Definition same_identity (row row' : Thread) : Prop :=
  thread_id row' = thread_id row ∧ user_id row' = user_id row
  ∧ user_name row' = user_name row ∧ channel_id row' = channel_id row
  ∧ created_at row' = created_at row.

(** Other threads are untouched, in both tables; the thread's own row is
    neither created nor deleted and keeps the columns that identify it. *)
Definition store_frame (this : Thread) (w w' : World) : Prop :=
  (∀ tid, tid ≠ thread_id this → threads w' !! tid = threads w !! tid)
  ∧ match threads w !! thread_id this, threads w' !! thread_id this with
    | Some row, Some row' => same_identity row row'
    | None, None => True
    | _, _ => False
    end
  ∧ filter (λ row, tm_thread_id row ≠ thread_id this) (thread_messages w')
    = filter (λ row, tm_thread_id row ≠ thread_id this) (thread_messages w).

(** A thread stored as closed is still stored as closed. *)
Definition stays_closed (this : Thread) (w w' : World) : Prop :=
  status <$> threads w !! thread_id this = Some CLOSED →
  status <$> threads w' !! thread_id this = Some CLOSED.

(** Time passing between two calls. *)
Definition with_clock (f : Timestamp → Timestamp) (w : World) : World :=
  mkWorld (threads w) (thread_messages w) (channels w) (dm_channels w)
          (sent w) (timers w) (sse_log w) (f (clock w)).

Inductive Event :=
| Wait (milliseconds : Z)
| Do (call : EngineCall).

Definition happen (env : Env) (this : Thread) (ev : Event) : M unit :=
  match ev with
  | Wait d => modify (with_clock (λ now, now + d))
  | Do call => perform env this call
  end.

Definition waits_forward (ev : Event) : Prop :=
  match ev with Wait d => 0 ≤ d | Do _ => True end.

(** The rows of the thread, in table order, carry times that never go
    back and are not after the current time. *)
Fixpoint times_ascend (bound : Z) (rows : list ThreadMessage) : Prop :=
  match rows with
  | [] => True
  | row :: rest =>
      bound ≤ stored_second (tm_created_at row)
      ∧ times_ascend (stored_second (tm_created_at row)) rest
  end.

Definition written_in_order (this : Thread) (w : World) : Prop :=
  ∃ bound,
    times_ascend bound
      (filter (λ row, tm_thread_id row = thread_id this) (thread_messages w))
    ∧ Forall (λ row, tm_thread_id row = thread_id this →
                     tm_created_at row ≤ clock w) (thread_messages w).

(** A relation between worlds that every elementary effect of a call on
    [this] respects: it is a preorder, and each write the methods make to
    the gateway, the transcript, the thread's row, the timers and the
    event sink stays within it. *)
Record respected (this : Thread) (extra : option string)
    (R : World → World → Prop) : Prop := {
  respected_refl : ∀ w, R w w;
  respected_trans : ∀ w1 w2 w3, R w1 w2 → R w2 w3 → R w1 w3;
  respected_sent : ∀ w ch content files,
    reaches this extra w ch →
    R w (with_sent (λ l, l ++ [mkSent (next_id w) ch content files]) w);
  respected_row : ∀ w mt uid uname b anon dm tm,
    R w (with_thread_messages
           (λ rows, rows ++ [mkThreadMessage (thread_id this) (clock w) mt uid
                               uname b anon dm tm]) w);
  respected_closed : ∀ w now by_id by_name,
    R w (with_threads (alter (closed_row now by_id by_name) (thread_id this)) w);
  respected_scheduled : ∀ w at_ by_id by_name,
    R w (with_threads
           (alter (set_scheduled_close at_ by_id by_name) (thread_id this)) w);
  respected_alerts : ∀ w a,
    R w (with_threads (alter (set_alert_users a) (thread_id this)) w);
  respected_overrides : ∀ w o,
    R w (with_threads (alter (set_staff_role_overrides o) (thread_id this)) w);
  respected_channel : ∀ w,
    R w (with_channels (delete (channel_id this)) w);
  respected_timers : ∀ w f, R w (with_timers f w);
  respected_sse : ∀ w f, R w (with_sse_log f w);
}.

(** ** The [role] command of [src/modules/role.js] *)

(** The message that carries the command: its author as a guild member,
    the ids of the roles the author holds, and the roles of the guild
    in the order of the guild's collection. *)
Record RoleCommandMessage := mkRoleCommandMessage {
  cmd_member : Member;
  cmd_member_roles : list string;
  cmd_guild_roles : list Role;
}.

(** The role id the handler accepts besides the configured one. *)
Definition fixed_admin_role : string := "523021576128692239".

(** The test that lets the handler change anything: a first argument, a
    configured admin role, and the author holding that role or the fixed
    one. *)
Definition role_command_allowed (inboxAdminRoleId : option string)
    (msg : RoleCommandMessage) (args : list string) : bool :=
  Js.truthy_opt (head args)
  && Js.truthy_opt inboxAdminRoleId
  && (Js.includes (Js.show_opt inboxAdminRoleId) (cmd_member_roles msg)
      || Js.includes fixed_admin_role (cmd_member_roles msg)).

(** [s.startsWith(search)] *)
Definition startsWith (s search : string) : bool := String.prefix search s.

Section RoleCommand.

(** What the handler calls and the sources do not hold.  The handler is
    modelled for every behaviour of these three:
    - [toLowerCase] is the built-in [String.prototype.toLowerCase], which
      folds the cased letters of all of Unicode;
    - [role_toString] is the [toString] of the gateway library's role
      object;
    - [postSystemMessageWithFallback] is
      [utils.postSystemMessageWithFallback(msg.channel, thread, text)],
      the call every path of the handler ends with. *)
Variable toLowerCase : string → string.
Variable role_toString : Role → string.
Variable postSystemMessageWithFallback :
  RoleCommandMessage → Thread → string → M unit.

(** [`${currentRole.name || currentRole}`] for
    [currentRole = thread.getMainRole(msg.member) || "Staff"]. *)
Definition current_role_text (currentRole : option Role) : string :=
  match currentRole with
  | Some r => if Js.truthy (role_name r) then role_name r else role_toString r
  | None => "Staff"
  end.

(** [msg.channel.guild.roles.find(r => r.id == search ||
    r.name.toLowerCase().startsWith(search))] *)
Definition find_role (roles : list Role) (search : string) : option Role :=
  head (filter (λ r, role_id r = search
                     ∨ startsWith (toLowerCase (role_name r)) search = true)
               roles).

(** The handler of the command. *)
Definition role_command (env : Env) (inboxAdminRoleId : option string)
    (msg : RoleCommandMessage) (args : list string) (thread : option Thread)
    : M unit :=
  match thread with
  | None => ret tt
  | Some thread =>
      if negb (role_command_allowed inboxAdminRoleId msg args)
      then
        postSystemMessageWithFallback msg thread
          ("Your current role for this thread is **"
             +:+ current_role_text (getMainRole env thread (cmd_member msg))
             +:+ "**!")
      else
        let hasOverride :=
          Js.truthy_opt
            (getStaffRoleOverride thread (member_id (cmd_member msg))) in
        if decide (toLowerCase (Js.show_opt (head args)) = "reset")
        then
          if negb hasOverride
          then
            postSystemMessageWithFallback msg thread
              "You haven't got a custom role in this thread."
          else
            deleteStaffRoleOverride thread (member_id (cmd_member msg)) >>
            postSystemMessageWithFallback msg thread
              "Your role in this thread has been reset to default."
        else
          let search := toLowerCase (Js.join " " args) in
          match find_role (cmd_guild_roles msg) search with
          | None =>
              postSystemMessageWithFallback msg thread
                "Please provide a role name or ID!"
          | Some role =>
              if negb hasOverride
              then
                setStaffRoleOverride thread (member_id (cmd_member msg))
                  (role_id role) >>
                postSystemMessageWithFallback msg thread
                  ("Your role in this thread will now appear as **"
                     +:+ role_name role +:+ "**.")
              else
                deleteStaffRoleOverride thread (member_id (cmd_member msg)) >>
                postSystemMessageWithFallback msg thread
                  "Your role in this thread has been reset to default."
          end
  end.

End RoleCommand.

(** The links [replyToUser] appends to the logged text. *)
Definition reply_log_links (env : Env) (l : list Attachment) : string :=
  fold_right
    (λ attachment acc,
       newline +:+ newline +:+ "**Attachment:** "
         +:+ attachments_getUrl env (attachment_id attachment)
               (attachment_filename attachment)
         +:+ acc)
    "" l.

(** The name an anonymous reply shows. *)
Definition shown_role (env : Env) (this : Thread) (moderator : Member) : string :=
  match getMainRole env this moderator with
  | Some r => role_name r
  | None => "Staff"
  end.

(** The marker [sendCommandToUser] relays and logs. *)
Definition command_marker (command_name : string) : string :=
  "[Command Help: " +:+ command_name +:+ "]".

(** What the gateway delivered outside the relay channel of [this]: all a
    user can see of a thread. *)
Definition sent_elsewhere (this : Thread) (w : World) : list Sent :=
  filter (λ m, sent_channel m ≠ channel_id this) (sent w).

(** The override stored for [userId] in the row of [this]. *)
Definition stored_override (w : World) (this : Thread) (userId : string)
    : option string :=
  match threads w !! thread_id this with
  | Some row => getStaffRoleOverride row userId
  | None => None
  end.

(** A stored row of a thread with its [staff_role_overrides] column left
    out. *)
Definition other_columns (row : Thread) : Thread :=
  set_staff_role_overrides None row.

(** What the two writers of the column leave alone. *)
Definition override_scope (this : Thread) (userId : string) (w w' : World)
    : Prop :=
  w' = with_threads (λ _, threads w') w
  ∧ (∀ other, other ≠ thread_id this → threads w' !! other = threads w !! other)
  ∧ other_columns <$> threads w' !! thread_id this
    = other_columns <$> threads w !! thread_id this
  ∧ (∀ u, u ≠ userId → stored_override w' this u = stored_override w this u).

(** An operator's chat line in the relay channel of thread 1. *)
Definition chat_line : StaffMessage :=
  mkStaffMessage "950" "7" "bob" "0007" "let me check".

(** A day of thread 1: the user writes, bob chats, replies and closes. *)
Definition busy_day : list EngineCall :=
  [ReceiveUserReply hi false;
   SaveChatMessage chat_line false;
   AlertStatus "7" true;
   ReplyToUser bob "hello" [] true false;
   ScheduleClose 61000 (mkUser "7" "bob" "0007");
   Close None false false].

(** The same day with time passing between the calls, and the user
    editing the first message at the end. *)
Definition busy_day_timed : list Event :=
  [Do (ReceiveUserReply hi false);
   Wait 4000;
   Do (SaveChatMessage chat_line false);
   Wait 500;
   Do (ReplyToUser bob "hello" [] true false);
   Do (UpdateChatMessage hi (mkSent "77" "c1" (Text "hi again") []));
   Wait 60000;
   Do (Close (Some (mkAuthor (Some "7") "bob" "0007")) true false)].

(** Bob, who holds the admin role 600, types the role command in the
    relay channel of thread 1; the guild has the roles 500 and 501. *)
Definition role_message : RoleCommandMessage :=
  mkRoleCommandMessage bob ["600"]
    [mkRole "500" "Moderator"; mkRole "501" "Mod Trainee"].

(** Thread 1 once bob has the override 501. *)
Definition th_override : Thread :=
  mkThread "1" OPEN "42" "alice#0001" "c1" None None None None
           (Some {[ "7" := "501" ]}) 0.

Definition w_override : World :=
  mkWorld {[ "1" := th_override ]} [] {[ "c1" := Live; "dm42" := Live ]}
          {[ "42" := "dm42" ]} [] [] [] 1000.

(** A picture of 3 MiB and a note of 2 MiB sharp, sent by the user. *)
Definition with_files : UserMessage :=
  mkUserMessage "902" "see attached" 0 "alice" "0001" 990
    [mkAttachment "a1" "big.png" 3145728; mkAttachment "a2" "note.txt" 2097152]
    "dm42".

(** The user's first message, edited. *)
Definition hi_edited : UserMessage :=
  mkUserMessage "900" "hi there, anyone?" 0 "alice" "0001" 995 [] "dm42".

(** Carol, another operator without a role of her own. *)
Definition carol : Member := mkMember "8" "carol" (Some "Caz") None.

(** Bob as a member of a guild that has the roles 500 and 501. *)
Definition guild_roles0 : gmap string Role :=
  {[ "500" := mkRole "500" "Moderator"; "501" := mkRole "501" "Mod Trainee" ]}.

Definition bob_in_guild : Member := mkMember "7" "bob" None (Some guild_roles0).

(** A reply with one attachment. *)
Definition one_file : list Attachment := [mkAttachment "a3" "rules.pdf" 1024].

(** Dana holds the configured admin role; the guild roles are those of
    [role_message]. *)
Definition dana : Member := mkMember "9" "dana" None None.

Definition admin_message : RoleCommandMessage :=
  mkRoleCommandMessage dana ["700"]
    [mkRole "500" "Moderator"; mkRole "501" "Mod Trainee"].

(** Thread 1 once Dana has the override 500. *)
Definition th_dana : Thread :=
  mkThread "1" OPEN "42" "alice#0001" "c1" None None None None
           (Some {[ "9" := "500" ]}) 0.

Definition w_dana : World :=
  mkWorld {[ "1" := th_dana ]} [] {[ "c1" := Live; "dm42" := Live ]}
          {[ "42" := "dm42" ]} [] [] [] 1000.

(** The three functions the handler of the [role] command is given in
    the scenarios below.  A role is printed with its id.  The texts of
    the scenarios hold no letters outside A to Z and a to z, and on such
    texts lower-casing folds A to Z and keeps the rest.  The answer is
    posted as a system message of the thread. *)
Definition role_toString0 (r : Role) : string := "[Role " +:+ role_id r +:+ "]".

Definition lower_letter0 (c : ascii) : ascii :=
  let n := nat_of_ascii c in
  if (65 <=? n)%nat && (n <=? 90)%nat then ascii_of_nat (n + 32) else c.

Fixpoint toLowerCase0 (s : string) : string :=
  match s with
  | EmptyString => EmptyString
  | String c rest => String (lower_letter0 c) (toLowerCase0 rest)
  end.

Definition post_answer0 (msg : RoleCommandMessage) (thread : Thread)
    (text : string) : M unit :=
  bind (postSystemMessage env0 thread (Text text) []) (λ _, ret tt).

(** Dana writes a note in the relay channel. *)
Definition staff_note : StaffMessage :=
  mkStaffMessage "950" "9" "dana" "0009" "checking the logs".

(** The bot has lost the permission to write to the relay channel. *)
Definition w_forbidden : World :=
  mkWorld {[ "1" := th0 ]} [] {[ "c1" := Faulty 50013 "Missing Permissions";
                                 "dm42" := Live ]}
          {[ "42" := "dm42" ]} [] [] [] 1000.

(** A thread object whose row is not in the store. *)
Definition th_lost : Thread :=
  mkThread "2" OPEN "43" "eve#0002" "c2" None None None None None 0.

(** ** Running the collaborators *)

Section Gateway.

Context (env : Env).

Lemma bot_createMessage_live ch content files w :
  channels w !! ch = Some Live →
  bot_createMessage ch content files w
  = Ok (mkSent (next_id w) ch content files)
       (with_sent (λ l, l ++ [mkSent (next_id w) ch content files]) w).
Proof. intros H. unfold bot_createMessage. by rewrite H. Qed.

Lemma bot_createMessage_throw ch content files w e w' :
  bot_createMessage ch content files w = Throw e w' → w' = w.
Proof.
  unfold bot_createMessage.
  destruct (channels w !! ch) as [[|c m]|]; intros H; by inversion H.
Qed.

Lemma postToUser_throw this text file w e w' :
  postToUser this text file w = Throw e w' → w' = w.
Proof.
  unfold postToUser, getDMChannel, bind, gets.
  destruct (dm_channels w !! user_id this) as [ch|].
  - apply bot_createMessage_throw.
  - unfold throw. intros H. by inversion H.
Qed.

Lemma postToUser_ok this text file w m w' :
  postToUser this text file w = Ok m w' →
  w' = with_sent (λ l, l ++ [m]) w ∧ sent_content m = text
  ∧ sent_files m = file ∧ dm_channels w !! user_id this = Some (sent_channel m).
Proof.
  unfold postToUser, getDMChannel, bind, gets, bot_createMessage, throw.
  destruct (dm_channels w !! user_id this) as [ch|]; [|done].
  destruct (channels w !! ch) as [[|c e]|]; [|done..].
  intros H. by inversion H.
Qed.

(** A silent close never uses the method it is given for posting. *)
Lemma close_with_silent post post' this author sse :
  close_with post this author true sse = close_with post' this author true sse.
Proof. reflexivity. Qed.

Lemma postToThreadChannel_live this content file w :
  relay_live w this →
  postToThreadChannel env this content file w
  = Ok (Some (mkSent (next_id w) (channel_id this) content file))
       (with_sent (λ l, l ++ [mkSent (next_id w) (channel_id this) content file]) w).
Proof.
  intros H. unfold postToThreadChannel, try_catch, bind.
  by rewrite (bot_createMessage_live _ _ _ _ H).
Qed.

Lemma postToThreadChannel_gone this content file w :
  relay_gone w this →
  postToThreadChannel env this content file w = Ok None (auto_closed env this w).
Proof.
  unfold relay_gone, postToThreadChannel, try_catch, bind, bot_createMessage.
  destruct (channels w !! channel_id this) as [[|c m]|] eqn:Hch; [done| |].
  - intros ->. simpl.
    unfold detached, close_with, bind, ret, gets, threads_update, modify; simpl.
    rewrite Hch. reflexivity.
  - intros _. simpl.
    unfold detached, close_with, bind, ret, gets, threads_update, modify; simpl.
    rewrite Hch. reflexivity.
Qed.

Lemma postToThreadChannel_faulty this content file w c m :
  channels w !! channel_id this = Some (Faulty c m) → c ≠ unknown_channel →
  postToThreadChannel env this content file w = Throw (DiscordError c m) w.
Proof.
  intros Hch Hc.
  unfold postToThreadChannel, try_catch, bind, bot_createMessage.
  rewrite Hch. simpl. rewrite decide_False; [done|]. congruence.
Qed.

Lemma postSystemMessage_live this text file w :
  relay_live w this →
  postSystemMessage env this text file w
  = Ok (Some (mkSent (next_id w) (channel_id this) text file))
       (with_thread_messages (λ rows, rows ++ [notice_row w this text])
          (with_sent (λ l, l ++ [mkSent (next_id w) (channel_id this) text file]) w)).
Proof.
  intros H. unfold postSystemMessage, bind.
  rewrite (postToThreadChannel_live _ _ _ _ H). reflexivity.
Qed.

Lemma postSystemMessage_gone this text file w :
  relay_gone w this →
  postSystemMessage env this text file w = Ok None (auto_closed env this w).
Proof.
  intros H. unfold postSystemMessage, bind.
  by rewrite (postToThreadChannel_gone _ _ _ _ H).
Qed.

Lemma postSystemMessage_faulty this text file w c m :
  channels w !! channel_id this = Some (Faulty c m) → c ≠ unknown_channel →
  postSystemMessage env this text file w = Throw (DiscordError c m) w.
Proof.
  intros Hch Hc. unfold postSystemMessage, bind.
  by rewrite (postToThreadChannel_faulty _ _ _ _ _ _ Hch Hc).
Qed.

End Gateway.

(** ** Outbound replies whose DM fails *)

Section SystemNotice.

Context (env : Env).

(** Whatever the state of the relay channel, a system notice adds at
    most its own message and its own row. *)
Lemma postSystemMessage_effects this text w :
  let r := postSystemMessage env this text [] w in
  sent (world_of r) = sent w ++ posted_notice w this text
  ∧ thread_messages (world_of r) = thread_messages w ++ logged_notice w this text.
Proof.
  unfold posted_notice, logged_notice.
  destruct (channels w !! channel_id this) as [[|c m]|] eqn:Hch.
  - rewrite postSystemMessage_live; [|done]. done.
  - destruct (decide (c = unknown_channel)) as [->|Hc].
    + rewrite postSystemMessage_gone; [|by unfold relay_gone; rewrite Hch].
      simpl. by rewrite !app_nil_r.
    + rewrite (postSystemMessage_faulty _ _ _ _ _ _ _ Hch Hc).
      simpl. by rewrite !app_nil_r.
  - rewrite postSystemMessage_gone; [|by unfold relay_gone; rewrite Hch].
    simpl. by rewrite !app_nil_r.
Qed.

End SystemNotice.

(** C1.  When the DM of an outbound reply cannot be delivered,
    [replyToUser] stops after reporting the failure: what it does is what
    posting the system notice "Error while replying to user: ..." does.
    The gateway delivers nothing but that notice, the transcript gains
    nothing but the notice's own [SYSTEM] row (so no message and no
    [TO_USER] row for the reply), and with a live relay channel the
    notice is posted and the call resolves. *)
Theorem replyToUser_dm_failure env this moderator text replyAttachments
    isAnonymous sse w e w0 :
  postToUser this (Text (reply_dmContent env this moderator text isAnonymous))
    (reply_attachments env text replyAttachments).1 w = Throw e w0 →
  let r := replyToUser env this moderator text replyAttachments isAnonymous sse w in
  r = (postSystemMessage env this (dm_failure_text e) [] >> ret tt)%async w
  ∧ sent (world_of r) = sent w ++ posted_notice w this (dm_failure_text e)
  ∧ thread_messages (world_of r)
    = thread_messages w ++ logged_notice w this (dm_failure_text e)
  ∧ (∀ row, row ∈ logged_notice w this (dm_failure_text e) →
            message_type row = SYSTEM ∧ body row = system_body (dm_failure_text e))
  ∧ (relay_live w this →
     resolved r
     ∧ posted_notice w this (dm_failure_text e) = [notice w this (dm_failure_text e)]
     ∧ logged_notice w this (dm_failure_text e)
       = [notice_row w this (dm_failure_text e)]).
Proof.
  intros Hdm r.
  assert (w0 = w) as -> by (by eapply postToUser_throw).
  assert (Hr : r = (postSystemMessage env this (dm_failure_text e) [] >> ret tt)%async w).
  { subst r. unfold replyToUser, bind at 1, gets.
    destruct (reply_attachments env text replyAttachments) as [files logContent].
    simpl in Hdm. unfold bind at 1, try_catch, bind at 1. rewrite Hdm.
    unfold dm_failure_text, bind, ret.
    by destruct (postSystemMessage env this _ [] w). }
  pose proof (postSystemMessage_effects env this (dm_failure_text e) w) as [Hs Ht].
  assert (Hw : world_of r = world_of (postSystemMessage env this (dm_failure_text e) [] w)).
  { rewrite Hr. unfold bind, ret.
    by destruct (postSystemMessage env this _ [] w). }
  split; [done|]. rewrite Hw. split; [done|]. split; [done|].
  split.
  - unfold logged_notice. intros row.
    destruct (channels w !! channel_id this) as [[|c m]|]; simpl.
    + by intros ->%list_elem_of_singleton.
    + by intros ?%elem_of_nil.
    + by intros ?%elem_of_nil.
  - intros Hlive. unfold posted_notice, logged_notice.
    rewrite Hr. unfold bind, ret. rewrite postSystemMessage_live; [|done].
    unfold relay_live in Hlive. by rewrite Hlive.
Qed.

(** The reply of [bob] to a user who cannot be reached. *)
Lemma replyToUser_dm_failure_witness :
  let e := JsError "Could not open DMs with the user. They may have blocked the bot or set their privacy settings higher." in
  let r := replyToUser env0 th0 bob "hello" [] false false w_unreachable in
  r = (postSystemMessage env0 th0 (dm_failure_text e) [] >> ret tt)%async w_unreachable
  ∧ sent (world_of r) = sent w_unreachable ++ posted_notice w_unreachable th0 (dm_failure_text e)
  ∧ thread_messages (world_of r)
    = thread_messages w_unreachable ++ logged_notice w_unreachable th0 (dm_failure_text e)
  ∧ (∀ row, row ∈ logged_notice w_unreachable th0 (dm_failure_text e) →
            message_type row = SYSTEM ∧ body row = system_body (dm_failure_text e))
  ∧ (relay_live w_unreachable th0 →
     resolved r
     ∧ posted_notice w_unreachable th0 (dm_failure_text e)
       = [notice w_unreachable th0 (dm_failure_text e)]
     ∧ logged_notice w_unreachable th0 (dm_failure_text e)
       = [notice_row w_unreachable th0 (dm_failure_text e)]).
Proof.
  exact (replyToUser_dm_failure env0 th0 bob "hello" [] false false
           w_unreachable _ w_unreachable eq_refl).
Defined.

(** ** A relay channel that no longer exists *)

Section AutoClose.

Context (env : Env).

Lemma auto_closed_persisted this w row :
  persisted w this = Some row →
  persisted (auto_closed env this w) this
  = Some (closed_row (clock w) (Some (id (bot_user env)))
            (username (bot_user env) +:+ "#" +:+ discriminator (bot_user env)) row).
Proof.
  unfold persisted, auto_closed. simpl. intros H.
  by rewrite lookup_alter_eq, H.
Qed.

Lemma relay_gone_with_sent f w this :
  relay_gone w this → relay_gone (with_sent f w) this.
Proof. done. Qed.

Lemma replyToUser_relay_gone this moderator text replyAttachments isAnonymous
    sse w :
  relay_gone w this →
  replyToUser env this moderator text replyAttachments isAnonymous sse w
  = Ok tt
      (auto_closed env this
         match postToUser this
                 (Text (reply_dmContent env this moderator text isAnonymous))
                 (reply_attachments env text replyAttachments).1 w with
         | Ok dm _ => with_sent (λ l, l ++ [dm]) w
         | Throw _ _ => w
         end).
Proof.
  intros Hgone. unfold replyToUser, bind at 1, gets.
  destruct (reply_attachments env text replyAttachments) as [files logContent].
  simpl. unfold bind at 1, try_catch, bind at 1.
  destruct (postToUser this _ files w) as [dm w1|e w1] eqn:Hdm.
  - apply postToUser_ok in Hdm as (-> & _). unfold ret at 1.
    unfold bind. rewrite postToThreadChannel_gone; [done|].
    by apply relay_gone_with_sent.
  - apply postToUser_throw in Hdm as ->.
    unfold bind. rewrite postSystemMessage_gone; [|done]. done.
Qed.

Lemma receiveUserReply_relay_gone this msg sse w :
  relay_gone w this →
  receiveUserReply env this msg sse w
  = (let+ _ :=
       bot_createMessage (msg_channel_id msg)
         (Text "The current thread was automatically closed due to an internal error. Please send another message to open a new thread.")
         [] in
     ret tt)%async (auto_closed env this w).
Proof.
  intros Hgone. unfold receiveUserReply.
  destruct (inbound_attachments env _ _ _) as [[files threadContent] logContent].
  unfold bind at 1. by rewrite postToThreadChannel_gone.
Qed.

End AutoClose.

(** C2.  When the relay channel no longer exists (its sends are answered
    with code 10003), an outbound reply and an inbound message both leave
    the stored thread with status [CLOSED] and add no transcript row.
    Outbound, the call resolves and the gateway has delivered exactly the
    DM, if the DM could be sent, and nothing else (no closing notice);
    inbound, every message delivered before is still there and anything
    new went to the channel the user wrote from. *)
Theorem relay_gone_closes_thread env this moderator text replyAttachments
    isAnonymous sse msg sse' w row :
  persisted w this = Some row →
  relay_gone w this →
  (let r := replyToUser env this moderator text replyAttachments isAnonymous sse w in
   let dm := postToUser this
               (Text (reply_dmContent env this moderator text isAnonymous))
               (reply_attachments env text replyAttachments).1 w in
   resolved r
   ∧ status <$> persisted (world_of r) this = Some CLOSED
   ∧ thread_messages (world_of r) = thread_messages w
   ∧ sent (world_of r)
     = sent w ++ match dm with Ok m _ => [m] | Throw _ _ => [] end)
  ∧ (let r := receiveUserReply env this msg sse' w in
     status <$> persisted (world_of r) this = Some CLOSED
     ∧ thread_messages (world_of r) = thread_messages w
     ∧ sent w `prefix_of` sent (world_of r)
     ∧ (∀ m, m ∈ sent (world_of r) →
             m ∈ sent w ∨ sent_channel m = msg_channel_id msg)
     ∧ (channels w !! msg_channel_id msg = Some Live → resolved r)).
Proof.
  intros Hrow Hgone. split.
  - intros r dm. subst r. rewrite replyToUser_relay_gone; [|done].
    fold dm. simpl. split; [done|].
    destruct dm as [m w1|e w1]; simpl.
    + erewrite auto_closed_persisted; [done|exact Hrow].
    + erewrite auto_closed_persisted; [|exact Hrow].
      by rewrite app_nil_r.
  - intros r. subst r. rewrite receiveUserReply_relay_gone; [|done].
    unfold bind, bot_createMessage, ret. simpl.
    destruct (channels w !! msg_channel_id msg) as [[|c e]|] eqn:Hch; simpl;
      change (persisted (with_sent ?f ?w0) this) with (persisted w0 this);
      erewrite auto_closed_persisted by exact Hrow; simpl.
    + split_and!; [done|done|by apply prefix_app_r| |done].
      intros m [Hm| ->%list_elem_of_singleton]%elem_of_app; [by left|by right].
    + split_and!; [done|done|done|by left|done].
    + split_and!; [done|done|done|by left|done].
Qed.

(** The relay channel of thread 1 was deleted: [bob] replies, and the
    user writes. *)
Lemma relay_gone_closes_thread_witness :
  (let r := replyToUser env0 th0 bob "hello" [] false false w_relay_gone in
   let dm := postToUser th0 (Text (reply_dmContent env0 th0 bob "hello" false))
               (reply_attachments env0 "hello" []).1 w_relay_gone in
   resolved r
   ∧ status <$> persisted (world_of r) th0 = Some CLOSED
   ∧ thread_messages (world_of r) = thread_messages w_relay_gone
   ∧ sent (world_of r)
     = sent w_relay_gone ++ match dm with Ok m _ => [m] | Throw _ _ => [] end)
  ∧ (let r := receiveUserReply env0 th0 hi false w_relay_gone in
     status <$> persisted (world_of r) th0 = Some CLOSED
     ∧ thread_messages (world_of r) = thread_messages w_relay_gone
     ∧ sent w_relay_gone `prefix_of` sent (world_of r)
     ∧ (∀ m, m ∈ sent (world_of r) →
             m ∈ sent w_relay_gone ∨ sent_channel m = msg_channel_id hi)
     ∧ (channels w_relay_gone !! msg_channel_id hi = Some Live → resolved r)).
Proof.
  refine (relay_gone_closes_thread env0 th0 bob "hello" [] false false hi false
            w_relay_gone th0 _ _).
  - reflexivity.
  - vm_compute. exact I.
Defined.

(** ** Closing a thread *)

Section Close.

Context (env : Env).

(** A silent close, step by step: the row is written, the event is
    emitted, and the relay channel is deleted if the gateway knows it. *)
Lemma close_silent_run post this author sse w row a :
  persisted w this = Some row →
  recorded_author author row = Some a →
  close_with post this author true sse w
  = match channels w !! channel_id this with
    | Some Live =>
        Ok tt (with_channels (delete (channel_id this))
                 (closed_world this sse a row w))
    | Some (Faulty c m) => Throw (DiscordError c m) (closed_world this sse a row w)
    | None => Ok tt (closed_world this sse a row w)
    end.
Proof.
  unfold persisted, recorded_author. intros Hrow Ha.
  unfold close_with. simpl. unfold bind at 1. unfold ret at 1.
  unfold bind at 1.
  assert (Hauthor :
    match author with
    | Some a0 => ret a0
    | None =>
        (let+ found := threads_first (thread_id this) in
         let+ newThread := row_or_throw found in
         match scheduled_close_name newThread with
         | Some name =>
             ret (mkAuthor (scheduled_close_id newThread)
                    (Js.join "#" (Js.slice_init (Js.split_hash name)))
                    (Js.slice_last (Js.split_hash name)))
         | None => throw (JsError "TypeError: Cannot read properties of null")
         end)%async
    end w = Ok a w).
  { destruct author as [a0|].
    - by inversion Ha.
    - unfold bind, threads_first, gets, row_or_throw. rewrite Hrow.
      unfold ret at 1. destruct (scheduled_close_name row); by inversion Ha. }
  rewrite Hauthor. unfold bind, gets, threads_update, modify, threads_first.
  unfold closed_world, author_name.
  destruct sse; simpl.
  - rewrite lookup_alter_eq, Hrow. simpl.
    destruct (channels w !! channel_id this) as [[|c m]|]; reflexivity.
  - destruct (channels w !! channel_id this) as [[|c m]|]; reflexivity.
Qed.

(** A close that is not silent is a silent close started once the
    closing notice has been handled. *)
Lemma close_notice_step this author silent sse w :
  (silent = false → relay_answers w this) →
  close env this author silent sse w
  = close_with (λ _ _, ret None) this author true sse
      (after_closing_notice env this silent w).
Proof.
  intros Hans. unfold close, after_closing_notice.
  destruct silent; [reflexivity|].
  specialize (Hans eq_refl). unfold relay_answers in Hans.
  unfold close_with at 1. simpl negb. cbv iota.
  unfold bind at 1. unfold bind at 1.
  destruct (channels w !! channel_id this) as [[|c m]|] eqn:Hch.
  - rewrite postToThreadChannel_live; [reflexivity|done].
  - subst c. rewrite postToThreadChannel_gone; [reflexivity|].
    unfold relay_gone. by rewrite Hch.
  - rewrite postToThreadChannel_gone; [reflexivity|].
    unfold relay_gone. by rewrite Hch.
Qed.


Lemma after_closing_notice_clock this silent w :
  clock (after_closing_notice env this silent w) = clock w.
Proof.
  unfold after_closing_notice. destruct silent; [done|].
  by destruct (channels w !! channel_id this) as [[|c m]|].
Qed.

Lemma after_closing_notice_channels this silent w :
  channels (after_closing_notice env this silent w) = channels w.
Proof.
  unfold after_closing_notice. destruct silent; [done|].
  by destruct (channels w !! channel_id this) as [[|c m]|].
Qed.

Lemma after_closing_notice_thread_messages this silent w :
  thread_messages (after_closing_notice env this silent w) = thread_messages w.
Proof.
  unfold after_closing_notice. destruct silent; [done|].
  by destruct (channels w !! channel_id this) as [[|c m]|].
Qed.

(** What the store holds for the thread once the notice step is over. *)
Lemma after_closing_notice_persisted this silent w row :
  persisted w this = Some row →
  persisted (after_closing_notice env this silent w) this
  = Some (if silent then row
          else match channels w !! channel_id this with
               | Some Live => row
               | _ => closed_row (clock w) (Some (id (bot_user env)))
                        (username (bot_user env) +:+ "#"
                           +:+ discriminator (bot_user env)) row
               end).
Proof.
  intros Hrow. unfold after_closing_notice. destruct silent; [done|].
  destruct (channels w !! channel_id this) as [[|c m]|];
    [done|by apply auto_closed_persisted..].
Qed.

End Close.

(** ** Strings rebuilt from their pieces *)

Section Strings.

Lemma append_cons c s t : String c s +:+ t = String c (s +:+ t).
Proof. reflexivity. Qed.

Lemma append_nil_l t : "" +:+ t = t.
Proof. reflexivity. Qed.

Lemma append_nil_r s : s +:+ "" = s.
Proof. induction s as [|c s IH]; [done|]. by rewrite append_cons, IH. Qed.

Lemma append_assoc s t u : (s +:+ t) +:+ u = s +:+ t +:+ u.
Proof. induction s as [|c s IH]; [done|]. by rewrite !append_cons, IH. Qed.

Lemma append_snoc s c t : (s +:+ String c "") +:+ t = s +:+ String c t.
Proof. by rewrite append_assoc. Qed.

Lemma split_hash_from_cons cur c rest :
  Js.split_hash_from cur (String c rest)
  = if decide (c = "#"%char) then cur :: Js.split_hash_from "" rest
    else Js.split_hash_from (cur +:+ String c "") rest.
Proof. destruct c as [[] [] [] [] [] [] [] []]; reflexivity. Qed.

Lemma split_hash_from_nonempty cur s : Js.split_hash_from cur s ≠ [].
Proof.
  revert cur. induction s as [|c s IH]; intros cur; [done|].
  rewrite split_hash_from_cons. by destruct (decide (c = "#"%char)).
Qed.

Lemma join_cons_cons sep x y l :
  Js.join sep (x :: y :: l) = x +:+ sep +:+ Js.join sep (y :: l).
Proof. reflexivity. Qed.

Lemma join_cons sep x l :
  l ≠ [] → Js.join sep (x :: l) = x +:+ sep +:+ Js.join sep l.
Proof. by destruct l. Qed.

(** Joining what [split] returned gives the string back. *)
Lemma join_split_hash_from cur s :
  Js.join "#" (Js.split_hash_from cur s) = cur +:+ s.
Proof.
  revert cur. induction s as [|c s IH]; intros cur.
  - simpl. by rewrite append_nil_r.
  - rewrite split_hash_from_cons. destruct (decide (c = "#"%char)) as [->|Hc].
    + rewrite join_cons by apply split_hash_from_nonempty. by rewrite IH.
    + by rewrite IH, append_snoc.
Qed.

Lemma join_init_last sep x l :
  l ≠ [] →
  Js.join sep (x :: l)
  = Js.join sep (removelast (x :: l)) +:+ sep +:+ List.last (x :: l) "".
Proof.
  revert x. induction l as [|y l IH]; intros x Hl; [done|].
  destruct l as [|z l]; [reflexivity|].
  rewrite join_cons_cons, IH by done.
  change (removelast (x :: y :: z :: l)) with (x :: removelast (y :: z :: l)).
  change (List.last (x :: y :: z :: l) "") with (List.last (y :: z :: l) "").
  change (removelast (y :: z :: l)) with (y :: removelast (z :: l)).
  rewrite join_cons_cons. by rewrite !append_assoc.
Qed.

Lemma split_hash_from_two cur s :
  has_hash s = true → ∃ x y l, Js.split_hash_from cur s = x :: y :: l.
Proof.
  revert cur. induction s as [|c s IH]; intros cur; [done|].
  simpl has_hash. rewrite split_hash_from_cons.
  destruct (decide (c = "#"%char)); [|by apply IH].
  intros _. pose proof (split_hash_from_nonempty "" s).
  destruct (Js.split_hash_from "" s) as [|y l]; [done|]. eauto.
Qed.

(** A stored name with a ["#"] in it is rebuilt as it was. *)
Lemma rebuilt_name_hash name : has_hash name = true → rebuilt_name name = name.
Proof.
  intros H. unfold rebuilt_name, Js.slice_init, Js.slice_last, Js.split_hash.
  destruct (split_hash_from_two "" name H) as (x & y & l & Hsplit).
  rewrite Hsplit, <-(join_init_last "#" x (y :: l)) by done.
  by rewrite <-Hsplit, join_split_hash_from.
Qed.

Lemma has_hash_name u d : has_hash (u +:+ "#" +:+ d) = true.
Proof.
  induction u as [|c u IH]; [done|].
  rewrite append_cons. simpl. by destruct (decide (c = "#"%char)).
Qed.

End Strings.

(** C5, as the code has it.  [close] on a stored thread: whenever the
    call gets as far as its update (the closing notice, if any, is not
    rejected by the gateway for a reason other than a missing channel,
    and a name is stored to rebuild a missing author from), the stored
    row has status [CLOSED], the time of the call as close time, the
    closing author stamped, and [alert_users] and [staff_role_overrides]
    null; this holds for an [OPEN] and for a [SUSPENDED] row alike.  An
    author that is passed is recorded as given.  Without an author, a
    silent close or one on a live relay channel records the id and the
    name rebuilt from the stored scheduled-close columns, and a stored
    name that holds a ["#"] is written back unchanged; a close that is
    not silent and finds the relay channel gone records the bot
    instead. *)
Theorem close_persists env this author silent sse w row :
  persisted w this = Some row →
  (silent = false → relay_answers w this) →
  (author = None → is_Some (scheduled_close_name row)) →
  let r := close env this author silent sse w in
  ∃ row',
    persisted (world_of r) this = Some row'
    ∧ status row' = CLOSED
    ∧ scheduled_close_at row' = Some (clock w)
    ∧ alert_users row' = None
    ∧ staff_role_overrides row' = None
    ∧ (∀ a, author = Some a →
            scheduled_close_id row' = author_id a
            ∧ scheduled_close_name row' = Some (author_name a))
    ∧ (author = None → silent = true ∨ relay_live w this →
       scheduled_close_id row' = scheduled_close_id row
       ∧ scheduled_close_name row' = rebuilt_name <$> scheduled_close_name row
       ∧ ∀ name, scheduled_close_name row = Some name → has_hash name = true →
                 scheduled_close_name row' = Some name)
    ∧ (author = None → silent = false → relay_gone w this →
       scheduled_close_id row' = Some (id (bot_user env))
       ∧ scheduled_close_name row'
         = Some (username (bot_user env) +:+ "#" +:+ discriminator (bot_user env))).
Proof.
  intros Hrow Hans Hname r. subst r.
  rewrite close_notice_step by done.
  pose proof (after_closing_notice_persisted env this silent w row Hrow) as Hread.
  set (read := if silent then row else _) in Hread.
  assert (∃ a, recorded_author author read = Some a) as [a Ha].
  { destruct author as [a|]; [by eexists|].
    specialize (Hname eq_refl). simpl.
    assert (is_Some (scheduled_close_name read)) as [n ->]; [|by eexists].
    subst read. destruct silent; [done|].
    by destruct (channels w !! channel_id this) as [[|c m]|]. }
  rewrite (close_silent_run _ _ _ _ _ _ _ Hread Ha).
  rewrite after_closing_notice_channels.
  exists (closed_row (clock w) (author_id a) (author_name a) row).
  split.
  { assert (∀ w', threads w'
               = alter (closed_row (clock w) (author_id a) (author_name a))
                   (thread_id this)
                   (threads (after_closing_notice env this silent w)) →
             persisted w' this
             = Some (closed_row (clock w) (author_id a) (author_name a) row)) as Hp.
    { intros w' Hw'. unfold persisted in *. rewrite Hw', lookup_alter_eq, Hread.
      subst read. destruct silent; [done|].
      by destruct (channels w !! channel_id this) as [[|c m]|]. }
    destruct (channels w !! channel_id this) as [[|c m]|]; apply Hp; simpl;
      by rewrite after_closing_notice_clock. }
  split_and!; try done.
  - intros a0 ->. by inversion Ha.
  - intros -> Hcase. simpl in Ha.
    assert (read = row) as ->.
    { subst read. destruct Hcase as [->|Hlive]; [done|].
      destruct silent; [done|]. unfold relay_live in Hlive. by rewrite Hlive. }
    destruct (scheduled_close_name row) as [name|] eqn:Hn; [|done].
    inversion Ha; subst a. simpl. split_and!; [done|done|].
    intros name' [= <-] Hhash. f_equal. by apply rebuilt_name_hash.
  - intros -> -> Hgone. simpl in Ha. unfold relay_gone in Hgone.
    assert (read = closed_row (clock w) (Some (id (bot_user env)))
                     (username (bot_user env) +:+ "#"
                        +:+ discriminator (bot_user env)) row) as ->.
    { subst read. by destruct (channels w !! channel_id this) as [[|c m]|]. }
    simpl in Ha. inversion Ha; subst a. simpl. split; [done|].
    f_equal. apply rebuilt_name_hash, has_hash_name.
Qed.

(** The scheduler closes thread 1, which bob had scheduled for closing:
    no author is passed, and the closing notice is posted. *)
Lemma close_persists_witness :
  ∃ row',
    persisted (world_of (close env0 th_scheduled None false false w_scheduled))
      th_scheduled = Some row'
    ∧ status row' = CLOSED
    ∧ scheduled_close_at row' = Some (clock w_scheduled)
    ∧ alert_users row' = None
    ∧ staff_role_overrides row' = None
    ∧ (∀ a, @None Author = Some a →
            scheduled_close_id row' = author_id a
            ∧ scheduled_close_name row' = Some (author_name a))
    ∧ (@None Author = None → false = true ∨ relay_live w_scheduled th_scheduled →
       scheduled_close_id row' = scheduled_close_id th_scheduled
       ∧ scheduled_close_name row'
         = rebuilt_name <$> scheduled_close_name th_scheduled
       ∧ ∀ name, scheduled_close_name th_scheduled = Some name →
                 has_hash name = true → scheduled_close_name row' = Some name)
    ∧ (@None Author = None → false = false → relay_gone w_scheduled th_scheduled →
       scheduled_close_id row' = Some (id (bot_user env0))
       ∧ scheduled_close_name row'
         = Some (username (bot_user env0) +:+ "#" +:+ discriminator (bot_user env0))).
Proof.
  refine (close_persists env0 th_scheduled None false false w_scheduled
            th_scheduled _ _ _).
  - reflexivity.
  - intros _. vm_compute. exact I.
  - intros _. by eexists.
Defined.

(** The claim fails for calls that do not get as far as the update, and
    for the author that is recorded.  Thread 1 is stored as [OPEN] and
    was never scheduled for closing: a silent close without an author
    rejects and the stored status is still [OPEN].  Thread 1 scheduled
    for closing by operator 7, its relay channel deleted: a close without
    an author that is not silent resolves and records the bot, not the
    stored operator. *)
Lemma close_persists_counterexample :
  (let r := close env0 th0 None true false w0 in
   persisted w0 th0 = Some th0
   ∧ status th0 = OPEN
   ∧ ¬ resolved r
   ∧ status <$> persisted (world_of r) th0 = Some OPEN)
  ∧ (let r := close env0 th_scheduled None false false w_scheduled_gone in
     persisted w_scheduled_gone th_scheduled = Some th_scheduled
     ∧ status th_scheduled = OPEN
     ∧ scheduled_close_id th_scheduled = Some "7"
     ∧ scheduled_close_name th_scheduled = Some "bob#0007"
     ∧ resolved r
     ∧ status <$> persisted (world_of r) th_scheduled = Some CLOSED
     ∧ (persisted (world_of r) th_scheduled ≫= scheduled_close_id) = Some "999"
     ∧ (persisted (world_of r) th_scheduled ≫= scheduled_close_name)
       = Some "ModMail#0000").
Proof. vm_compute. by split_and!; try intros []. Qed.

(** ** Closing twice *)

Section CloseTwice.

Context (env : Env).




End CloseTwice.



(** ** Scheduling and cancelling a close *)

Section Schedule.

Lemma schedule_step_run this op w row :
  persisted w this = Some row →
  ∃ w', schedule_step this op w = Ok tt w'
        ∧ persisted w' this
          = Some match op with
                 | OpScheduleClose time user =>
                     set_scheduled_close (Some time) (Some (id user))
                       (Some (username user +:+ "#" +:+ discriminator user)) row
                 | OpCancelScheduledClose =>
                     set_scheduled_close None None None row
                 end.
Proof.
  unfold persisted. intros Hrow.
  destruct op as [time user|]; simpl;
    unfold scheduleClose, cancelScheduledClose, threads_update, modify;
    eexists; (split; [reflexivity|]); simpl; by rewrite lookup_alter_eq, Hrow.
Qed.

Lemma set_scheduled_close_consistent at_ by_id by_name row :
  (at_ = None ∧ by_id = None ∧ by_name = None)
  ∨ (is_Some at_ ∧ is_Some by_id ∧ is_Some by_name) →
  scheduled_close_consistent (set_scheduled_close at_ by_id by_name row).
Proof. done. Qed.

End Schedule.

(** C6.  Any sequence of [scheduleClose] and [cancelScheduledClose] calls
    on a stored thread resolves and leaves the three scheduled-close
    columns null together or set together (for the empty sequence, when
    they were so before).  The last call decides: a [scheduleClose] has
    set all three, a [cancelScheduledClose] has cleared all three. *)
Theorem scheduled_close_fields_together this ops w row :
  persisted w this = Some row →
  (ops = [] → scheduled_close_consistent row) →
  let r := in_sequence (schedule_step this) ops w in
  resolved r
  ∧ ∃ row',
      persisted (world_of r) this = Some row'
      ∧ scheduled_close_consistent row'
      ∧ match last ops with
        | Some (OpScheduleClose time user) =>
            scheduled_close_at row' = Some time
            ∧ scheduled_close_id row' = Some (id user)
            ∧ scheduled_close_name row'
              = Some (username user +:+ "#" +:+ discriminator user)
        | Some OpCancelScheduledClose =>
            scheduled_close_at row' = None
            ∧ scheduled_close_id row' = None
            ∧ scheduled_close_name row' = None
        | None => row' = row
        end.
Proof.
  revert w row. induction ops as [|op rest IH]; intros w row Hrow Hinit.
  - simpl. split; [done|]. exists row. split_and!; [done|by apply Hinit|done].
  - destruct (schedule_step_run this op w row Hrow) as (w' & Hstep & Hrow').
    simpl. unfold bind. rewrite Hstep.
    destruct rest as [|op' rest'].
    + simpl. split; [done|]. eexists. split; [exact Hrow'|].
      destruct op as [time user|]; simpl; split_and!; try done.
      * right. by split_and!.
      * by left.
    + destruct (IH w' _ Hrow') as (Hres & row'' & Hp & Hc & Hlast); [done|].
      split; [done|]. exists row''. split_and!; [done|done|].
      change (last (op :: op' :: rest')) with (last (op' :: rest')).
      destruct (last (op' :: rest')) as [[time user|]|] eqn:Hl; [done|done|].
      by apply last_None in Hl.
Qed.

(** Bob schedules a close of thread 1, cancels it and schedules again. *)
Lemma scheduled_close_fields_together_witness :
  let ops := [OpScheduleClose 61000 (mkUser "7" "bob" "0007");
              OpCancelScheduledClose;
              OpScheduleClose 90000 (mkUser "7" "bob" "0007")] in
  let r := in_sequence (schedule_step th0) ops w0 in
  resolved r
  ∧ ∃ row',
      persisted (world_of r) th0 = Some row'
      ∧ scheduled_close_consistent row'
      ∧ match last ops with
        | Some (OpScheduleClose time user) =>
            scheduled_close_at row' = Some time
            ∧ scheduled_close_id row' = Some (id user)
            ∧ scheduled_close_name row'
              = Some (username user +:+ "#" +:+ discriminator user)
        | Some OpCancelScheduledClose =>
            scheduled_close_at row' = None
            ∧ scheduled_close_id row' = None
            ∧ scheduled_close_name row' = None
        | None => row' = th0
        end.
Proof.
  refine (scheduled_close_fields_together th0 _ w0 th0 _ _).
  - reflexivity.
  - intros H. discriminate H.
Defined.

(** ** The watcher column *)

Section Watchers.

Lemma split_comma_from_cons cur c rest :
  c ≠ ","%char →
  Js.split_comma_from cur (String c rest)
  = Js.split_comma_from (cur +:+ String c "") rest.
Proof.
  intros Hc. destruct c as [[] [] [] [] [] [] [] []]; try reflexivity.
  by destruct Hc.
Qed.

Lemma split_comma_from_sep cur s :
  Js.split_comma_from cur (", " +:+ s) = cur :: Js.split_comma_from "" s.
Proof. reflexivity. Qed.

Lemma split_comma_from_app cur x s :
  comma_free x = true →
  (s = "" ∨ ∃ s', s = ", " +:+ s') →
  Js.split_comma_from cur (x +:+ s) = Js.split_comma_from (cur +:+ x) s.
Proof.
  revert cur. induction x as [|c x IH]; intros cur Hx Hs.
  - by rewrite append_nil_l, append_nil_r.
  - simpl in Hx. destruct (decide (c = ","%char)) as [|Hc]; [done|].
    rewrite append_cons, split_comma_from_cons by done.
    rewrite IH by done. by rewrite append_snoc.
Qed.

(** Splitting the joined ids gives the ids back. *)
Lemma split_comma_join l :
  l ≠ [] → Forall valid_id l → Js.split_comma (Js.join ", " l) = l.
Proof.
  unfold Js.split_comma. induction l as [|x l IH]; [done|].
  intros _ Hvalid. apply Forall_cons in Hvalid as [[_ Hx] Hl].
  destruct l as [|y l].
  - simpl. rewrite <-(append_nil_r x) at 1.
    rewrite split_comma_from_app by (done || by left). done.
  - rewrite join_cons_cons.
    rewrite split_comma_from_app; [|done|right; by eexists].
    rewrite split_comma_from_sep, append_nil_l. f_equal. by apply IH.
Qed.

Lemma truthy_join l :
  l ≠ [] → Forall valid_id l → Js.truthy (Js.join ", " l) = true.
Proof.
  destruct l as [|x l]; [done|]. intros _ Hvalid.
  apply Forall_cons in Hvalid as [[Hx _] _].
  destruct x as [|c x]; [done|]. by destruct l.
Qed.

Lemma watchers_alerts_column l :
  Forall valid_id l → watchers (alerts_column l) = l.
Proof.
  intros Hl. destruct l as [|x l]; [done|]. unfold alerts_column, watchers.
  rewrite truthy_join by done. by apply split_comma_join.
Qed.

(** What a well-formed column decodes to. *)
Lemma alerts_encoding_watchers col :
  alerts_encoding col →
  NoDup (watchers col) ∧ Forall valid_id (watchers col)
  ∧ col = alerts_column (watchers col).
Proof.
  destruct col as [s|]; simpl.
  - intros (l & Hne & Hnd & Hv & ->).
    rewrite truthy_join, split_comma_join by done.
    split_and!; [done|done|]. by destruct l.
  - intros _. split_and!; [constructor|done|done].
Qed.

Lemma alerts_column_encoding l :
  NoDup l → Forall valid_id l → alerts_encoding (alerts_column l).
Proof.
  intros Hnd Hv. destruct l as [|x l]; [done|]. simpl.
  exists (x :: l). by split_and!.
Qed.

Lemma elem_of_splice_first x u l :
  NoDup l → x ∈ Js.splice_first u l ↔ x ∈ l ∧ x ≠ u.
Proof.
  induction l as [|y l IH]; intros Hnd.
  - simpl. rewrite elem_of_nil. tauto.
  - apply NoDup_cons in Hnd as [Hy Hnd]. simpl.
    destruct (decide (y = u)) as [->|Hne].
    + rewrite elem_of_cons. split.
      * intros Hx. split; [by right|]. by intros ->.
      * by intros [[->|Hx] Hxu].
    + rewrite !elem_of_cons, IH by done. split.
      * intros [->|[Hx Hxu]]; split; auto.
      * intros [[->|Hx] Hxu]; auto.
Qed.

Lemma splice_first_absent u l : u ∉ l → Js.splice_first u l = l.
Proof.
  induction l as [|y l IH]; [done|]. intros Hu. simpl.
  apply not_elem_of_cons in Hu as [Hne Hu].
  rewrite decide_False by done. by rewrite IH.
Qed.

Lemma NoDup_splice_first u l : NoDup l → NoDup (Js.splice_first u l).
Proof.
  induction l as [|y l IH]; [done|]. intros [Hy Hnd]%NoDup_cons. simpl.
  destruct (decide (y = u)); [done|].
  apply NoDup_cons. split; [|by apply IH].
  rewrite elem_of_splice_first by done. by intros [Hin _].
Qed.

Lemma Forall_splice_first (P : string → Prop) u l :
  Forall P l → Forall P (Js.splice_first u l).
Proof.
  induction 1 as [|y l Hy Hl IH]; [done|]. simpl.
  destruct (decide (y = u)); [done|]. by constructor.
Qed.

(** One call of [alertStatus] on a stored thread. *)
Lemma alertStatus_run this userId status w row :
  persisted w this = Some row →
  ∃ w', alertStatus this userId status w = Ok tt w'
        ∧ persisted w' this
          = Some (set_alert_users
                    (alerts_column
                       (next_watchers userId status (watchers (alert_users row))))
                    row).
Proof.
  unfold persisted. intros Hrow.
  unfold alertStatus, bind, threads_first, gets, row_or_throw.
  rewrite Hrow. unfold ret, threads_update, modify.
  eexists. split; [reflexivity|]. simpl. by rewrite lookup_alter_eq, Hrow.
Qed.

Lemma next_watchers_add_present u l :
  u ∈ l → next_watchers u true l = l.
Proof.
  intros Hu. unfold next_watchers, Js.includes.
  by rewrite bool_decide_eq_true_2.
Qed.

Lemma next_watchers_add_absent u l :
  u ∉ l → next_watchers u true l = l ++ [u].
Proof.
  intros Hu. unfold next_watchers, Js.includes.
  by rewrite bool_decide_eq_false_2.
Qed.

Lemma next_watchers_remove u l :
  next_watchers u false l = Js.splice_first u l.
Proof. unfold next_watchers. by rewrite andb_false_r. Qed.

Lemma next_watchers_wf u status l :
  valid_id u → NoDup l → Forall valid_id l →
  NoDup (next_watchers u status l) ∧ Forall valid_id (next_watchers u status l).
Proof.
  intros Hu Hnd Hv. destruct status.
  - destruct (decide (u ∈ l)) as [Hin|Hin].
    + by rewrite next_watchers_add_present.
    + rewrite next_watchers_add_absent by done. split.
      * apply NoDup_app. split_and!; [done| |apply NoDup_singleton].
        intros x Hx ->%list_elem_of_singleton. done.
      * apply Forall_app. split; [done|]. by constructor.
  - rewrite next_watchers_remove.
    split; [by apply NoDup_splice_first|by apply Forall_splice_first].
Qed.

(** On the watcher set, a call adds or removes one element. *)
Lemma next_watchers_set u status l :
  NoDup l →
  list_to_set (next_watchers u status l)
  =@{gset string} alert_set_step (list_to_set l) (u, status).
Proof.
  intros Hnd. unfold alert_set_step. simpl. destruct status.
  - destruct (decide (u ∈ l)) as [Hin|Hin].
    + rewrite next_watchers_add_present by done. apply set_eq. intros x.
      rewrite elem_of_union, elem_of_singleton, elem_of_list_to_set.
      split; [by left|]. by intros [Hx| ->].
    + rewrite next_watchers_add_absent by done.
      rewrite list_to_set_app_L. simpl. by rewrite union_empty_r_L.
  - rewrite next_watchers_remove. apply set_eq. intros x.
    rewrite elem_of_difference, elem_of_singleton, !elem_of_list_to_set.
    by apply elem_of_splice_first.
Qed.

Lemma alert_sequence_run this ops w row :
  persisted w this = Some row →
  alerts_encoding (alert_users row) →
  Forall (λ op, valid_id op.1) ops →
  let r := in_sequence (alert_step this) ops w in
  resolved r
  ∧ ∃ row',
      persisted (world_of r) this = Some row'
      ∧ alerts_encoding (alert_users row')
      ∧ watcher_set (alert_users row')
        = foldl alert_set_step (watcher_set (alert_users row)) ops.
Proof.
  revert w row. induction ops as [|[u st] rest IH]; intros w row Hrow Henc Hops.
  - simpl. split; [done|]. by exists row.
  - apply Forall_cons in Hops as [Hu Hrest]. simpl in Hu.
    destruct (alertStatus_run this u st w row Hrow) as (w' & Hstep & Hrow').
    destruct (alerts_encoding_watchers _ Henc) as (Hnd & Hv & Hcol).
    destruct (next_watchers_wf u st _ Hu Hnd Hv) as [Hnd' Hv'].
    simpl. unfold bind.
    change (alert_step this (u, st) w) with (alertStatus this u st w).
    rewrite Hstep.
    destruct (IH w' _ Hrow') as (Hres & row'' & Hp & Henc'' & Hset); [|done|].
    { simpl. by apply alerts_column_encoding. }
    split; [done|]. exists row''. split_and!; [done|done|].
    rewrite Hset. f_equal. simpl. unfold watcher_set.
    rewrite watchers_alerts_column by done. by apply next_watchers_set.
Qed.

End Watchers.

(** C10.  After any sequence of [alertStatus] calls with well-formed
    operator ids on a stored thread whose [alert_users] column encodes a
    duplicate-free list, the column still does; it is null exactly when
    no watcher is left, and the watcher set is the one obtained by adding
    and removing the ids in turn.  A further call with [true] for a
    present id, or with [false] for an absent one, leaves the column as it
    is; otherwise it appends the id, respectively removes it. *)
Theorem alert_users_encodes_set this ops w row :
  persisted w this = Some row →
  alerts_encoding (alert_users row) →
  Forall (λ op, valid_id op.1) ops →
  let r := in_sequence (alert_step this) ops w in
  resolved r
  ∧ ∃ row',
      persisted (world_of r) this = Some row'
      ∧ alerts_encoding (alert_users row')
      ∧ NoDup (watchers (alert_users row'))
      ∧ (alert_users row' = None ↔ watchers (alert_users row') = [])
      ∧ watcher_set (alert_users row')
        = foldl alert_set_step (watcher_set (alert_users row)) ops
      ∧ ∀ u st, valid_id u →
          ∃ row'',
            persisted (world_of (alertStatus this u st (world_of r))) this
            = Some row''
            ∧ (st = true → u ∈ watchers (alert_users row') →
               alert_users row'' = alert_users row')
            ∧ (st = true → u ∉ watchers (alert_users row') →
               watchers (alert_users row'') = watchers (alert_users row') ++ [u])
            ∧ (st = false → u ∉ watchers (alert_users row') →
               alert_users row'' = alert_users row')
            ∧ (st = false → u ∈ watchers (alert_users row') →
               ∀ x, x ∈ watchers (alert_users row'')
                    ↔ x ∈ watchers (alert_users row') ∧ x ≠ u).
Proof.
  intros Hrow Henc Hops r.
  destruct (alert_sequence_run this ops w row Hrow Henc Hops)
    as (Hres & row' & Hp & Henc' & Hset).
  fold r in Hres, Hp.
  destruct (alerts_encoding_watchers _ Henc') as (Hnd & Hv & Hcol).
  split; [done|]. exists row'. split_and!; [done..| | |].
  - rewrite Hcol at 1. by destruct (watchers (alert_users row')).
  - done.
  - intros u st Hu.
    destruct (alertStatus_run this u st (world_of r) row' Hp) as (w' & Hstep & Hrow'').
    rewrite Hstep. simpl. eexists. split; [exact Hrow''|]. simpl.
    destruct (next_watchers_wf u st _ Hu Hnd Hv) as [Hnd' Hv'].
    split_and!.
    + intros -> Hin. by rewrite next_watchers_add_present.
    + intros -> Hin. rewrite watchers_alerts_column by done.
      by apply next_watchers_add_absent.
    + intros -> Hin. rewrite next_watchers_remove, splice_first_absent by done.
      done.
    + intros -> Hin x. rewrite watchers_alerts_column by done.
      rewrite next_watchers_remove. by apply elem_of_splice_first.
Qed.

(** Operators 7 and 8 start watching thread 1, 7 asks again, then stops. *)
Lemma alert_users_encodes_set_witness :
  let ops := [("7", true); ("8", true); ("7", true); ("7", false)] in
  let r := in_sequence (alert_step th0) ops w0 in
  resolved r
  ∧ ∃ row',
      persisted (world_of r) th0 = Some row'
      ∧ alerts_encoding (alert_users row')
      ∧ NoDup (watchers (alert_users row'))
      ∧ (alert_users row' = None ↔ watchers (alert_users row') = [])
      ∧ watcher_set (alert_users row')
        = foldl alert_set_step (watcher_set (alert_users th0)) ops
      ∧ ∀ u st, valid_id u →
          ∃ row'',
            persisted (world_of (alertStatus th0 u st (world_of r))) th0
            = Some row''
            ∧ (st = true → u ∈ watchers (alert_users row') →
               alert_users row'' = alert_users row')
            ∧ (st = true → u ∉ watchers (alert_users row') →
               watchers (alert_users row'') = watchers (alert_users row') ++ [u])
            ∧ (st = false → u ∉ watchers (alert_users row') →
               alert_users row'' = alert_users row')
            ∧ (st = false → u ∈ watchers (alert_users row') →
               ∀ x, x ∈ watchers (alert_users row'')
                    ↔ x ∈ watchers (alert_users row') ∧ x ≠ u).
Proof.
  refine (alert_users_encodes_set th0 _ w0 th0 _ _ _).
  - reflexivity.
  - exact I.
  - repeat constructor; discriminate.
Defined.

(** ** Role overrides *)

Section Overrides.

Lemma setStaffRoleOverride_run this userId roleId w row :
  persisted w this = Some row →
  ∃ w', setStaffRoleOverride this userId roleId w = Ok tt w'
        ∧ persisted w' this
          = Some (set_staff_role_overrides
                    (Some (<[userId := roleId]>
                             (default ∅ (staff_role_overrides row))))
                    row).
Proof.
  unfold persisted. intros Hrow.
  unfold setStaffRoleOverride, bind, threads_first, gets, row_or_throw.
  rewrite Hrow. unfold ret, threads_update, modify.
  eexists. split; [reflexivity|]. simpl. rewrite lookup_alter_eq, Hrow.
  by destruct (staff_role_overrides row).
Qed.

Lemma deleteStaffRoleOverride_run this userId w row :
  persisted w this = Some row →
  ∃ w', deleteStaffRoleOverride this userId w = Ok tt w'
        ∧ persisted w' this
          = Some match staff_role_overrides row with
                 | Some overrides =>
                     if Js.truthy_opt (overrides !! userId)
                     then set_staff_role_overrides
                            (Some (delete userId overrides)) row
                     else row
                 | None => row
                 end.
Proof.
  unfold persisted. intros Hrow.
  unfold deleteStaffRoleOverride, bind, threads_first, gets, row_or_throw.
  rewrite Hrow. unfold ret at 1.
  destruct (staff_role_overrides row) as [overrides|]; [|by eexists].
  destruct (Js.truthy_opt (overrides !! userId)); [|by eexists].
  unfold threads_update, modify. eexists. split; [reflexivity|].
  simpl. by rewrite lookup_alter_eq, Hrow.
Qed.

End Overrides.

(** C7, as the code has it.  [getStaffRoleOverride] answers from the
    fields of the object it is called on, and no method writes those
    fields; the two writers change the stored row.  On a [Thread] built
    from the stored row after the call: once [setStaffRoleOverride(u, r)]
    has run, [getStaffRoleOverride(u)] is [r], and once
    [deleteStaffRoleOverride(u)] has run it is none, provided the role id
    that was stored for [u] was not the empty string; other operators'
    overrides are as before. *)
Theorem override_round_trip this u r w row :
  persisted w this = Some row →
  (let res := setStaffRoleOverride this u r w in
   resolved res
   ∧ ∃ row',
       persisted (world_of res) this = Some row'
       ∧ getStaffRoleOverride row' u = Some r
       ∧ ∀ u', u' ≠ u → getStaffRoleOverride row' u' = getStaffRoleOverride row u')
  ∧ (let res := deleteStaffRoleOverride this u w in
     getStaffRoleOverride row u ≠ Some "" →
     resolved res
     ∧ ∃ row',
         persisted (world_of res) this = Some row'
         ∧ getStaffRoleOverride row' u = None
         ∧ ∀ u', u' ≠ u → getStaffRoleOverride row' u' = getStaffRoleOverride row u')
  ∧ (let res :=
       (setStaffRoleOverride this u r >> deleteStaffRoleOverride this u)%async w in
     r ≠ "" →
     resolved res
     ∧ ∃ row',
         persisted (world_of res) this = Some row'
         ∧ getStaffRoleOverride row' u = None).
Proof.
  intros Hrow.
  destruct (setStaffRoleOverride_run this u r w row Hrow) as (w1 & Hset & Hrow1).
  split_and!.
  - intros res. subst res. rewrite Hset. split; [done|].
    eexists. split; [exact Hrow1|]. unfold getStaffRoleOverride. simpl.
    split; [by rewrite lookup_insert_eq|].
    intros u' Hne. rewrite lookup_insert_ne by done.
    by destruct (staff_role_overrides row).
  - intros res Hstored. subst res.
    destruct (deleteStaffRoleOverride_run this u w row Hrow) as (w2 & Hdel & Hrow2).
    rewrite Hdel. split; [done|]. eexists. split; [exact Hrow2|].
    unfold getStaffRoleOverride in *.
    destruct (staff_role_overrides row) as [overrides|] eqn:Ho;
      [|by rewrite Ho].
    destruct (overrides !! u) as [[|c s]|] eqn:Hu; simpl.
    + done.
    + split; [by rewrite lookup_delete_eq|].
      intros u' Hne. by rewrite lookup_delete_ne.
    + by rewrite Ho.
  - intros res Hr. subst res. unfold bind. rewrite Hset.
    destruct (deleteStaffRoleOverride_run this u w1 _ Hrow1) as (w2 & Hdel & Hrow2).
    rewrite Hdel. split; [done|]. eexists. split; [exact Hrow2|].
    simpl. rewrite lookup_insert_eq.
    destruct r as [|c s]; [done|]. simpl.
    unfold getStaffRoleOverride. simpl. by rewrite lookup_delete_eq.
Qed.

(** Operator 7 takes role 500 in thread 1. *)
Lemma override_round_trip_witness :
  (let res := setStaffRoleOverride th0 "7" "500" w0 in
   resolved res
   ∧ ∃ row',
       persisted (world_of res) th0 = Some row'
       ∧ getStaffRoleOverride row' "7" = Some "500"
       ∧ ∀ u', u' ≠ "7" → getStaffRoleOverride row' u' = getStaffRoleOverride th0 u')
  ∧ (let res := deleteStaffRoleOverride th0 "7" w0 in
     getStaffRoleOverride th0 "7" ≠ Some "" →
     resolved res
     ∧ ∃ row',
         persisted (world_of res) th0 = Some row'
         ∧ getStaffRoleOverride row' "7" = None
         ∧ ∀ u', u' ≠ "7" → getStaffRoleOverride row' u' = getStaffRoleOverride th0 u')
  ∧ (let res :=
       (setStaffRoleOverride th0 "7" "500" >> deleteStaffRoleOverride th0 "7")%async w0 in
     "500" ≠ "" →
     resolved res
     ∧ ∃ row',
         persisted (world_of res) th0 = Some row'
         ∧ getStaffRoleOverride row' "7" = None).
Proof.
  refine (override_round_trip th0 "7" "500" w0 th0 _).
  reflexivity.
Defined.

(** The claim fails on the object that made the call: thread 1 is read
    from the store, operator 7 sets role 500 through it, and the same
    object still has no override for 7.  It also fails for an empty role
    id, which [deleteStaffRoleOverride] takes for no override at all and
    leaves in the store. *)
Lemma override_round_trip_counterexample :
  persisted w0 th0 = Some th0
  ∧ resolved (setStaffRoleOverride th0 "7" "500" w0)
  ∧ getStaffRoleOverride th0 "7" ≠ Some "500"
  ∧ (let res :=
       (setStaffRoleOverride th0 "7" "" >> deleteStaffRoleOverride th0 "7")%async w0 in
     resolved res
     ∧ (persisted (world_of res) th0 ≫= λ row', getStaffRoleOverride row' "7")
       = Some "").
Proof. vm_compute. by split_and!. Qed.

(** ** Activity on a live relay channel *)

Section Activity.

Context (env : Env).

Lemma postSystemMessage_noticed this text w :
  relay_live w this →
  postSystemMessage env this text [] w
  = Ok (Some (notice w this text)) (noticed this text w).
Proof. intros H. by rewrite postSystemMessage_live. Qed.

(** The pending-close step of an inbound message. *)
Lemma inbound_pending_close_live this w t :
  relay_live w this →
  scheduled_close_at this = Some t →
  inbound_pending_close env this w
  = Ok tt
      (with_timers (λ l, l ++ [(30000, next_id w)])
         (if within_guard this w
          then noticed this (cancel_notice this) (cancelled this w)
          else noticed this (reminder_notice this) w)).
Proof.
  intros Hlive Ht. unfold inbound_pending_close, within_guard. rewrite Ht.
  unfold bind at 1, gets. unfold bind at 1.
  destruct (bool_decide (t - clock w ≤ 30000)).
  - unfold bind at 1, cancelScheduledClose, threads_update, modify.
    fold (cancelled this w).
    rewrite (postSystemMessage_noticed this _ (cancelled this w)) by done.
    reflexivity.
  - rewrite (postSystemMessage_noticed this _ w) by done. reflexivity.
Qed.

Lemma inbound_pending_close_none this w :
  scheduled_close_at this = None → inbound_pending_close env this w = Ok tt w.
Proof. intros H. unfold inbound_pending_close. by rewrite H. Qed.

(** The tail of an outbound reply. *)
Lemma reply_cancels_close_live this w t :
  relay_live w this →
  scheduled_close_at this = Some t →
  reply_cancels_close env this w
  = Ok tt
      (with_timers (λ l, l ++ [(30000, next_id w)])
         (noticed this reply_cancel_notice (cancelled this w))).
Proof.
  intros Hlive Ht. unfold reply_cancels_close. rewrite Ht.
  unfold bind at 1, cancelScheduledClose, threads_update, modify.
  fold (cancelled this w). unfold bind.
  rewrite (postSystemMessage_noticed this _ (cancelled this w)) by done.
  reflexivity.
Qed.

(** The alert step of an inbound message. *)
Lemma inbound_alerts_live this w :
  relay_live w this →
  inbound_alerts env this w
  = Ok tt
      (if Js.truthy_opt (alert_users this)
          && Js.truthy (alert_mentions (Js.show_opt (alert_users this))
                          (scheduled_close_id this))
       then noticed this
              (Text (alert_mentions (Js.show_opt (alert_users this))
                       (scheduled_close_id this)
                     +:+ ", there is a new message from **"
                     +:+ user_name this +:+ "**!")) w
       else w).
Proof.
  intros Hlive. unfold inbound_alerts.
  destruct (Js.truthy_opt (alert_users this)); [|done]. simpl.
  destruct (Js.truthy _); [|done].
  unfold detached. by rewrite postSystemMessage_noticed.
Qed.

(** An inbound message on a live relay channel: relayed, logged, then the
    alert step and the pending-close step. *)
Lemma receiveUserReply_live this msg sse w :
  relay_live w this →
  receiveUserReply env this msg sse w
  = (inbound_alerts env this >> inbound_pending_close env this)%async
      (inbound_logged env this msg sse w).
Proof.
  intros Hlive. unfold receiveUserReply, inbound_logged, inbound_row, inbound_relayed.
  destruct (inbound_attachments env _ _ _) as [[files threadContent] logContent].
  unfold bind at 1. rewrite postToThreadChannel_live by done.
  unfold bind at 1, addThreadMessageToDB. unfold bind at 1, gets.
  unfold bind at 1, thread_messages_insert, modify.
  unfold sse_send. destruct sse; reflexivity.
Qed.

(** An outbound reply whose DM went out, on a live relay channel. *)
Lemma replyToUser_live this moderator text replyAttachments isAnonymous sse w dm w1 :
  relay_live w this →
  postToUser this (Text (reply_dmContent env this moderator text isAnonymous))
    (reply_attachments env text replyAttachments).1 w = Ok dm w1 →
  replyToUser env this moderator text replyAttachments isAnonymous sse w
  = reply_cancels_close env this
      (outbound_logged env this moderator text replyAttachments isAnonymous
         sse dm w).
Proof.
  intros Hlive Hdm. unfold replyToUser, outbound_logged, outbound_row, outbound_relayed.
  unfold bind at 1, gets.
  destruct (reply_attachments env text replyAttachments) as [files logContent].
  simpl in *. unfold bind at 1, try_catch, bind at 1. rewrite Hdm.
  apply postToUser_ok in Hdm as (-> & _). unfold ret at 1.
  unfold bind at 1. rewrite postToThreadChannel_live by done.
  unfold bind at 1, addThreadMessageToDB. unfold bind at 1, gets.
  unfold bind at 1, thread_messages_insert, modify.
  unfold next_id. simpl. rewrite length_app. simpl.
  replace (length (sent w) + 1)%nat with (S (length (sent w))) by lia.
  unfold sse_send.
  destruct sse; unfold modify, with_sse_log, with_thread_messages, with_sent;
    simpl; rewrite <-app_assoc; reflexivity.
Qed.

End Activity.

(** C3, as the code has it.  On a thread object with a scheduled close
    and a live relay channel: an inbound message posts exactly one
    pending-close notice, after the relayed text and the alert; when the
    scheduled time is at most 30 seconds away the stored scheduled-close
    columns are cleared and the notice announces the cancellation,
    otherwise the store keeps its threads as they are and the notice is
    the reminder.  An outbound reply whose DM went out always clears the
    stored columns and announces the cancellation, however far away the
    scheduled time is. *)
Theorem pending_close_on_activity env this t w msg sse moderator text
    replyAttachments isAnonymous sse' :
  relay_live w this →
  scheduled_close_at this = Some t →
  (let r := receiveUserReply env this msg sse w in
   resolved r
   ∧ ∃ before m,
       sent (world_of r) = sent w ++ before ++ [m]
       ∧ Forall (λ x, ¬ is_rich x) before
       ∧ sent_channel m = channel_id this
       ∧ if bool_decide (t - clock w ≤ 30000)
         then sent_content m = cancel_notice this
              ∧ persisted (world_of r) this
                = set_scheduled_close None None None <$> persisted w this
         else sent_content m = reminder_notice this
              ∧ threads (world_of r) = threads w)
  ∧ (let r := replyToUser env this moderator text replyAttachments isAnonymous
                sse' w in
     match postToUser this
             (Text (reply_dmContent env this moderator text isAnonymous))
             (reply_attachments env text replyAttachments).1 w with
     | Ok dm _ =>
         resolved r
         ∧ ∃ relayed m,
             sent (world_of r) = sent w ++ [dm; relayed; m]
             ∧ sent_channel m = channel_id this
             ∧ sent_content m = reply_cancel_notice
             ∧ persisted (world_of r) this
               = set_scheduled_close None None None <$> persisted w this
     | Throw _ _ => True
     end).
Proof.
  intros Hlive Ht. split.
  - intros r. subst r.
    rewrite receiveUserReply_live by done. unfold bind.
    rewrite inbound_alerts_live by done.
    set (w2 := if _ && _ then _ else _).
    assert (relay_live w2 this) as Hlive2.
    { subst w2. by destruct (_ && _). }
    assert (clock w2 = clock w) as Hclock.
    { subst w2. by destruct (_ && _). }
    assert (∃ before, sent w2 = sent w ++ before ∧ Forall (λ x, ¬ is_rich x) before)
      as (before & Hsent & Hbefore).
    { subst w2. destruct (_ && _); simpl.
      - eexists [_; _]. rewrite <-app_assoc. split; [reflexivity|].
        repeat constructor; unfold is_rich, inbound_relayed; simpl; [|tauto].
        destruct (inbound_attachments env _ _ _) as [[? ?] ?]. simpl. tauto.
      - eexists [_]. split; [reflexivity|].
        repeat constructor; unfold is_rich, inbound_relayed; simpl.
        destruct (inbound_attachments env _ _ _) as [[? ?] ?]. simpl. tauto. }
    assert (threads w2 = threads w) as Hthreads.
    { subst w2. by destruct (_ && _). }
    rewrite (inbound_pending_close_live env this w2 t) by done.
    split; [done|]. unfold within_guard. rewrite Ht, Hclock.
    destruct (bool_decide (t - clock w ≤ 30000)); simpl.
    + exists before, (notice (cancelled this w2) this (cancel_notice this)).
      rewrite Hsent, <-app_assoc. split_and!; [done..|].
      unfold persisted. simpl. by rewrite lookup_alter_eq, Hthreads.
    + exists before, (notice w2 this (reminder_notice this)).
      rewrite Hsent, <-app_assoc. by split_and!.
  - intros r. subst r.
    destruct (postToUser this _ _ w) as [dm w1|e w1] eqn:Hdm; [|done].
    rewrite (replyToUser_live env _ _ _ _ _ _ _ _ _ Hlive Hdm).
    rewrite (reply_cancels_close_live env this _ t) by done.
    split; [done|]. simpl. do 2 eexists. rewrite <-app_assoc. simpl.
    split_and!; [reflexivity|done|done|].
    unfold persisted. simpl. by rewrite lookup_alter_eq.
Qed.

(** Thread 1 has a close scheduled a minute ahead; the user writes, and
    bob replies. *)
Lemma pending_close_on_activity_witness :
  (let r := receiveUserReply env0 th_scheduled hi false w_scheduled in
   resolved r
   ∧ ∃ before m,
       sent (world_of r) = sent w_scheduled ++ before ++ [m]
       ∧ Forall (λ x, ¬ is_rich x) before
       ∧ sent_channel m = channel_id th_scheduled
       ∧ if bool_decide (61000 - clock w_scheduled ≤ 30000)
         then sent_content m = cancel_notice th_scheduled
              ∧ persisted (world_of r) th_scheduled
                = set_scheduled_close None None None
                    <$> persisted w_scheduled th_scheduled
         else sent_content m = reminder_notice th_scheduled
              ∧ threads (world_of r) = threads w_scheduled)
  ∧ (let r := replyToUser env0 th_scheduled bob "hello" [] false false
                w_scheduled in
     match postToUser th_scheduled
             (Text (reply_dmContent env0 th_scheduled bob "hello" false))
             (reply_attachments env0 "hello" []).1 w_scheduled with
     | Ok dm _ =>
         resolved r
         ∧ ∃ relayed m,
             sent (world_of r) = sent w_scheduled ++ [dm; relayed; m]
             ∧ sent_channel m = channel_id th_scheduled
             ∧ sent_content m = reply_cancel_notice
             ∧ persisted (world_of r) th_scheduled
               = set_scheduled_close None None None
                   <$> persisted w_scheduled th_scheduled
     | Throw _ _ => True
     end).
Proof.
  refine (pending_close_on_activity env0 th_scheduled 61000 w_scheduled hi
            false bob "hello" [] false false _ _).
  - reflexivity.
  - reflexivity.
Defined.

(** The claim fails for an outbound reply.  The close of thread 1 is
    scheduled a full minute after the current time, bob replies, and the
    stored schedule is cleared all the same, with the cancellation notice
    as the last message posted. *)
Lemma pending_close_on_activity_counterexample :
  let r := replyToUser env0 th_scheduled bob "hello" [] false false w_scheduled in
  persisted w_scheduled th_scheduled = Some th_scheduled
  ∧ scheduled_close_at th_scheduled = Some 61000
  ∧ ¬ (61000 - clock w_scheduled ≤ 30000)
  ∧ resolved r
  ∧ (persisted (world_of r) th_scheduled ≫= scheduled_close_at) = None
  ∧ (persisted (world_of r) th_scheduled ≫= scheduled_close_id) = None
  ∧ (persisted (world_of r) th_scheduled ≫= scheduled_close_name) = None
  ∧ sent_content <$> last (sent (world_of r)) = Some reply_cancel_notice.
Proof. vm_compute. by split_and!. Qed.

(** ** The alert of an inbound message *)

Section Mentions.

Lemma join_empty_cons x l : Js.join "" (x :: l) = x +:+ Js.join "" l.
Proof. destruct l; [by rewrite append_nil_r|reflexivity]. Qed.

Lemma mention_list_cons a l : mention_list (a :: l) = mention a +:+ mention_rest l.
Proof.
  revert a. induction l as [|b l IH]; intros a.
  - by rewrite append_nil_r.
  - destruct l as [|c l]; [reflexivity|].
    change (mention_list (a :: b :: c :: l))
      with (mention a +:+ ", " +:+ mention_list (b :: c :: l)).
    by rewrite IH.
Qed.

(** The separators the callback of [map] picks from the index, for the
    elements after the first. *)
Lemma join_mentions_from (k n : nat) l :
  (k + length l = n)%nat → (1 ≤ k)%nat →
  Js.join ""
    (imap (λ i id,
             (if decide ((k + i)%nat = 0%nat) then ""
              else if decide ((k + i)%nat = (n - 1)%nat) then " and "
                   else ", ") +:+ "<@" +:+ id +:+ ">")
          l)
  = mention_rest l.
Proof.
  revert k. induction l as [|x l IH]; intros k Hn Hk; [done|].
  rewrite imap_cons, join_empty_cons. simpl in Hn.
  rewrite decide_False by lia.
  erewrite imap_ext; [rewrite (IH (S k)) by lia|].
  - destruct l as [|y l].
    + rewrite decide_True by (simpl in Hn; lia). by rewrite append_nil_r.
    + rewrite decide_False by (simpl in Hn; lia).
      change (mention_rest (x :: y :: l))
        with (", " +:+ mention x +:+ mention_rest (y :: l)).
      generalize (mention_rest (y :: l)). intros rest.
      unfold mention. by rewrite !append_assoc.
  - intros i y _. simpl. by replace (k + S i)%nat with (S k + i)%nat by lia.
Qed.

(** The code's mention list is the one of the spec, on the watchers that
    are left once the scheduler of a close is filtered out. *)
Lemma alert_mentions_mention_list s scheduler :
  alert_mentions s scheduler
  = mention_list (filter (λ watcher, Some watcher ≠ scheduler) (Js.split_comma s)).
Proof.
  unfold alert_mentions.
  destruct (filter _ (Js.split_comma s)) as [|x l]; [done|].
  rewrite imap_cons, join_empty_cons, mention_list_cons.
  rewrite decide_True by done. f_equal.
  erewrite imap_ext; [apply (join_mentions_from 1 (length (x :: l))); simpl; lia|].
  intros i y _. reflexivity.
Qed.

Lemma truthy_mention_list a l : Js.truthy (mention_list (a :: l)) = true.
Proof. by rewrite mention_list_cons. Qed.

End Mentions.

Ltac all_valid :=
  repeat first [apply Forall_cons_2; [assumption|] | apply Forall_nil_2].

(** The three shapes the spec lists, on the code's own function. *)
Example alert_mentions_one a scheduler :
  valid_id a → Some a ≠ scheduler →
  alert_mentions (Js.join ", " [a]) scheduler = "<@" +:+ a +:+ ">".
Proof.
  intros Ha Hs. rewrite alert_mentions_mention_list, split_comma_join;
    [|done|all_valid].
  rewrite filter_cons_True by done. reflexivity.
Qed.

Example alert_mentions_two a b scheduler :
  valid_id a → valid_id b → Some a ≠ scheduler → Some b ≠ scheduler →
  alert_mentions (Js.join ", " [a; b]) scheduler
  = ("<@" +:+ a +:+ ">") +:+ " and " +:+ ("<@" +:+ b +:+ ">").
Proof.
  intros Ha Hb Hsa Hsb. rewrite alert_mentions_mention_list, split_comma_join;
    [|done|all_valid].
  rewrite !filter_cons_True by done. reflexivity.
Qed.

Example alert_mentions_three a b c scheduler :
  valid_id a → valid_id b → valid_id c →
  Some a ≠ scheduler → Some b ≠ scheduler → Some c ≠ scheduler →
  alert_mentions (Js.join ", " [a; b; c]) scheduler
  = ("<@" +:+ a +:+ ">") +:+ ", " +:+ ("<@" +:+ b +:+ ">") +:+ " and "
      +:+ ("<@" +:+ c +:+ ">").
Proof.
  intros Ha Hb Hc Hsa Hsb Hsc.
  rewrite alert_mentions_mention_list, split_comma_join;
    [|done|all_valid].
  rewrite !filter_cons_True by done. reflexivity.
Qed.

(** C8.  An inbound message on a live relay channel, for a thread object
    whose [alert_users] lists well-formed operator ids: the watchers other
    than the one who scheduled a close are mentioned as the spec words it
    ([mention_list]: one alone, two joined by " and ", more separated by
    commas with " and " before the last).  Right after the relayed text
    the alert notice with these mentions is posted once, and not at all
    when no watcher is left; whatever is posted after it is a
    pending-close notice. *)
Theorem inbound_alert_mentions env this msg sse w ids :
  relay_live w this →
  ids ≠ [] →
  Forall valid_id ids →
  alert_users this = Some (Js.join ", " ids) →
  let mentioned :=
    filter (λ watcher, Some watcher ≠ scheduled_close_id this) ids in
  let r := receiveUserReply env this msg sse w in
  alert_mentions (Js.join ", " ids) (scheduled_close_id this)
  = mention_list mentioned
  ∧ resolved r
  ∧ ∃ rest,
      sent (world_of r)
      = sent w
        ++ inbound_relayed env this msg w
           :: match mentioned with
              | [] => []
              | _ :: _ =>
                  [mkSent (Js.of_nat (S (length (sent w)))) (channel_id this)
                     (alert_text this mentioned) []]
              end
        ++ rest
      ∧ Forall is_rich rest.
Proof.
  intros Hlive Hne Hvalid Halerts mentioned r.
  assert (alert_mentions (Js.join ", " ids) (scheduled_close_id this)
          = mention_list mentioned) as Hmentions.
  { by rewrite alert_mentions_mention_list, split_comma_join. }
  split; [done|]. subst r.
  rewrite receiveUserReply_live by done. unfold bind.
  rewrite inbound_alerts_live by done.
  rewrite Halerts. simpl Js.truthy_opt. simpl Js.show_opt.
  rewrite truthy_join, Hmentions by done. simpl andb.
  set (w1 := inbound_logged env this msg sse w).
  set (w2 := if Js.truthy _ then _ else _).
  assert (relay_live w2 this) as Hlive2.
  { subst w2. by destruct (Js.truthy _). }
  assert (sent w2
          = sent w
            ++ inbound_relayed env this msg w
               :: match mentioned with
                  | [] => []
                  | _ :: _ =>
                      [mkSent (Js.of_nat (S (length (sent w)))) (channel_id this)
                         (alert_text this mentioned) []]
                  end) as Hsent.
  { subst w2. destruct mentioned as [|a l].
    - reflexivity.
    - rewrite truthy_mention_list. simpl. rewrite <-app_assoc. simpl.
      do 3 f_equal. unfold notice, next_id, alert_text. simpl.
      rewrite length_app. simpl. do 2 f_equal. lia. }
  destruct (scheduled_close_at this) as [t|] eqn:Ht.
  - rewrite (inbound_pending_close_live env this w2 t) by done.
    split; [done|]. simpl.
    destruct (within_guard this w2); simpl; rewrite Hsent, <-app_assoc; simpl;
      eexists [_]; (split; [reflexivity|]); by repeat constructor.
  - rewrite inbound_pending_close_none by done.
    split; [done|]. exists []. simpl. rewrite Hsent, app_nil_r.
    by split; [|constructor].
Qed.

(** Operators 7 and 8 watch thread 1, and 7 is the one who scheduled its
    close: the user writes, and only 8 is mentioned. *)
Lemma inbound_alert_mentions_witness :
  let mentioned :=
    filter (λ watcher, Some watcher ≠ scheduled_close_id th_scheduled) ["7"; "8"] in
  let r := receiveUserReply env0 th_scheduled hi false w_scheduled in
  alert_mentions (Js.join ", " ["7"; "8"]) (scheduled_close_id th_scheduled)
  = mention_list mentioned
  ∧ resolved r
  ∧ ∃ rest,
      sent (world_of r)
      = sent w_scheduled
        ++ inbound_relayed env0 th_scheduled hi w_scheduled
           :: match mentioned with
              | [] => []
              | _ :: _ =>
                  [mkSent (Js.of_nat (S (length (sent w_scheduled))))
                     (channel_id th_scheduled)
                     (alert_text th_scheduled mentioned) []]
              end
        ++ rest
      ∧ Forall is_rich rest.
Proof.
  refine (inbound_alert_mentions env0 th_scheduled hi false w_scheduled
            ["7"; "8"] _ _ _ _).
  - reflexivity.
  - discriminate.
  - repeat constructor; discriminate.
  - reflexivity.
Defined.

(** ** Inbound messages without text *)

Section Inbound.

Context (env : Env).

Lemma inbound_attachments_fold files threadContent logContent l :
  fold_left
    (λ '(attachmentFiles, threadContent, logContent) attachment,
       let formatted :=
         newline +:+ newline +:+ utils_formatAttachment env attachment in
       if relaySmallAttachmentsAsAttachments env
          && bool_decide (attachment_size attachment ≤ 1024 * 1024 * 2)
       then (attachmentFiles ++ [attachments_attachmentToFile env attachment],
             threadContent, logContent +:+ formatted)
       else (attachmentFiles, threadContent +:+ formatted,
             logContent +:+ formatted))
    l (files, threadContent, logContent)
  = (files ++ inbound_files env l,
     threadContent +:+ inbound_relay_links env l,
     logContent +:+ inbound_log_links env l).
Proof.
  revert files threadContent logContent.
  induction l as [|a l IH]; intros files threadContent logContent.
  - simpl. by rewrite app_nil_r, !append_nil_r.
  - simpl fold_left. unfold inbound_files, inbound_relay_links, inbound_log_links.
    simpl fold_right. fold (inbound_relay_links env l) (inbound_log_links env l).
    unfold forwarded_as_file at 2 3.
    destruct (relaySmallAttachmentsAsAttachments env
              && bool_decide (attachment_size a ≤ 1024 * 1024 * 2)) eqn:Hfw.
    + rewrite IH. rewrite filter_cons_True by done.
      rewrite fmap_cons, <-app_assoc. simpl. by rewrite !append_assoc.
    + rewrite IH. rewrite filter_cons_False by (unfold forwarded_as_file; congruence).
      by rewrite !append_assoc.
Qed.

Lemma inbound_attachments_parts threadContent logContent l :
  inbound_attachments env threadContent logContent l
  = (inbound_files env l,
     threadContent +:+ inbound_relay_links env l,
     logContent +:+ inbound_log_links env l).
Proof. unfold inbound_attachments. by rewrite inbound_attachments_fold. Qed.

(** The steps after the transcript row only post system notices. *)
Lemma inbound_tail_effects this w :
  relay_live w this →
  ∃ w' later_sent later_rows,
    (inbound_alerts env this >> inbound_pending_close env this)%async w = Ok tt w'
    ∧ sent w' = sent w ++ later_sent
    ∧ thread_messages w' = thread_messages w ++ later_rows
    ∧ Forall (λ row, message_type row = SYSTEM) later_rows.
Proof.
  intros Hlive. unfold bind. rewrite inbound_alerts_live by done.
  set (w2 := if _ && _ then _ else _).
  assert (relay_live w2 this) as Hlive2.
  { subst w2. by destruct (_ && _). }
  assert (∃ s2 r2, sent w2 = sent w ++ s2
                   ∧ thread_messages w2 = thread_messages w ++ r2
                   ∧ Forall (λ row, message_type row = SYSTEM) r2)
    as (s2 & r2 & Hs2 & Hr2 & Hsys2).
  { subst w2. destruct (_ && _).
    - eexists [_], [_]. by repeat constructor.
    - exists [], []. simpl. rewrite !app_nil_r. by repeat constructor. }
  destruct (scheduled_close_at this) as [t|] eqn:Ht.
  - rewrite (inbound_pending_close_live env this w2 t) by done.
    destruct (within_guard this w2);
      eexists _, (s2 ++ [_]), (r2 ++ [_]); (split; [reflexivity|]);
      simpl; rewrite Hs2, Hr2, <-!app_assoc;
      (split_and!; [reflexivity|reflexivity|]);
      (apply Forall_app; split; [done|]); by repeat constructor.
  - rewrite inbound_pending_close_none by done.
    by exists w2, s2, r2.
Qed.

End Inbound.

(** C9, as the code has it.  An inbound message whose text is blank and
    which holds embeds, on a live relay channel: the text posted in the
    relay channel carries the placeholder after the speaker framing, and
    the one [FROM_USER] row that is logged keeps the message's own blank
    text as its body, followed by the attachment links; the placeholder
    is not logged. *)
Theorem embed_placeholder_relayed env this msg sse w :
  relay_live w this →
  Js.trim (msg_content msg) = "" →
  msg_embeds msg ≠ 0%nat →
  let r := receiveUserReply env this msg sse w in
  resolved r
  ∧ ∃ relayed row later_sent later_rows,
      sent (world_of r) = sent w ++ relayed :: later_sent
      ∧ thread_messages (world_of r) = thread_messages w ++ row :: later_rows
      ∧ sent_channel relayed = channel_id this
      ∧ sent_content relayed
        = Text (inbound_header env msg +:+ placeholder
                  +:+ inbound_relay_links env (msg_attachments msg))
      ∧ message_type row = FROM_USER
      ∧ body row
        = msg_content msg +:+ inbound_log_links env (msg_attachments msg)
      ∧ Forall (λ row, message_type row = SYSTEM) later_rows.
Proof.
  intros Hlive Hblank Hembeds r. subst r.
  rewrite receiveUserReply_live by done.
  destruct (inbound_tail_effects env this (inbound_logged env this msg sse w))
    as (w' & later_sent & later_rows & Hrun & Hsent & Hrows & Hsys); [done|].
  rewrite Hrun. split; [done|].
  exists (inbound_relayed env this msg w), (inbound_row env this msg w),
    later_sent, later_rows.
  simpl. rewrite Hsent, Hrows. simpl. rewrite <-!app_assoc. simpl.
  unfold inbound_relayed, inbound_row. rewrite inbound_attachments_parts. simpl.
  split_and!; try done.
  f_equal. unfold inbound_threadContent, inbound_content, inbound_header, placeholder.
  rewrite bool_decide_eq_true_2 by done.
  rewrite bool_decide_eq_false_2 by done. simpl andb. cbv iota.
  destruct (threadTimestamps env); by rewrite ?append_assoc.
Qed.

(** The user sends an embed and no text to thread 1. *)
Lemma embed_placeholder_relayed_witness :
  let r := receiveUserReply env0 th0 embed_only false w0 in
  resolved r
  ∧ ∃ relayed row later_sent later_rows,
      sent (world_of r) = sent w0 ++ relayed :: later_sent
      ∧ thread_messages (world_of r) = thread_messages w0 ++ row :: later_rows
      ∧ sent_channel relayed = channel_id th0
      ∧ sent_content relayed
        = Text (inbound_header env0 embed_only +:+ placeholder
                  +:+ inbound_relay_links env0 (msg_attachments embed_only))
      ∧ message_type row = FROM_USER
      ∧ body row
        = msg_content embed_only
            +:+ inbound_log_links env0 (msg_attachments embed_only)
      ∧ Forall (λ row, message_type row = SYSTEM) later_rows.
Proof.
  refine (embed_placeholder_relayed env0 th0 embed_only false w0 _ _ _).
  - reflexivity.
  - reflexivity.
  - discriminate.
Defined.

(** The claim fails for the transcript: the user's message holds an
    embed and blank text, the relay channel shows the placeholder, and
    the row that is logged has the blank text as its body. *)
Lemma embed_placeholder_counterexample :
  let r := receiveUserReply env0 th0 embed_only false w0 in
  relay_live w0 th0
  ∧ Js.trim (msg_content embed_only) = ""
  ∧ msg_embeds embed_only ≠ 0%nat
  ∧ resolved r
  ∧ sent_content <$> sent (world_of r)
    = [Text "**alice#0001:** <message contains embeds>"]
  ∧ (λ row, (message_type row, body row)) <$> thread_messages (world_of r)
    = [(FROM_USER, "  ")]
  ∧ "  " ≠ placeholder.
Proof. vm_compute. by split_and!. Qed.

(** ** What every call keeps *)

Section Methods.

Context (env : Env) (this : Thread) (extra : option string).
Context {R : World → World → Prop} (HR : respected this extra R).

Lemma keeps_ret {A} (a : A) : keeps R (ret a).
Proof. intros w. apply (respected_refl _ _ _ HR). Qed.

Lemma keeps_throw {A} e : keeps R (@throw A e).
Proof. intros w. apply (respected_refl _ _ _ HR). Qed.

Lemma keeps_gets {A} (f : World → A) : keeps R (gets f).
Proof. intros w. apply (respected_refl _ _ _ HR). Qed.

Lemma keeps_bind {A B} (m : M A) (k : A → M B) :
  keeps R m → (∀ a, keeps R (k a)) → keeps R (bind m k).
Proof.
  intros Hm Hk w. specialize (Hm w). unfold bind.
  destruct (m w) as [a w1|e w1]; simpl in *; [|done].
  eapply (respected_trans _ _ _ HR); [exact Hm|apply Hk].
Qed.

Lemma keeps_try_catch {A} (m : M A) (h : Err → M A) :
  keeps R m → (∀ e, keeps R (h e)) → keeps R (try_catch m h).
Proof.
  intros Hm Hh w. specialize (Hm w). unfold try_catch.
  destruct (m w) as [a w1|e w1]; simpl in *; [done|].
  eapply (respected_trans _ _ _ HR); [exact Hm|apply Hh].
Qed.

Lemma keeps_detached {A} (m : M A) : keeps R m → keeps R (detached m).
Proof.
  intros Hm w. specialize (Hm w). unfold detached.
  by destruct (m w) as [a w1|e w1].
Qed.

Lemma keeps_modify (f : World → World) : (∀ w, R w (f w)) → keeps R (modify f).
Proof. intros Hf w. apply Hf. Qed.

Ltac keep :=
  repeat lazymatch goal with
    | |- keeps _ (bind _ _) => apply keeps_bind; [|intros ?]
    | |- keeps _ (ret _) => apply keeps_ret
    | |- keeps _ (throw _) => apply keeps_throw
    | |- keeps _ (gets _) => apply keeps_gets
    | |- keeps _ (detached _) => apply keeps_detached
    | |- keeps _ (try_catch _ _) => apply keeps_try_catch; [|intros ?]
    | |- keeps _ (row_or_throw _) => unfold row_or_throw
    | |- keeps _ (match ?x with _ => _ end) => destruct x
    end.

Lemma keeps_createMessage ch content files w :
  reaches this extra w ch → R w (world_of (bot_createMessage ch content files w)).
Proof.
  intros Hch. unfold bot_createMessage.
  destruct (channels w !! ch) as [[|c m]|]; simpl;
    try apply (respected_refl _ _ _ HR).
  by apply (respected_sent this extra R HR).
Qed.

Lemma keeps_relay_createMessage content files :
  keeps R (bot_createMessage (channel_id this) content files).
Proof. intros w. apply keeps_createMessage. by left. Qed.

Lemma keeps_postToUser text file : keeps R (postToUser this text file).
Proof.
  intros w. unfold postToUser, getDMChannel, bind, gets.
  destruct (dm_channels w !! user_id this) as [ch|] eqn:Hdm.
  - apply keeps_createMessage. right. by left.
  - apply (respected_refl _ _ _ HR).
Qed.

Lemma keeps_sse_send sse ev : keeps R (sse_send sse ev).
Proof.
  unfold sse_send. keep.
  apply keeps_modify. intros w. apply (respected_sse this extra R HR).
Qed.

Lemma keeps_addThreadMessageToDB data sse :
  keeps R (addThreadMessageToDB this data sse).
Proof.
  intros w. unfold addThreadMessageToDB, bind, gets, thread_messages_insert, modify.
  eapply (respected_trans _ _ _ HR); [|apply keeps_sse_send].
  apply (respected_row this extra R HR).
Qed.

Lemma keeps_channel_delete st : keeps R (channel_delete (channel_id this) st).
Proof.
  unfold channel_delete. keep.
  apply keeps_modify. apply (respected_channel this extra R HR).
Qed.

Lemma keeps_threads_update_closed now by_id by_name :
  keeps R
    (threads_update (thread_id this)
       (λ row,
          set_staff_role_overrides None
            (set_alert_users None
               (set_scheduled_close (Some now) by_id (Some by_name)
                  (set_status CLOSED row))))).
Proof.
  apply keeps_modify. intros w.
  apply (respected_closed this extra R HR w now by_id by_name).
Qed.

Lemma keeps_close_with post author silent sse :
  (∀ content file, keeps R (post content file)) →
  keeps R (close_with post this author silent sse).
Proof.
  intros Hpost. unfold close_with, threads_first. keep;
    first [ apply Hpost | apply keeps_threads_update_closed
          | apply keeps_sse_send | apply keeps_channel_delete ].
Qed.

Lemma keeps_postToThreadChannel content file :
  keeps R (postToThreadChannel env this content file).
Proof.
  unfold postToThreadChannel. keep.
  - apply keeps_relay_createMessage.
  - apply keeps_close_with. intros ? ?. keep.
Qed.

Lemma keeps_close author silent sse : keeps R (close env this author silent sse).
Proof. apply keeps_close_with, keeps_postToThreadChannel. Qed.

Lemma keeps_postSystemMessage text file :
  keeps R (postSystemMessage env this text file).
Proof.
  unfold postSystemMessage. keep;
    first [apply keeps_postToThreadChannel | apply keeps_addThreadMessageToDB].
Qed.

Lemma keeps_postNonLogMessage content file :
  keeps R (postNonLogMessage env this content file).
Proof. unfold postNonLogMessage. keep. apply keeps_postToThreadChannel. Qed.

Lemma keeps_threads_update_scheduled at_ by_id by_name :
  keeps R (threads_update (thread_id this) (set_scheduled_close at_ by_id by_name)).
Proof. apply keeps_modify. intros w. apply (respected_scheduled this extra R HR). Qed.

Lemma keeps_setTimeout_delete m delay : keeps R (setTimeout_delete m delay).
Proof. apply keeps_modify. intros w. apply (respected_timers this extra R HR). Qed.

Lemma keeps_reply_cancels_close : keeps R (reply_cancels_close env this).
Proof.
  unfold reply_cancels_close, cancelScheduledClose. keep;
    first [ apply keeps_threads_update_scheduled | apply keeps_postSystemMessage
          | apply keeps_setTimeout_delete ].
Qed.

Lemma keeps_replyToUser moderator text replyAttachments isAnonymous sse :
  keeps R (replyToUser env this moderator text replyAttachments isAnonymous sse).
Proof.
  unfold replyToUser. keep;
    first [ apply keeps_postToUser | apply keeps_postSystemMessage
          | apply keeps_postToThreadChannel | apply keeps_addThreadMessageToDB
          | apply keeps_reply_cancels_close ].
Qed.

Lemma keeps_sendCommandToUser moderator message command_name isAnonymous :
  keeps R (sendCommandToUser env this moderator message command_name isAnonymous).
Proof.
  unfold sendCommandToUser. keep;
    first [ apply keeps_postToUser | apply keeps_postSystemMessage
          | apply keeps_postToThreadChannel | apply keeps_addThreadMessageToDB
          | apply keeps_reply_cancels_close ].
Qed.

Lemma keeps_inbound_alerts : keeps R (inbound_alerts env this).
Proof. unfold inbound_alerts. keep. apply keeps_postSystemMessage. Qed.

Lemma keeps_inbound_pending_close : keeps R (inbound_pending_close env this).
Proof.
  unfold inbound_pending_close, cancelScheduledClose. keep;
    first [ apply keeps_threads_update_scheduled | apply keeps_postSystemMessage
          | apply keeps_setTimeout_delete ].
Qed.

Lemma keeps_receiveUserReply msg sse :
  extra = Some (msg_channel_id msg) →
  keeps R (receiveUserReply env this msg sse).
Proof.
  intros Hextra. unfold receiveUserReply. keep;
    first [ apply keeps_postToThreadChannel | apply keeps_addThreadMessageToDB
          | apply keeps_inbound_alerts | apply keeps_inbound_pending_close
          | idtac ].
  intros w. apply keeps_createMessage. right. right. by rewrite Hextra.
Qed.

Lemma keeps_alertStatus userId status : keeps R (alertStatus this userId status).
Proof.
  unfold alertStatus, threads_first. keep.
  apply keeps_modify. intros w. apply (respected_alerts this extra R HR).
Qed.

Lemma keeps_setStaffRoleOverride userId roleId :
  keeps R (setStaffRoleOverride this userId roleId).
Proof.
  unfold setStaffRoleOverride, threads_first. keep.
  apply keeps_modify. intros w. apply (respected_overrides this extra R HR).
Qed.

Lemma keeps_deleteStaffRoleOverride userId :
  keeps R (deleteStaffRoleOverride this userId).
Proof.
  unfold deleteStaffRoleOverride, threads_first. keep.
  apply keeps_modify. intros w. apply (respected_overrides this extra R HR).
Qed.

(** Every call that neither rewrites transcript rows nor sets the status
    outright stays within a respected relation. *)
Lemma keeps_perform call :
  rewrites_rows call = false →
  sets_status call = false →
  answer_channel call = None ∨ answer_channel call = extra →
  keeps R (perform env this call).
Proof.
  intros Hrows Hstatus Hextra. destruct call; simpl in *; try done.
  - apply keeps_replyToUser.
  - apply keeps_sendCommandToUser.
  - apply keeps_receiveUserReply. by destruct Hextra.
  - keep. apply keeps_postSystemMessage.
  - apply keeps_postNonLogMessage.
  - apply keeps_addThreadMessageToDB.
  - apply keeps_addThreadMessageToDB.
  - apply keeps_alertStatus.
  - apply keeps_close.
  - apply keeps_threads_update_scheduled.
  - apply keeps_threads_update_scheduled.
  - apply keeps_setStaffRoleOverride.
  - apply keeps_deleteStaffRoleOverride.
Qed.

End Methods.

Lemma keeps_in_sequence {Op} this extra R (HR : respected this extra R)
    (step : Op → M unit) ops :
  (∀ op, op ∈ ops → keeps R (step op)) → keeps R (in_sequence step ops).
Proof.
  induction ops as [|op rest IH]; intros Hops; simpl.
  - by apply (keeps_ret this extra).
  - apply (keeps_bind this extra HR).
    + apply Hops. by left.
    + intros _. apply IH. intros op' Hop'. apply Hops. by right.
Qed.

(** ** The four relations are respected *)

Section Respected.

Context (this : Thread) (extra : option string).

Lemma appended_rows_refl w : appended_rows this w w.
Proof. split; [done|]. exists []. by rewrite app_nil_r. Qed.

Lemma appended_rows_same f w :
  (∀ w0, thread_messages (f w0) = thread_messages w0) →
  (∀ w0, clock (f w0) = clock w0) →
  appended_rows this w (f w).
Proof.
  intros Hrows Hclock. split; [done|]. exists [].
  by rewrite Hrows, app_nil_r.
Qed.

Lemma appended_rows_respected : respected this extra (appended_rows this).
Proof.
  split; try (intros; by apply appended_rows_same).
  - apply appended_rows_refl.
  - intros w1 w2 w3 (Hc1 & new1 & Hr1 & Hn1) (Hc2 & new2 & Hr2 & Hn2).
    split; [congruence|]. exists (new1 ++ new2).
    rewrite Hr2, Hr1, app_assoc. split; [done|].
    apply Forall_app. split; [done|]. by rewrite <-Hc1.
  - intros w mt uid uname b anon dm tm. split; [done|].
    eexists [_]. split; [reflexivity|]. apply Forall_cons_2; [done|constructor].
Qed.

Lemma gateway_frame_refl w : gateway_frame this extra w w.
Proof.
  split_and!; [done| |done|by left]. exists []. by rewrite app_nil_r.
Qed.

Lemma gateway_frame_same f w :
  (∀ w0, dm_channels (f w0) = dm_channels w0) →
  (∀ w0, sent (f w0) = sent w0) →
  (∀ w0, channels (f w0) = channels w0) →
  gateway_frame this extra w (f w).
Proof.
  intros Hdm Hsent Hch. unfold gateway_frame. rewrite Hdm, Hsent, Hch.
  apply gateway_frame_refl.
Qed.

Lemma gateway_frame_respected : respected this extra (gateway_frame this extra).
Proof.
  split; try (intros; by apply gateway_frame_same).
  - apply gateway_frame_refl.
  - intros w1 w2 w3 (Hd1 & (new1 & Hs1 & Hn1) & Ho1 & Hr1)
                    (Hd2 & (new2 & Hs2 & Hn2) & Ho2 & Hr2).
    split_and!.
    + congruence.
    + exists (new1 ++ new2). rewrite Hs2, Hs1, app_assoc. split; [done|].
      apply Forall_app. split; [done|].
      eapply Forall_impl; [exact Hn2|]. intros m. unfold reaches.
      by rewrite Hd1.
    + intros ch Hch. by rewrite Ho2, Ho1.
    + destruct Hr2 as [Hr2|Hr2]; [|by right]. by rewrite Hr2.
  - intros w ch content files Hch. split_and!; [done| |done|by left].
    eexists [_]. split; [reflexivity|]. apply Forall_cons_2; [done|constructor].
  - intros w. split_and!; [done| | |].
    + exists []. by rewrite app_nil_r.
    + intros ch Hch. simpl. by rewrite lookup_delete_ne.
    + right. simpl. apply lookup_delete_eq.
Qed.

Lemma store_frame_refl w : store_frame this w w.
Proof.
  split_and!; [done| |done].
  by destruct (threads w !! thread_id this).
Qed.

Lemma store_frame_same f w :
  (∀ w0, threads (f w0) = threads w0) →
  (∀ w0, thread_messages (f w0) = thread_messages w0) →
  store_frame this w (f w).
Proof.
  intros Ht Hr. unfold store_frame. rewrite Ht, Hr. apply store_frame_refl.
Qed.

(** A column assignment on the thread's own row. *)
Lemma store_frame_alter f w :
  (∀ row, same_identity row (f row)) →
  store_frame this w (with_threads (alter f (thread_id this)) w).
Proof.
  intros Hf. split_and!; simpl.
  - intros tid Htid. by rewrite lookup_alter_ne.
  - rewrite lookup_alter_eq. destruct (threads w !! thread_id this); simpl; auto.
  - done.
Qed.

Lemma store_frame_trans w1 w2 w3 :
  store_frame this w1 w2 → store_frame this w2 w3 → store_frame this w1 w3.
Proof.
  intros (Ho1 & Hi1 & Hr1) (Ho2 & Hi2 & Hr2). split_and!.
  - intros tid Htid. by rewrite Ho2, Ho1.
  - destruct (threads w1 !! thread_id this) as [r1|],
      (threads w2 !! thread_id this) as [r2|],
      (threads w3 !! thread_id this) as [r3|]; try done.
    unfold same_identity in *.
    destruct Hi1 as (? & ? & ? & ? & ?), Hi2 as (? & ? & ? & ? & ?).
    split_and!; congruence.
  - by rewrite Hr2.
Qed.

Lemma store_frame_respected : respected this extra (store_frame this).
Proof.
  split; try (intros; by apply store_frame_same);
    try (intros; by apply store_frame_alter).
  - apply store_frame_refl.
  - apply store_frame_trans.
  - intros w mt uid uname b anon dm tm. split_and!; [done| |].
    + simpl. by destruct (threads w !! thread_id this).
    + simpl. rewrite filter_app, filter_cons_False, filter_nil, app_nil_r; [done|].
      simpl. by intros H.
Qed.

Lemma stays_closed_same f w :
  (∀ w0, threads (f w0) = threads w0) → stays_closed this w (f w).
Proof. intros Ht. unfold stays_closed. by rewrite Ht. Qed.

Lemma stays_closed_alter f w :
  (∀ row, status row = CLOSED → status (f row) = CLOSED) →
  stays_closed this w (with_threads (alter f (thread_id this)) w).
Proof.
  intros Hf. unfold stays_closed. simpl. rewrite lookup_alter_eq.
  destruct (threads w !! thread_id this) as [row|]; simpl; [|done].
  intros [= Hrow]. f_equal. by apply Hf.
Qed.

Lemma stays_closed_respected : respected this extra (stays_closed this).
Proof.
  split; try (intros; by apply stays_closed_same);
    try (intros; by apply stays_closed_alter).
  - intros w Hc. exact Hc.
  - intros w1 w2 w3 H1 H2 Hc. by apply H2, H1.
Qed.

End Respected.

(** ** Frames of the calls *)

Section Frames.

Context (env : Env) (this : Thread).

Lemma filter_other_threads_update msg_id body tm_id (rows : list ThreadMessage) :
  filter (λ row, tm_thread_id row ≠ thread_id this)
    ((λ row, if decide (where_dm this msg_id row)
             then set_body_and_thread_message body tm_id row else row) <$> rows)
  = filter (λ row, tm_thread_id row ≠ thread_id this) rows.
Proof.
  induction rows as [|row rows IH]; [done|]. rewrite fmap_cons.
  destruct (decide (tm_thread_id row = thread_id this)) as [Hthis|Hother].
  - rewrite !filter_cons_False, IH; [done|by intros H|].
    intros H. apply H. by destruct (decide (where_dm this msg_id row)).
  - rewrite decide_False by (by intros [? _]).
    by rewrite !filter_cons_True, IH.
Qed.

Lemma filter_other_threads_delete messageId (rows : list ThreadMessage) :
  filter (λ row, tm_thread_id row ≠ thread_id this)
    (filter (λ row, ¬ where_dm this messageId row) rows)
  = filter (λ row, tm_thread_id row ≠ thread_id this) rows.
Proof.
  induction rows as [|row rows IH]; [done|].
  destruct (decide (tm_thread_id row = thread_id this)) as [Hthis|Hother].
  - rewrite (filter_cons_False (λ row, tm_thread_id row ≠ _)) by (by intros H).
    destruct (decide (where_dm this messageId row)).
    + rewrite filter_cons_False by (by intros H). done.
    + rewrite filter_cons_True by done.
      by rewrite filter_cons_False by (by intros H).
  - rewrite (filter_cons_True (λ row, ¬ _)) by (by intros [? _]).
    by rewrite !filter_cons_True, IH.
Qed.

Lemma perform_appended_rows call :
  rewrites_rows call = false → keeps (appended_rows this) (perform env this call).
Proof.
  intros Hrows. destruct (sets_status call) eqn:Hstatus.
  - destruct call; try done; intros w;
      by apply (appended_rows_same this (with_threads _)).
  - apply (keeps_perform env this (answer_channel call)); [|done|done|by right].
    apply appended_rows_respected.
Qed.

Lemma perform_store_frame call : keeps (store_frame this) (perform env this call).
Proof.
  destruct (rewrites_rows call) eqn:Hrows; [|destruct (sets_status call) eqn:Hstatus].
  - destruct call; try done; intros w; (split_and!; simpl; [done| |]).
    + by destruct (threads w !! thread_id this).
    + apply filter_other_threads_update.
    + by destruct (threads w !! thread_id this).
    + apply filter_other_threads_delete.
  - destruct call; try done; intros w; by apply store_frame_alter.
  - apply (keeps_perform env this (answer_channel call)); [|done|done|by right].
    apply store_frame_respected.
Qed.

Lemma perform_gateway_frame call :
  keeps (gateway_frame this (answer_channel call)) (perform env this call).
Proof.
  destruct (rewrites_rows call) eqn:Hrows; [|destruct (sets_status call) eqn:Hstatus].
  - destruct call; try done; intros w;
      by apply (gateway_frame_same this _ (with_thread_messages _)).
  - destruct call; try done; intros w;
      by apply (gateway_frame_same this _ (with_threads _)).
  - apply (keeps_perform env this (answer_channel call)); [|done|done|by right].
    apply gateway_frame_respected.
Qed.

Lemma perform_stays_closed call :
  sets_status call = false → keeps (stays_closed this) (perform env this call).
Proof.
  intros Hstatus. destruct (rewrites_rows call) eqn:Hrows.
  - destruct call; try done; intros w;
      by apply (stays_closed_same this (with_thread_messages _)).
  - apply (keeps_perform env this (answer_channel call)); [|done|done|by right].
    apply stays_closed_respected.
Qed.

End Frames.

(** X1.  Whatever their outcome, calls of the class other than
    [updateChatMessage] and [deleteChatMessage], made one after the other,
    leave every row of the transcript table in place and only append
    rows of this thread, stamped with the current time. *)
Theorem transcript_append_only env this calls w :
  Forall (λ call, rewrites_rows call = false) calls →
  let w' := world_of (in_sequence (perform env this) calls w) in
  ∃ new,
    thread_messages w' = thread_messages w ++ new
    ∧ Forall (λ row, tm_thread_id row = thread_id this
                     ∧ tm_created_at row = clock w) new.
Proof.
  intros Hcalls w'.
  apply (keeps_in_sequence this None _ (appended_rows_respected this None)
           (perform env this) calls).
  intros call Hcall. apply perform_appended_rows.
  by apply (proj1 (Forall_forall _ _) Hcalls).
Qed.

Lemma transcript_append_only_witness :
  let w' := world_of (in_sequence (perform env0 th0) busy_day w0) in
  ∃ new,
    thread_messages w' = thread_messages w0 ++ new
    ∧ Forall (λ row, tm_thread_id row = thread_id th0
                     ∧ tm_created_at row = clock w0) new.
Proof.
  refine (transcript_append_only env0 th0 busy_day w0 _).
  repeat constructor.
Defined.

(** X2.  Whatever their outcome, calls of the class on one thread change
    nothing of any other thread: the rows of other threads are as before
    in both tables.  The thread's own row is neither created nor deleted
    and keeps its id, user, user name, channel and creation time. *)
Theorem calls_touch_own_thread_only env this calls w :
  let w' := world_of (in_sequence (perform env this) calls w) in
  (∀ tid, tid ≠ thread_id this → threads w' !! tid = threads w !! tid)
  ∧ match threads w !! thread_id this, threads w' !! thread_id this with
    | Some row, Some row' => same_identity row row'
    | None, None => True
    | _, _ => False
    end
  ∧ filter (λ row, tm_thread_id row ≠ thread_id this) (thread_messages w')
    = filter (λ row, tm_thread_id row ≠ thread_id this) (thread_messages w).
Proof.
  intros w'.
  apply (keeps_in_sequence this None _ (store_frame_respected this None)
           (perform env this) calls).
  intros call _. apply perform_store_frame.
Qed.

(** X3.  Whatever its outcome, a call of the class only adds to what the
    gateway delivered, and what it adds goes to the relay channel of the
    thread, to the DM channel of its user or, for an inbound message, to
    the channel the message came from.  No channel other than the relay
    channel is lost, and the relay channel is either as before or gone. *)
Theorem calls_post_to_own_channels env this call w :
  let w' := world_of (perform env this call w) in
  dm_channels w' = dm_channels w
  ∧ (∃ new, sent w' = sent w ++ new
            ∧ Forall (λ m, sent_channel m = channel_id this
                           ∨ dm_channels w !! user_id this = Some (sent_channel m)
                           ∨ Some (sent_channel m) = answer_channel call) new)
  ∧ (∀ ch, ch ≠ channel_id this → channels w' !! ch = channels w !! ch)
  ∧ (channels w' !! channel_id this = channels w !! channel_id this
     ∨ channels w' !! channel_id this = None).
Proof. apply perform_gateway_frame. Qed.

(** X4.  A thread stored as closed stays stored as closed under every
    call of the class other than [suspend] and [unsuspend]; those two
    write their status without reading the stored one, so [unsuspend]
    reopens a closed thread and [suspend] suspends it. *)
Theorem closed_left_only_by_suspend_unsuspend env this calls w row :
  persisted w this = Some row →
  status row = CLOSED →
  (Forall (λ call, sets_status call = false) calls →
   status <$> persisted (world_of (in_sequence (perform env this) calls w)) this
   = Some CLOSED)
  ∧ status <$> persisted (world_of (unsuspend this w)) this = Some OPEN
  ∧ status <$> persisted (world_of (suspend this w)) this = Some SUSPENDED.
Proof.
  intros Hrow Hclosed. split_and!.
  - intros Hcalls.
    apply (keeps_in_sequence this None _ (stays_closed_respected this None)
             (perform env this) calls).
    + intros call Hcall. apply perform_stays_closed.
      by apply (proj1 (Forall_forall _ _) Hcalls).
    + unfold persisted in Hrow. by rewrite Hrow, <-Hclosed.
  - unfold persisted in *. simpl. by rewrite lookup_alter_eq, Hrow.
  - unfold persisted in *. simpl. by rewrite lookup_alter_eq, Hrow.
Qed.

Lemma closed_left_only_by_suspend_unsuspend_witness :
  let w := world_of (close env0 th0 None true false w_scheduled) in
  (Forall (λ call, sets_status call = false) busy_day →
   status <$> persisted (world_of (in_sequence (perform env0 th0) busy_day w)) th0
   = Some CLOSED)
  ∧ status <$> persisted (world_of (unsuspend th0 w)) th0 = Some OPEN
  ∧ status <$> persisted (world_of (suspend th0 w)) th0 = Some SUSPENDED.
Proof.
  refine (closed_left_only_by_suspend_unsuspend env0 th0 busy_day _
            (closed_row 1000 (Some "7") "bob#0007" th_scheduled) _ _).
  - reflexivity.
  - reflexivity.
Defined.

(** ** Reading the transcript back *)

Section Ordering.

Implicit Types (row : ThreadMessage) (rows : list ThreadMessage).

Local Abbreviation second row := (stored_second (tm_created_at row)).

Lemma times_ascend_weaken b b' rows :
  b' ≤ b → times_ascend b rows → times_ascend b' rows.
Proof. destruct rows as [|row rows]; [done|]. simpl. intros ? [? ?]. split; [lia|done]. Qed.

Lemma times_ascend_all b rows :
  times_ascend b rows → Forall (λ row, b ≤ second row) rows.
Proof.
  revert b. induction rows as [|row rows IH]; intros b; [done|].
  simpl. intros [Hb Hrest]. constructor; [done|].
  eapply Forall_impl; [by apply IH|]. simpl. intros. lia.
Qed.

Lemma times_ascend_app b rows rows' c :
  times_ascend b rows →
  Forall (λ row, second row ≤ c) rows →
  Forall (λ row, second row = c) rows' →
  times_ascend (Z.min b c) (rows ++ rows').
Proof.
  revert b. induction rows as [|row rows IH]; intros b Hasc Hle Heq.
  - simpl. clear Hasc Hle. revert b.
    induction Heq as [|row rows' Hrow Hrows' IH']; intros b; [done|].
    simpl. split; [lia|]. apply (times_ascend_weaken (Z.min c c)); [lia|].
    rewrite <-Hrow at 1. rewrite Hrow. apply IH'.
  - simpl in *. destruct Hasc as [Hb Hasc].
    apply Forall_cons in Hle as [Hrow Hle]. split; [lia|].
    apply (times_ascend_weaken (Z.min (second row) c)); [lia|]. by apply IH.
Qed.

Lemma times_ascend_filter (P : ThreadMessage → Prop) `{!∀ row, Decision (P row)}
    b rows :
  times_ascend b rows → times_ascend b (filter P rows).
Proof.
  revert b. induction rows as [|row rows IH]; intros b; [done|].
  simpl. intros [Hb Hasc]. destruct (decide (P row)).
  - rewrite filter_cons_True by done. simpl. split; [done|]. by apply IH.
  - rewrite filter_cons_False by done.
    apply IH. by apply (times_ascend_weaken (second row)).
Qed.

Lemma insert_by_created_at_last row rows :
  Forall (λ row', second row' ≤ second row) rows →
  insert_by_created_at row rows = rows ++ [row].
Proof.
  induction 1 as [|row' rows Hle Hrows IH]; [done|]. simpl.
  rewrite decide_False by lia. by rewrite IH.
Qed.

Lemma order_by_created_at_snoc rows row :
  order_by_created_at (rows ++ [row])
  = insert_by_created_at row (order_by_created_at rows).
Proof. unfold order_by_created_at. by rewrite foldl_app. Qed.

Lemma times_ascend_snoc_inv b rows row :
  times_ascend b (rows ++ [row]) →
  times_ascend b rows ∧ Forall (λ row', second row' ≤ second row) rows.
Proof.
  revert b. induction rows as [|row' rows IH]; intros b; [done|].
  simpl. intros [Hb Hasc]. destruct (IH _ Hasc) as [Hasc' Hle].
  split; [done|]. constructor; [|done].
  apply times_ascend_all in Hasc.
  apply Forall_app in Hasc as [_ Hlast].
  by apply Forall_inv in Hlast.
Qed.

(** Rows whose times already ascend are read back as they are. *)
Lemma order_by_created_at_ascending b rows :
  times_ascend b rows → order_by_created_at rows = rows.
Proof.
  induction rows as [|row rows IH] using rev_ind; [done|].
  intros [Hasc Hle]%times_ascend_snoc_inv.
  rewrite order_by_created_at_snoc, IH by done.
  by apply insert_by_created_at_last.
Qed.

Lemma insert_by_created_at_perm row rows :
  insert_by_created_at row rows ≡ₚ row :: rows.
Proof.
  induction rows as [|row' rows IH]; [done|]. simpl.
  destruct (decide _); [done|]. rewrite IH. apply Permutation_swap.
Qed.

Lemma order_by_created_at_perm rows : order_by_created_at rows ≡ₚ rows.
Proof.
  induction rows as [|row rows IH] using rev_ind; [done|].
  rewrite order_by_created_at_snoc, insert_by_created_at_perm, IH.
  by rewrite Permutation_cons_append.
Qed.

Lemma insert_by_created_at_ascend b row rows :
  times_ascend b rows →
  times_ascend (Z.min b (second row)) (insert_by_created_at row rows).
Proof.
  revert b. induction rows as [|row' rows IH]; intros b.
  - simpl. intros _. split; [lia|done].
  - simpl. intros [Hb Hasc]. destruct (decide _) as [Hlt|Hge]; simpl.
    + split_and!; [lia|lia|done].
    + split; [lia|].
      apply (times_ascend_weaken (Z.min (second row') (second row))); [lia|].
      by apply IH.
Qed.

Lemma order_by_created_at_ascend rows :
  ∃ b, times_ascend b (order_by_created_at rows).
Proof.
  induction rows as [|row rows [b IH]] using rev_ind; [by exists 0|].
  rewrite order_by_created_at_snoc. eexists.
  by apply insert_by_created_at_ascend.
Qed.

(** Rows with the same stored time are read in the order of the table. *)
Lemma insert_by_created_at_filter (P : ThreadMessage → Prop)
    `{!∀ row, Decision (P row)} b row rows :
  times_ascend b rows →
  filter P (insert_by_created_at row rows)
  = if decide (P row) then insert_by_created_at row (filter P rows)
    else filter P rows.
Proof.
  revert b. induction rows as [|row' rows IH]; intros b.
  - intros _. simpl. destruct (decide (P row)).
    + by rewrite filter_cons_True.
    + by rewrite filter_cons_False.
  - simpl. intros [Hb Hasc]. destruct (decide (second row < second row')) as [Hlt|Hge].
    + assert (insert_by_created_at row (filter P (row' :: rows))
              = row :: filter P (row' :: rows)) as Hfront.
      { pose proof (times_ascend_all _ _ (times_ascend_filter P _ (row' :: rows)
                      (conj (Z.le_refl _) Hasc))) as Hall.
        destruct (filter P (row' :: rows)) as [|first rest]; [done|].
        apply Forall_cons in Hall as [Hfirst _]. simpl.
        by rewrite decide_True by lia. }
      destruct (decide (P row)).
      * by rewrite filter_cons_True, Hfront.
      * by rewrite filter_cons_False.
    + rewrite !(filter_cons P row'), (IH _ Hasc).
      destruct (decide (P row')), (decide (P row)); try done.
      simpl. by rewrite decide_False.
Qed.

Lemma order_by_created_at_filter (P : ThreadMessage → Prop)
    `{!∀ row, Decision (P row)} rows :
  order_by_created_at (filter P rows) = filter P (order_by_created_at rows).
Proof.
  induction rows as [|row rows IH] using rev_ind; [done|].
  rewrite filter_app, order_by_created_at_snoc.
  destruct (order_by_created_at_ascend rows) as [b Hasc].
  rewrite (insert_by_created_at_filter P b) by done.
  destruct (decide (P row)).
  - rewrite filter_cons_True, filter_nil by done.
    by rewrite order_by_created_at_snoc, IH.
  - rewrite filter_cons_False, filter_nil, app_nil_r by done. done.
Qed.

End Ordering.

(** X5.  [getThreadMessages] leaves the world as it is and returns the
    rows of this thread, each as often as the table holds it, with
    stored times that never go back; rows with the same stored time are
    in the order of the table. *)
Theorem getThreadMessages_sorted this w :
  ∃ rows,
    getThreadMessages this w = Ok rows w
    ∧ rows ≡ₚ filter (λ row, tm_thread_id row = thread_id this) (thread_messages w)
    ∧ (∃ bound, times_ascend bound rows)
    ∧ ∀ s, filter (λ row, stored_second (tm_created_at row) = s) rows
           = filter (λ row, stored_second (tm_created_at row) = s)
               (filter (λ row, tm_thread_id row = thread_id this)
                  (thread_messages w)).
Proof.
  eexists. split; [reflexivity|]. split_and!.
  - apply order_by_created_at_perm.
  - apply order_by_created_at_ascend.
  - intros s. rewrite <-order_by_created_at_filter.
    apply (order_by_created_at_ascending s).
    induction (filter _ (thread_messages w)) as [|row rows IH]; [done|].
    destruct (decide (stored_second (tm_created_at row) = s)) as [Hs|Hs].
    + rewrite filter_cons_True by done. simpl. split; [lia|]. by rewrite Hs.
    + by rewrite filter_cons_False.
Qed.

Section WrittenOrder.

Context (env : Env) (this : Thread).

Lemma filter_thread_all (rows : list ThreadMessage) P :
  Forall (λ row, tm_thread_id row = thread_id this ∧ P row) rows →
  filter (λ row, tm_thread_id row = thread_id this) rows = rows.
Proof.
  induction 1 as [|row rows [Hrow _] _ IH]; [done|].
  by rewrite filter_cons_True, IH.
Qed.

Lemma written_in_order_appended w w' :
  appended_rows this w w' → written_in_order this w → written_in_order this w'.
Proof.
  intros (Hclock & new & Hrows & Hnew) (bound & Hasc & Hpast).
  exists (Z.min bound (stored_second (clock w))). rewrite Hrows, Hclock. split.
  - rewrite filter_app, (filter_thread_all new _ Hnew).
    apply times_ascend_app; [done| |].
    + apply list.Forall_forall. intros row [Hthis Hin]%list_elem_of_filter.
      apply Z.div_le_mono; [lia|].
      by apply (proj1 (list.Forall_forall _ _) Hpast).
    + eapply Forall_impl; [exact Hnew|]. simpl. by intros row [_ ->].
  - apply Forall_app. split; [done|].
    eapply Forall_impl; [exact Hnew|]. simpl. intros row [_ ->] _. lia.
Qed.

Lemma written_in_order_update msg tm w :
  written_in_order this w →
  written_in_order this (world_of (updateChatMessage this msg tm w)).
Proof.
  intros (bound & Hasc & Hpast). exists bound. simpl.
  set (upd := λ row, if decide (where_dm this (msg_id msg) row)
                     then set_body_and_thread_message (msg_content msg)
                            (sent_id tm) row
                     else row).
  assert (∀ row, tm_thread_id (upd row) = tm_thread_id row
                 ∧ tm_created_at (upd row) = tm_created_at row) as Hupd.
  { intros row. unfold upd. by destruct (decide _). }
  split.
  - revert bound Hasc. clear Hpast.
    induction (thread_messages w) as [|row rows IH]; intros bound; [done|].
    rewrite fmap_cons.
    destruct (decide (tm_thread_id row = thread_id this)) as [Hthis|Hother].
    + rewrite !filter_cons_True by (done || by rewrite (proj1 (Hupd row))).
      simpl. rewrite (proj2 (Hupd row)). intros [Hb Hasc]. split; [done|].
      by apply IH.
    + rewrite !filter_cons_False by (done || by rewrite (proj1 (Hupd row))).
      apply IH.
  - apply Forall_fmap. eapply Forall_impl; [exact Hpast|]. simpl.
    intros row Hrow. by rewrite (proj1 (Hupd row)), (proj2 (Hupd row)).
Qed.

Lemma written_in_order_delete messageId w :
  written_in_order this w →
  written_in_order this (world_of (deleteChatMessage this messageId w)).
Proof.
  intros (bound & Hasc & Hpast). exists bound. simpl. split.
  - rewrite list_filter_filter.
    rewrite (list_filter_iff _
               (λ row, (¬ where_dm this messageId row)
                       ∧ tm_thread_id row = thread_id this))
      by (intros row; tauto).
    rewrite <-list_filter_filter. by apply times_ascend_filter.
  - apply list.Forall_forall. intros row [_ Hin]%list_elem_of_filter.
    by apply (proj1 (list.Forall_forall _ _) Hpast).
Qed.

Lemma written_in_order_happen ev w :
  waits_forward ev →
  written_in_order this w →
  written_in_order this (world_of (happen env this ev w)).
Proof.
  intros Hev Hw. destruct ev as [d|call]; simpl in *.
  - destruct Hw as (bound & Hasc & Hpast). exists bound. simpl.
    split; [done|]. eapply Forall_impl; [exact Hpast|]. simpl.
    intros row Hrow Hthis. specialize (Hrow Hthis). lia.
  - destruct (rewrites_rows call) eqn:Hrows.
    + destruct call; try done.
      * by apply written_in_order_update.
      * by apply written_in_order_delete.
    + eapply written_in_order_appended; [|done].
      by apply perform_appended_rows.
Qed.

End WrittenOrder.

(** X6.  Start from a table in which the rows of the thread carry times
    that never go back and are not in the future.  After any calls of the
    class, with time passing between them, the table is still so, and
    [getThreadMessages] returns the rows of the thread in the order in
    which they were written. *)
Theorem transcript_read_in_written_order env this events w :
  written_in_order this w →
  Forall waits_forward events →
  let w' := world_of (in_sequence (happen env this) events w) in
  written_in_order this w'
  ∧ getThreadMessages this w'
    = Ok (filter (λ row, tm_thread_id row = thread_id this) (thread_messages w'))
         w'.
Proof.
  intros Hw Hevents w'.
  assert (written_in_order this w') as Hw'.
  { subst w'. revert w Hw.
    induction Hevents as [|ev events Hev Hevents IH]; intros w Hw; [done|].
    simpl. unfold bind.
    pose proof (written_in_order_happen env this ev w Hev Hw) as Hstep.
    destruct (happen env this ev w) as [[] w1|e w1]; simpl in *; [|done].
    by apply IH. }
  split; [done|]. unfold getThreadMessages, gets. f_equal.
  destruct Hw' as (bound & Hasc & _).
  by apply (order_by_created_at_ascending bound).
Qed.

Lemma transcript_read_in_written_order_witness :
  let w' := world_of (in_sequence (happen env0 th0) busy_day_timed w0) in
  written_in_order th0 w'
  ∧ getThreadMessages th0 w'
    = Ok (filter (λ row, tm_thread_id row = thread_id th0) (thread_messages w'))
         w'.
Proof.
  refine (transcript_read_in_written_order env0 th0 busy_day_timed w0 _ _).
  - exists 0. split; [exact I|constructor].
  - repeat constructor; discriminate.
Defined.

(** ** Inbound messages: relay, log, edit *)

Section InboundLive.

Context (env : Env) (this : Thread).

(** An inbound message on a live relay channel: the relayed text and the
    [FROM_USER] row come first, system notices follow. *)
Lemma receiveUserReply_live_effects msg sse w :
  relay_live w this →
  ∃ w' later_sent later_rows,
    receiveUserReply env this msg sse w = Ok tt w'
    ∧ sent w' = sent w ++ inbound_relayed env this msg w :: later_sent
    ∧ thread_messages w'
      = thread_messages w ++ inbound_row env this msg w :: later_rows
    ∧ Forall (λ row, message_type row = SYSTEM) later_rows.
Proof.
  intros Hlive. rewrite receiveUserReply_live by done.
  destruct (inbound_tail_effects env this (inbound_logged env this msg sse w))
    as (w' & later_sent & later_rows & Hrun & Hsent & Hrows & Hsys); [done|].
  exists w', later_sent, later_rows. rewrite Hrun, Hsent, Hrows. simpl.
  by rewrite <-!app_assoc.
Qed.

End InboundLive.

(** X7.  An inbound message on a live relay channel.  Attachments of at
    most 2 MiB are sent on as files when the configuration asks for it,
    and only then; the links of the others are appended to the relayed
    text, and the links of all of them to the logged body.  The row that
    is logged is of type [FROM_USER], names the user of the thread, and
    pairs the id of the user's message with the id of the relayed one. *)
Theorem inbound_relay_and_log env this msg sse w :
  relay_live w this →
  let r := receiveUserReply env this msg sse w in
  resolved r
  ∧ ∃ relayed row later_sent later_rows,
      sent (world_of r) = sent w ++ relayed :: later_sent
      ∧ thread_messages (world_of r) = thread_messages w ++ row :: later_rows
      ∧ Forall (λ row, message_type row = SYSTEM) later_rows
      ∧ sent_channel relayed = channel_id this
      ∧ sent_content relayed
        = Text (inbound_threadContent env msg
                  +:+ inbound_relay_links env (msg_attachments msg))
      ∧ sent_files relayed = inbound_files env (msg_attachments msg)
      ∧ message_type row = FROM_USER
      ∧ tm_user_id row = Some (user_id this)
      ∧ body row = msg_content msg +:+ inbound_log_links env (msg_attachments msg)
      ∧ dm_message_id row = msg_id msg
      ∧ thread_message_id row = sent_id relayed
      ∧ (relaySmallAttachmentsAsAttachments env = false →
         sent_files relayed = []
         ∧ inbound_relay_links env (msg_attachments msg)
           = inbound_log_links env (msg_attachments msg)).
Proof.
  intros Hlive r. subst r.
  destruct (receiveUserReply_live_effects env this msg sse w Hlive)
    as (w' & later_sent & later_rows & Hrun & Hsent & Hrows & Hsys).
  rewrite Hrun. split; [done|].
  exists (inbound_relayed env this msg w), (inbound_row env this msg w),
    later_sent, later_rows.
  split; [done|]. split; [done|]. split; [done|].
  unfold inbound_relayed, inbound_row. rewrite inbound_attachments_parts.
  simpl. split_and!; try done.
  intros Hoff. unfold inbound_files, inbound_relay_links, inbound_log_links,
    forwarded_as_file. rewrite Hoff. simpl.
  split; [|done].
  induction (msg_attachments msg) as [|a l IH]; [done|].
  by rewrite filter_cons_False.
Qed.

Lemma inbound_relay_and_log_witness :
  let r := receiveUserReply env0 th0 with_files false w0 in
  resolved r
  ∧ ∃ relayed row later_sent later_rows,
      sent (world_of r) = sent w0 ++ relayed :: later_sent
      ∧ thread_messages (world_of r) = thread_messages w0 ++ row :: later_rows
      ∧ Forall (λ row, message_type row = SYSTEM) later_rows
      ∧ sent_channel relayed = channel_id th0
      ∧ sent_content relayed
        = Text (inbound_threadContent env0 with_files
                  +:+ inbound_relay_links env0 (msg_attachments with_files))
      ∧ sent_files relayed = inbound_files env0 (msg_attachments with_files)
      ∧ message_type row = FROM_USER
      ∧ tm_user_id row = Some (user_id th0)
      ∧ body row
        = msg_content with_files
            +:+ inbound_log_links env0 (msg_attachments with_files)
      ∧ dm_message_id row = msg_id with_files
      ∧ thread_message_id row = sent_id relayed
      ∧ (relaySmallAttachmentsAsAttachments env0 = false →
         sent_files relayed = []
         ∧ inbound_relay_links env0 (msg_attachments with_files)
           = inbound_log_links env0 (msg_attachments with_files)).
Proof.
  refine (inbound_relay_and_log env0 th0 with_files false w0 _).
  reflexivity.
Defined.

(** X8.  When the user's message is edited and [updateChatMessage] is
    called for it, the row logged for the message takes the new text as
    its whole body, so the attachment links that were logged with it are
    gone, and it is paired with the new relay message.  Rows of this
    thread with another DM id, and the rows of other threads, are as
    they were. *)
Theorem edit_replaces_logged_body env this msg sse edited threadMessage w :
  relay_live w this →
  msg_id edited = msg_id msg →
  let w1 := world_of (receiveUserReply env this msg sse w) in
  let w2 := world_of (updateChatMessage this edited threadMessage w1) in
  length (thread_messages w2) = length (thread_messages w1)
  ∧ (∃ row, thread_messages w2 !! length (thread_messages w) = Some row
            ∧ message_type row = FROM_USER
            ∧ dm_message_id row = msg_id msg
            ∧ body row = msg_content edited
            ∧ thread_message_id row = sent_id threadMessage)
  ∧ (∀ i row, thread_messages w1 !! i = Some row →
              ¬ where_dm this (msg_id msg) row →
              thread_messages w2 !! i = Some row).
Proof.
  intros Hlive Hid w1 w2. subst w1 w2.
  destruct (receiveUserReply_live_effects env this msg sse w Hlive)
    as (w' & later_sent & later_rows & Hrun & _ & Hrows & _).
  rewrite Hrun. simpl. split_and!.
  - by rewrite length_fmap.
  - rewrite Hrows, fmap_app, fmap_cons.
    rewrite lookup_app_r by (by rewrite length_fmap).
    rewrite length_fmap, Nat.sub_diag. simpl.
    rewrite decide_True.
    + eexists. split; [reflexivity|]. unfold inbound_row.
      by destruct (inbound_attachments env _ _ _) as [[? ?] ?].
    + unfold where_dm, inbound_row.
      by destruct (inbound_attachments env _ _ _) as [[? ?] ?].
  - intros i row Hrow Hnot. rewrite list_lookup_fmap, Hrow. simpl.
    rewrite Hid. by rewrite decide_False.
Qed.

Lemma edit_replaces_logged_body_witness :
  let w1 := world_of (receiveUserReply env0 th0 hi false w0) in
  let w2 := world_of (updateChatMessage th0 hi_edited
                        (mkSent "77" "c1" (Text "hi again") []) w1) in
  length (thread_messages w2) = length (thread_messages w1)
  ∧ (∃ row, thread_messages w2 !! length (thread_messages w0) = Some row
            ∧ message_type row = FROM_USER
            ∧ dm_message_id row = msg_id hi
            ∧ body row = msg_content hi_edited
            ∧ thread_message_id row = sent_id (mkSent "77" "c1" (Text "hi again") []))
  ∧ (∀ i row, thread_messages w1 !! i = Some row →
              ¬ where_dm th0 (msg_id hi) row →
              thread_messages w2 !! i = Some row).
Proof.
  refine (edit_replaces_logged_body env0 th0 hi false hi_edited _ w0 _ _).
  - reflexivity.
  - reflexivity.
Defined.

(** ** Outbound replies that go through *)

Section OutboundLive.

Context (env : Env) (this : Thread).

Lemma reply_attachments_fold files logContent l :
  fold_left
    (λ '(files, logContent) attachment,
       (files ++ [attachments_attachmentToFile env attachment],
        logContent +:+ newline +:+ newline +:+ "**Attachment:** "
          +:+ attachments_getUrl env (attachment_id attachment)
                (attachment_filename attachment)))
    l (files, logContent)
  = (files ++ (attachments_attachmentToFile env <$> l),
     logContent +:+ reply_log_links env l).
Proof.
  revert files logContent. induction l as [|a l IH]; intros files logContent.
  - simpl. by rewrite app_nil_r, append_nil_r.
  - simpl fold_left. rewrite IH. rewrite fmap_cons, <-app_assoc. simpl.
    by rewrite !append_assoc.
Qed.

Lemma reply_attachments_parts text l :
  reply_attachments env text l
  = (attachments_attachmentToFile env <$> l, text +:+ reply_log_links env l).
Proof. unfold reply_attachments. by rewrite reply_attachments_fold. Qed.

(** The tail of a reply on a live relay channel only posts a notice. *)
Lemma reply_cancels_close_effects w :
  relay_live w this →
  ∃ w' later_sent later_rows,
    reply_cancels_close env this w = Ok tt w'
    ∧ sent w' = sent w ++ later_sent
    ∧ thread_messages w' = thread_messages w ++ later_rows
    ∧ Forall (λ m, sent_channel m = channel_id this) later_sent
    ∧ Forall (λ row, message_type row = SYSTEM) later_rows.
Proof.
  intros Hlive. destruct (scheduled_close_at this) as [t|] eqn:Ht.
  - rewrite (reply_cancels_close_live env this w t) by done.
    eexists _, [_], [_]. split; [reflexivity|]. simpl.
    split_and!; [done|done| |]; by repeat constructor.
  - unfold reply_cancels_close. rewrite Ht.
    exists w, [], []. by rewrite !app_nil_r.
Qed.

(** [sendCommandToUser] once its DM went out, on a live relay channel. *)
Lemma sendCommandToUser_live moderator message command_name isAnonymous w dm w1 :
  relay_live w this →
  postToUser this message [] w = Ok dm w1 →
  ∃ relayed row,
    sendCommandToUser env this moderator message command_name isAnonymous w
    = reply_cancels_close env this
        (with_thread_messages (λ rows, rows ++ [row])
           (with_sent (λ l, l ++ [dm; relayed]) w))
    ∧ sent_channel relayed = channel_id this
    ∧ sent_files relayed = []
    ∧ (∃ framing, sent_content relayed
                  = Text (framing +:+ command_marker command_name))
    ∧ tm_thread_id row = thread_id this
    ∧ message_type row = TO_USER
    ∧ tm_user_id row = Some (member_id moderator)
    ∧ body row = command_marker command_name
    ∧ is_anonymous row = isAnonymous
    ∧ dm_message_id row = sent_id dm
    ∧ thread_message_id row = sent_id relayed.
Proof.
  intros Hlive Hdm. unfold sendCommandToUser.
  unfold bind at 1, gets.
  unfold bind at 1, try_catch, bind at 1. rewrite Hdm.
  apply postToUser_ok in Hdm as (-> & _). unfold ret at 1.
  unfold bind at 1. rewrite postToThreadChannel_live by done.
  unfold bind at 1, addThreadMessageToDB. unfold bind at 1, gets.
  unfold bind at 1, thread_messages_insert, modify. unfold sse_send, ret at 1.
  eexists _, _. split.
  { unfold with_thread_messages, with_sent. simpl.
    rewrite <-app_assoc. reflexivity. }
  simpl. split_and!; try done.
  unfold command_marker.
  destruct (threadTimestamps env); eexists; by rewrite <-?append_assoc.
Qed.

End OutboundLive.

(** X9.  An outbound reply whose DM went out, on a live relay channel:
    the call resolves; the gateway delivered the DM to the user's DM
    channel and then the relay copy, with the same files, to the relay
    channel; the transcript gained, first, exactly one [TO_USER] row that
    carries the moderator's id, the log name, the anonymity flag and the
    ids of both messages, and whose body is the text followed by one link
    per attachment; whatever follows is posted to the relay channel and
    logged as [SYSTEM]. *)
Theorem reply_delivered_and_logged env this moderator text replyAttachments
    isAnonymous sse w :
  relay_live w this →
  match postToUser this
          (Text ("**" +:+ (reply_usernames env this moderator isAnonymous).1
                   +:+ ":** " +:+ text))
          (attachments_attachmentToFile env <$> replyAttachments) w with
  | Ok dm _ =>
      let r := replyToUser env this moderator text replyAttachments
                 isAnonymous sse w in
      resolved r
      ∧ ∃ relayed row later_sent later_rows,
          sent (world_of r) = sent w ++ dm :: relayed :: later_sent
          ∧ thread_messages (world_of r)
            = thread_messages w ++ row :: later_rows
          ∧ dm_channels w !! user_id this = Some (sent_channel dm)
          ∧ sent_channel relayed = channel_id this
          ∧ sent_files relayed = sent_files dm
          ∧ tm_thread_id row = thread_id this
          ∧ message_type row = TO_USER
          ∧ tm_user_id row = Some (member_id moderator)
          ∧ tm_user_name row = (reply_usernames env this moderator isAnonymous).2
          ∧ body row = text +:+ reply_log_links env replyAttachments
          ∧ is_anonymous row = isAnonymous
          ∧ dm_message_id row = sent_id dm
          ∧ thread_message_id row = sent_id relayed
          ∧ Forall (λ m, sent_channel m = channel_id this) later_sent
          ∧ Forall (λ row, message_type row = SYSTEM) later_rows
  | Throw _ _ => True
  end.
Proof.
  intros Hlive.
  destruct (postToUser _ _ _ w) as [dm w1|] eqn:Hdm; [|done].
  pose proof (replyToUser_live env this moderator text replyAttachments
                isAnonymous sse w dm w1 Hlive) as Hrun.
  unfold reply_dmContent in Hrun.
  rewrite reply_attachments_parts in Hrun. specialize (Hrun Hdm).
  apply postToUser_ok in Hdm as (-> & _ & Hfiles & Hch).
  intros r. subst r. rewrite Hrun.
  set (w2 := outbound_logged env this moderator text replyAttachments
               isAnonymous sse dm w).
  destruct (reply_cancels_close_effects env this w2)
    as (w' & later_sent & later_rows & -> & Hs & Hr & Hls & Hlr); [done|].
  split; [done|].
  exists (outbound_relayed env this moderator text replyAttachments isAnonymous w),
    (outbound_row env this moderator text replyAttachments isAnonymous dm w),
    later_sent, later_rows.
  simpl. rewrite Hs, Hr. subst w2. unfold outbound_logged. simpl.
  rewrite <-!app_assoc. simpl.
  split; [by destruct sse|]. split; [by destruct sse|].
  unfold outbound_row, outbound_relayed. rewrite reply_attachments_parts. simpl.
  by split_and!.
Qed.

(** Bob answers with one attachment. *)
Lemma reply_delivered_and_logged_witness :
  relay_live w0 th0
  ∧ match postToUser th0
            (Text ("**" +:+ (reply_usernames env0 th0 bob false).1
                     +:+ ":** " +:+ "hello"))
            (attachments_attachmentToFile env0 <$> one_file) w0 with
    | Ok dm _ =>
        let r := replyToUser env0 th0 bob "hello" one_file false true w0 in
        resolved r
        ∧ ∃ relayed row later_sent later_rows,
            sent (world_of r) = sent w0 ++ dm :: relayed :: later_sent
            ∧ thread_messages (world_of r)
              = thread_messages w0 ++ row :: later_rows
            ∧ dm_channels w0 !! user_id th0 = Some (sent_channel dm)
            ∧ sent_channel relayed = channel_id th0
            ∧ sent_files relayed = sent_files dm
            ∧ tm_thread_id row = thread_id th0
            ∧ message_type row = TO_USER
            ∧ tm_user_id row = Some (member_id bob)
            ∧ tm_user_name row = (reply_usernames env0 th0 bob false).2
            ∧ body row = "hello" +:+ reply_log_links env0 one_file
            ∧ is_anonymous row = false
            ∧ dm_message_id row = sent_id dm
            ∧ thread_message_id row = sent_id relayed
            ∧ Forall (λ m, sent_channel m = channel_id th0) later_sent
            ∧ Forall (λ row, message_type row = SYSTEM) later_rows
    | Throw _ _ => True
    end.
Proof.
  split; [reflexivity|].
  refine (reply_delivered_and_logged env0 th0 bob "hello" one_file false true w0 _).
  reflexivity.
Defined.

(** X10.  [sendCommandToUser] on a live relay channel.  When the DM goes
    out, the user receives the prepared message as given, the relay
    channel and the transcript only get the marker
    [[Command Help: name]]: one relay message without files and one
    [TO_USER] row pairing both message ids.  When the DM fails nothing is
    relayed or logged but the system notice that reports the failure. *)
Theorem command_help_relays_marker_only env this moderator message
    command_name isAnonymous w :
  relay_live w this →
  let r := sendCommandToUser env this moderator message command_name
             isAnonymous w in
  resolved r
  ∧ match postToUser this message [] w with
    | Ok dm _ =>
        ∃ relayed row later_sent later_rows,
          sent (world_of r) = sent w ++ dm :: relayed :: later_sent
          ∧ thread_messages (world_of r)
            = thread_messages w ++ row :: later_rows
          ∧ sent_content dm = message
          ∧ dm_channels w !! user_id this = Some (sent_channel dm)
          ∧ sent_channel relayed = channel_id this
          ∧ sent_files relayed = []
          ∧ (∃ framing, sent_content relayed
                        = Text (framing +:+ command_marker command_name))
          ∧ message_type row = TO_USER
          ∧ tm_user_id row = Some (member_id moderator)
          ∧ body row = command_marker command_name
          ∧ dm_message_id row = sent_id dm
          ∧ thread_message_id row = sent_id relayed
          ∧ Forall (λ m, sent_channel m = channel_id this) later_sent
          ∧ Forall (λ row, message_type row = SYSTEM) later_rows
    | Throw e _ =>
        sent (world_of r) = sent w ++ [notice w this (dm_failure_text e)]
        ∧ thread_messages (world_of r)
          = thread_messages w ++ [notice_row w this (dm_failure_text e)]
    end.
Proof.
  intros Hlive r.
  destruct (postToUser this message [] w) as [dm w1|e w1] eqn:Hdm.
  - destruct (sendCommandToUser_live env this moderator message command_name
                isAnonymous w dm w1 Hlive Hdm)
      as (relayed & row & Hrun & Hch & Hf & Hc & _ & Hty & Hu & Hb & _ & Hd & Ht).
    subst r. rewrite Hrun.
    apply postToUser_ok in Hdm as (_ & Hcontent & _ & Hdmch).
    match goal with |- context [reply_cancels_close env this ?w2] =>
      destruct (reply_cancels_close_effects env this w2)
        as (w' & later_sent & later_rows & -> & Hs & Hr & Hls & Hlr); [done|]
    end.
    split; [done|].
    exists relayed, row, later_sent, later_rows.
    simpl. rewrite Hs, Hr. simpl. rewrite <-!app_assoc. simpl.
    by split_and!.
  - assert (w1 = w) as -> by (by eapply postToUser_throw).
    assert (Hr : r = (postSystemMessage env this (dm_failure_text e) [] >> ret tt)%async w).
    { subst r. unfold sendCommandToUser, bind at 1, gets.
      unfold bind at 1, try_catch, bind at 1. rewrite Hdm.
      unfold dm_failure_text, bind, ret.
      by destruct (postSystemMessage env this _ [] w). }
    rewrite Hr. unfold bind, ret. rewrite postSystemMessage_live by done.
    done.
Qed.

(** Bob sends the help of a command. *)
Lemma command_help_relays_marker_only_witness :
  relay_live w0 th0
  ∧ let r := sendCommandToUser env0 th0 bob (Rich "How to appeal" true)
               "appeal" false w0 in
    resolved r
    ∧ match postToUser th0 (Rich "How to appeal" true) [] w0 with
      | Ok dm _ =>
          ∃ relayed row later_sent later_rows,
            sent (world_of r) = sent w0 ++ dm :: relayed :: later_sent
            ∧ thread_messages (world_of r)
              = thread_messages w0 ++ row :: later_rows
            ∧ sent_content dm = Rich "How to appeal" true
            ∧ dm_channels w0 !! user_id th0 = Some (sent_channel dm)
            ∧ sent_channel relayed = channel_id th0
            ∧ sent_files relayed = []
            ∧ (∃ framing, sent_content relayed
                          = Text (framing +:+ command_marker "appeal"))
            ∧ message_type row = TO_USER
            ∧ tm_user_id row = Some (member_id bob)
            ∧ body row = command_marker "appeal"
            ∧ dm_message_id row = sent_id dm
            ∧ thread_message_id row = sent_id relayed
            ∧ Forall (λ m, sent_channel m = channel_id th0) later_sent
            ∧ Forall (λ row, message_type row = SYSTEM) later_rows
      | Throw e _ =>
          sent (world_of r) = sent w0 ++ [notice w0 th0 (dm_failure_text e)]
          ∧ thread_messages (world_of r)
            = thread_messages w0 ++ [notice_row w0 th0 (dm_failure_text e)]
      end.
Proof.
  split; [reflexivity|].
  refine (command_help_relays_marker_only env0 th0 bob (Rich "How to appeal" true)
            "appeal" false w0 _).
  reflexivity.
Defined.

(** ** What a reply shows outside the relay channel *)

Section Elsewhere.

Context (env : Env) (this : Thread).

Lemma sent_elsewhere_relay w w' l :
  sent w' = sent w ++ l →
  Forall (λ m, sent_channel m = channel_id this) l →
  sent_elsewhere this w' = sent_elsewhere this w.
Proof.
  intros Hs Hl. unfold sent_elsewhere. rewrite Hs, filter_app. clear Hs.
  assert (filter (λ m, sent_channel m ≠ channel_id this) l = []) as ->;
    [|by rewrite app_nil_r].
  induction Hl as [|m l Hm _ IH]; [done|].
  rewrite filter_cons. destruct (decide (sent_channel m ≠ channel_id this)); done.
Qed.

Lemma sent_elsewhere_postSystemMessage text w :
  sent_elsewhere this (world_of (postSystemMessage env this text [] w))
  = sent_elsewhere this w.
Proof.
  destruct (postSystemMessage_effects env this text w) as [Hs _].
  eapply sent_elsewhere_relay; [exact Hs|].
  unfold posted_notice. destruct (channels w !! channel_id this) as [[|]|];
    by repeat constructor.
Qed.

(** Outside the relay channel, a reply delivers what its DM delivers. *)
Lemma replyToUser_sent_elsewhere moderator text replyAttachments isAnonymous
    sse w :
  sent_elsewhere this
    (world_of (replyToUser env this moderator text replyAttachments
                 isAnonymous sse w))
  = sent_elsewhere this
      (world_of (postToUser this
                   (Text (reply_dmContent env this moderator text isAnonymous))
                   (reply_attachments env text replyAttachments).1 w)).
Proof.
  destruct (postToUser this _ _ w) as [dm w1|e w1] eqn:Hdm.
  - destruct (channels w !! channel_id this) as [[|c m]|] eqn:Hch.
    + rewrite (replyToUser_live env this moderator text replyAttachments
                 isAnonymous sse w dm w1) by done.
      apply postToUser_ok in Hdm as (-> & _).
      match goal with |- context [reply_cancels_close env this ?w2] =>
        destruct (reply_cancels_close_effects env this w2)
          as (w' & later_sent & later_rows & -> & Hs & _ & Hls & _); [done|]
      end.
      simpl. rewrite (sent_elsewhere_relay _ _ _ Hs Hls).
      eapply (sent_elsewhere_relay (with_sent (λ l, l ++ [dm]) w) _
                [outbound_relayed env this moderator text replyAttachments
                   isAnonymous w]).
      * unfold outbound_logged. simpl. by rewrite <-app_assoc.
      * by repeat constructor.
    + destruct (decide (c = unknown_channel)) as [->|Hc].
      * rewrite replyToUser_relay_gone by (by unfold relay_gone; rewrite Hch).
        rewrite Hdm. by apply postToUser_ok in Hdm as (-> & _).
      * unfold replyToUser, bind at 1, gets.
        destruct (reply_attachments env text replyAttachments) as [files logContent].
        simpl in Hdm. unfold bind at 1, try_catch, bind at 1. rewrite Hdm.
        apply postToUser_ok in Hdm as (-> & _). unfold ret at 1.
        unfold bind at 1.
        by rewrite (postToThreadChannel_faulty env this _ _ _ c m).
    + rewrite replyToUser_relay_gone by (by unfold relay_gone; rewrite Hch).
      rewrite Hdm. by apply postToUser_ok in Hdm as (-> & _).
  - assert (w1 = w) as -> by (by eapply postToUser_throw).
    replace (world_of (replyToUser env this moderator text replyAttachments
                         isAnonymous sse w))
      with (world_of (postSystemMessage env this (dm_failure_text e) [] w)).
    { apply sent_elsewhere_postSystemMessage. }
    unfold replyToUser, bind at 1, gets.
    destruct (reply_attachments env text replyAttachments) as [files logContent].
    simpl in Hdm. unfold bind at 1, try_catch, bind at 1. rewrite Hdm.
    unfold dm_failure_text, bind, ret.
    by destruct (postSystemMessage env this _ [] w).
Qed.

End Elsewhere.

(** X11.  An anonymous reply does not reveal who wrote it.  Two operators
    with the same main role in this thread who send the same text and
    attachments anonymously leave, outside the relay channel, exactly the
    same messages: the user cannot tell the replies apart, whatever the
    operators' ids, names and nicknames, and whatever the state of the
    channels. *)
Theorem anonymous_reply_hides_moderator env this moderator moderator' text
    replyAttachments sse sse' w :
  getMainRole env this moderator = getMainRole env this moderator' →
  sent_elsewhere this
    (world_of (replyToUser env this moderator text replyAttachments true sse w))
  = sent_elsewhere this
      (world_of (replyToUser env this moderator' text replyAttachments true
                   sse' w)).
Proof.
  intros Hrole. rewrite !replyToUser_sent_elsewhere.
  unfold reply_dmContent, reply_usernames. by rewrite Hrole.
Qed.

(** Bob and Carol, neither with a role, answer anonymously. *)
Lemma anonymous_reply_hides_moderator_witness :
  getMainRole env0 th0 bob = getMainRole env0 th0 carol
  ∧ sent_elsewhere th0
      (world_of (replyToUser env0 th0 bob "hello" one_file true true w0))
    = sent_elsewhere th0
        (world_of (replyToUser env0 th0 carol "hello" one_file true false w0)).
Proof.
  split; [reflexivity|].
  refine (anonymous_reply_hides_moderator env0 th0 bob carol "hello" one_file
            true false w0 _).
  reflexivity.
Defined.

(** ** Role overrides and the [role] command *)

Section RoleOverrides.

Context (env : Env).

Lemma getStaffRoleOverride_set overrides row userId :
  getStaffRoleOverride (set_staff_role_overrides (Some overrides) row) userId
  = overrides !! userId.
Proof. reflexivity. Qed.

Lemma setStaffRoleOverride_throw this userId roleId w :
  persisted w this = None →
  world_of (setStaffRoleOverride this userId roleId w) = w.
Proof.
  unfold persisted. intros Hrow.
  unfold setStaffRoleOverride, bind, threads_first, gets, row_or_throw.
  by rewrite Hrow.
Qed.

Lemma deleteStaffRoleOverride_throw this userId w :
  persisted w this = None →
  world_of (deleteStaffRoleOverride this userId w) = w.
Proof.
  unfold persisted. intros Hrow.
  unfold deleteStaffRoleOverride, bind, threads_first, gets, row_or_throw.
  by rewrite Hrow.
Qed.

Lemma override_scope_refl this userId w : override_scope this userId w w.
Proof. unfold override_scope. by destruct w. Qed.

Lemma override_scope_update this userId w row overrides :
  persisted w this = Some row →
  (∀ u, u ≠ userId → overrides !! u = getStaffRoleOverride row u) →
  override_scope this userId w
    (with_threads
       (alter (set_staff_role_overrides (Some overrides)) (thread_id this)) w).
Proof.
  unfold persisted. intros Hrow Hsame. unfold override_scope. split_and!.
  - by destruct w.
  - intros other Hne. simpl. by rewrite lookup_alter_ne.
  - simpl. by rewrite lookup_alter_eq, Hrow.
  - intros u Hu. unfold stored_override. simpl.
    rewrite lookup_alter_eq, Hrow. simpl. by apply Hsame.
Qed.

Lemma setStaffRoleOverride_scope this userId roleId w :
  override_scope this userId w
    (world_of (setStaffRoleOverride this userId roleId w)).
Proof.
  destruct (persisted w this) as [row|] eqn:Hrow.
  - unfold persisted in Hrow.
    unfold setStaffRoleOverride, bind, threads_first, gets, row_or_throw.
    rewrite Hrow. unfold ret, threads_update, modify. simpl.
    apply (override_scope_update _ _ _ row); [done|].
    intros u Hu. rewrite lookup_insert_ne by done.
    unfold getStaffRoleOverride. by destruct (staff_role_overrides row).
  - rewrite setStaffRoleOverride_throw by done. apply override_scope_refl.
Qed.

Lemma deleteStaffRoleOverride_scope this userId w :
  override_scope this userId w
    (world_of (deleteStaffRoleOverride this userId w)).
Proof.
  destruct (persisted w this) as [row|] eqn:Hrow.
  - pose proof Hrow as Hrow'. unfold persisted in Hrow.
    unfold deleteStaffRoleOverride, bind, threads_first, gets, row_or_throw.
    rewrite Hrow. unfold ret at 1.
    destruct (staff_role_overrides row) as [overrides|] eqn:Ho;
      [|apply override_scope_refl].
    destruct (Js.truthy_opt (overrides !! userId)); [|apply override_scope_refl].
    unfold threads_update, modify. simpl.
    apply (override_scope_update _ _ _ row); [done|].
    intros u Hu. rewrite lookup_delete_ne by done.
    unfold getStaffRoleOverride. by rewrite Ho.
  - rewrite deleteStaffRoleOverride_throw by done. apply override_scope_refl.
Qed.

End RoleOverrides.

(** X12.  The override an operator stores for a thread decides the role
    the thread shows for that operator.  After [setStaffRoleOverride] the
    thread read again from the store gives, as main role, the guild role
    with the stored id, and the default main role when the guild has no
    role with that id; an anonymous reply then carries that role's name.
    After [deleteStaffRoleOverride] the main role is the default one
    again. *)
Theorem override_decides_main_role env this member roleId roles w row :
  persisted w this = Some row →
  Js.truthy roleId = true →
  member_roles member = Some roles →
  ∃ w1 row1 w2 row2,
    setStaffRoleOverride this (member_id member) roleId w = Ok tt w1
    ∧ persisted w1 this = Some row1
    ∧ getMainRole env row1 member
      = match roles !! roleId with
        | Some role => Some role
        | None => utils_getMainRole env member
        end
    ∧ (∀ role text, roles !! roleId = Some role →
         reply_dmContent env row1 member text true
         = "**" +:+ role_name role +:+ ":** " +:+ text)
    ∧ deleteStaffRoleOverride this (member_id member) w1 = Ok tt w2
    ∧ persisted w2 this = Some row2
    ∧ getMainRole env row2 member = utils_getMainRole env member.
Proof.
  intros Hrow Hid Hroles.
  destruct (setStaffRoleOverride_run this (member_id member) roleId w row Hrow)
    as (w1 & Hset & Hrow1).
  destruct (deleteStaffRoleOverride_run this (member_id member) w1 _ Hrow1)
    as (w2 & Hdel & Hrow2).
  eexists w1, _, w2, _.
  split; [exact Hset|]. split; [exact Hrow1|].
  assert (Hmain :
    getMainRole env
      (set_staff_role_overrides
         (Some (<[member_id member := roleId]>
                  (default ∅ (staff_role_overrides row)))) row) member
    = match roles !! roleId with
      | Some role => Some role
      | None => utils_getMainRole env member
      end).
  { unfold getMainRole. rewrite getStaffRoleOverride_set, lookup_insert_eq.
    simpl. rewrite Hid, Hroles. by destruct (roles !! roleId). }
  split; [exact Hmain|]. split.
  { intros role text Hrole. unfold reply_dmContent, reply_usernames.
    rewrite Hmain, Hrole. done. }
  split; [exact Hdel|]. split; [exact Hrow2|].
  simpl. rewrite lookup_insert_eq. simpl. rewrite Hid.
  unfold getMainRole. rewrite getStaffRoleOverride_set, lookup_delete_eq.
  done.
Qed.

(** Bob takes the role 501 of his guild in thread 1. *)
Lemma override_decides_main_role_witness :
  ∃ w1 row1 w2 row2,
    setStaffRoleOverride th0 (member_id bob_in_guild) "501" w0 = Ok tt w1
    ∧ persisted w1 th0 = Some row1
    ∧ getMainRole env0 row1 bob_in_guild
      = match guild_roles0 !! "501" with
        | Some role => Some role
        | None => utils_getMainRole env0 bob_in_guild
        end
    ∧ (∀ role text,
         guild_roles0 !! "501" = Some role →
         reply_dmContent env0 row1 bob_in_guild text true
         = "**" +:+ role_name role +:+ ":** " +:+ text)
    ∧ deleteStaffRoleOverride th0 (member_id bob_in_guild) w1 = Ok tt w2
    ∧ persisted w2 th0 = Some row2
    ∧ getMainRole env0 row2 bob_in_guild = utils_getMainRole env0 bob_in_guild.
Proof.
  refine (override_decides_main_role env0 th0 bob_in_guild "501" guild_roles0
            w0 th0 _ _ _).
  - reflexivity.
  - reflexivity.
  - reflexivity.
Defined.

(** X13.  All the handler of the [role] command does itself, before it
    hands its answer to [postSystemMessageWithFallback], is to write the
    caller's own entry of the thread's [staff_role_overrides] column.
    Whatever the arguments, either the handler rejects with the world as
    it was, or it makes its one call of the helper in a world where
    transcript, gateway, channels and timers are as before, the rows of
    other threads are as before, the other columns of the thread's row
    are as before, and so is the override stored for any other operator.
    For a caller who gives no argument, or who holds neither the
    configured admin role nor the role 523021576128692239, or for any
    caller when no admin role is configured, the helper is called in the
    unchanged world, with the caller's current role as the answer. *)
Theorem role_command_scope toLowerCase role_toString
    postSystemMessageWithFallback env inboxAdminRoleId msg args thread w :
  let r := role_command toLowerCase role_toString
             postSystemMessageWithFallback env inboxAdminRoleId msg args
             (Some thread) w in
  ∃ w1,
    w1 = with_threads (λ _, threads w1) w
    ∧ (∀ other, other ≠ thread_id thread →
         threads w1 !! other = threads w !! other)
    ∧ other_columns <$> threads w1 !! thread_id thread
      = other_columns <$> threads w !! thread_id thread
    ∧ (∀ u, u ≠ member_id (cmd_member msg) →
         stored_override w1 thread u = stored_override w thread u)
    ∧ ((w1 = w ∧ ∃ e, r = Throw e w)
       ∨ ∃ text, r = postSystemMessageWithFallback msg thread text w1)
    ∧ (args = [] ∨ inboxAdminRoleId = None
       ∨ ((Js.show_opt inboxAdminRoleId ∉ cmd_member_roles msg)
          ∧ (fixed_admin_role ∉ cmd_member_roles msg)) →
       w1 = w
       ∧ r = postSystemMessageWithFallback msg thread
               ("Your current role for this thread is **"
                  +:+ current_role_text role_toString
                        (getMainRole env thread (cmd_member msg))
                  +:+ "**!") w).
Proof.
  intros r.
  set (author := member_id (cmd_member msg)).
  assert (Hrun : ∃ w1,
    override_scope thread author w w1
    ∧ ((w1 = w ∧ ∃ e, r = Throw e w)
       ∨ ∃ text, r = postSystemMessageWithFallback msg thread text w1)
    ∧ (role_command_allowed inboxAdminRoleId msg args = false →
       w1 = w
       ∧ r = postSystemMessageWithFallback msg thread
               ("Your current role for this thread is **"
                  +:+ current_role_text role_toString
                        (getMainRole env thread (cmd_member msg))
                  +:+ "**!") w)).
  { assert (Hstay : ∀ text,
      ∃ w1, override_scope thread author w w1
            ∧ ((w1 = w ∧ ∃ e, postSystemMessageWithFallback msg thread text w
                              = Throw e w)
               ∨ ∃ text', postSystemMessageWithFallback msg thread text w
                          = postSystemMessageWithFallback msg thread text' w1)).
    { intros text. exists w. split; [apply override_scope_refl|].
      right. by exists text. }
    assert (Hwrite : ∀ (m : M unit) text,
      override_scope thread author w (world_of (m w)) →
      (∀ e w', m w = Throw e w' → w' = w) →
      ∃ w1, override_scope thread author w w1
            ∧ ((w1 = w
                ∧ ∃ e, bind m (λ _, postSystemMessageWithFallback msg thread text) w
                       = Throw e w)
               ∨ ∃ text', bind m (λ _, postSystemMessageWithFallback msg thread text) w
                          = postSystemMessageWithFallback msg thread text' w1)).
    { intros m text Hscope Hthrow. unfold bind.
      destruct (m w) as [[] w1|e w1] eqn:Hm.
      - exists w1. split; [done|]. right. by exists text.
      - rewrite (Hthrow e w1 eq_refl). exists w.
        split; [apply override_scope_refl|]. left. split; [done|]. by exists e. }
    assert (Hset_throw : ∀ roleId e w',
      setStaffRoleOverride thread author roleId w = Throw e w' → w' = w).
    { intros roleId e w'.
      unfold setStaffRoleOverride, bind, threads_first, gets, row_or_throw.
      destruct (threads w !! thread_id thread); [done|].
      unfold throw. by intros [= _ <-]. }
    assert (Hdel_throw : ∀ e w',
      deleteStaffRoleOverride thread author w = Throw e w' → w' = w).
    { intros e w'.
      unfold deleteStaffRoleOverride, bind, threads_first, gets, row_or_throw.
      destruct (threads w !! thread_id thread) as [row|].
      - unfold ret at 1. destruct (staff_role_overrides row) as [overrides|]; [|done].
        by destruct (Js.truthy_opt (overrides !! author)).
      - unfold throw. by intros [= _ <-]. }
    subst r. unfold role_command.
    destruct (role_command_allowed inboxAdminRoleId msg args) eqn:Hallowed;
      simpl negb; cbv iota.
    - assert (Hlift : ∀ m : M unit,
        (∃ w1, override_scope thread author w w1
               ∧ ((w1 = w ∧ ∃ e, m w = Throw e w)
                  ∨ ∃ text, m w = postSystemMessageWithFallback msg thread text w1)) →
        ∃ w1, override_scope thread author w w1
              ∧ ((w1 = w ∧ ∃ e, m w = Throw e w)
                 ∨ ∃ text, m w = postSystemMessageWithFallback msg thread text w1)
              ∧ (true = false →
                 w1 = w
                 ∧ m w = postSystemMessageWithFallback msg thread
                           ("Your current role for this thread is **"
                              +:+ current_role_text role_toString
                                    (getMainRole env thread (cmd_member msg))
                              +:+ "**!") w)).
      { intros m (w1 & Hscope & Hr). exists w1. by split_and!. }
      lazymatch goal with
      | |- ∃ w1, _ ∧ (_ ∨ (∃ text, ?m w = _)) ∧ _ => apply (Hlift m)
      end.
      cbv zeta.
      destruct (Js.truthy_opt (getStaffRoleOverride thread
                                 (member_id (cmd_member msg))));
        simpl negb; cbv iota.
      all: destruct (decide (toLowerCase (Js.show_opt (head args)) = "reset"));
        [|destruct (find_role _ _ _) as [role|]].
      all: first [ apply Hstay
                 | apply Hwrite;
                   [apply deleteStaffRoleOverride_scope|apply Hdel_throw]
                 | apply Hwrite;
                   [apply setStaffRoleOverride_scope|apply Hset_throw] ].
    - exists w. split; [apply override_scope_refl|]. split; [|done].
      right. by eexists. }
  destruct Hrun as (w1 & (H1 & H2 & H3 & H4) & Hr & Hno).
  exists w1. do 4 (split; [done|]). split; [exact Hr|].
  intros Hargs. apply Hno.
  unfold role_command_allowed. destruct Hargs as [->|[->|[Ha Hf]]].
  - done.
  - by rewrite andb_false_r.
  - unfold Js.includes. rewrite !bool_decide_eq_false_2 by done.
    by rewrite andb_false_r.
Qed.

(** X14.  An operator who may use the [role] command and holds no
    override in the thread object, and whose arguments (the first one not
    lower-casing to "reset") name a role of the guild by id or by a
    prefix of its lower-cased name: the handler stores the id of the
    first such role as the operator's override and then hands the helper
    the answer that names that role. *)
Theorem role_command_sets_override toLowerCase role_toString
    postSystemMessageWithFallback env inboxAdminRoleId msg args thread role
    w row :
  persisted w thread = Some row →
  role_command_allowed inboxAdminRoleId msg args = true →
  Js.truthy_opt (getStaffRoleOverride thread (member_id (cmd_member msg))) = false →
  toLowerCase (Js.show_opt (head args)) ≠ "reset" →
  find_role toLowerCase (cmd_guild_roles msg) (toLowerCase (Js.join " " args))
  = Some role →
  ∃ w1,
    role_command toLowerCase role_toString postSystemMessageWithFallback env
      inboxAdminRoleId msg args (Some thread) w
    = postSystemMessageWithFallback msg thread
        ("Your role in this thread will now appear as **"
           +:+ role_name role +:+ "**.") w1
    ∧ stored_override w1 thread (member_id (cmd_member msg))
      = Some (role_id role)
    ∧ (∀ u, u ≠ member_id (cmd_member msg) →
         stored_override w1 thread u = stored_override w thread u)
    ∧ role ∈ cmd_guild_roles msg
    ∧ (role_id role = toLowerCase (Js.join " " args)
       ∨ startsWith (toLowerCase (role_name role))
           (toLowerCase (Js.join " " args)) = true).
Proof.
  intros Hrow Hallowed Hnone Hreset Hfind.
  destruct (setStaffRoleOverride_run thread (member_id (cmd_member msg))
              (role_id role) w row Hrow) as (w1 & Hset & Hrow1).
  pose proof (setStaffRoleOverride_scope thread (member_id (cmd_member msg))
                (role_id role) w) as (_ & _ & _ & Hothers).
  rewrite Hset in Hothers. simpl in Hothers.
  exists w1. unfold role_command.
  rewrite Hallowed, Hnone, Hfind. simpl. rewrite decide_False by done.
  unfold bind. rewrite Hset. split; [done|]. split.
  { unfold stored_override. unfold persisted in Hrow1. rewrite Hrow1.
    by rewrite getStaffRoleOverride_set, lookup_insert_eq. }
  split; [exact Hothers|].
  unfold find_role in Hfind. apply head_Some_elem_of in Hfind.
  apply list_elem_of_filter in Hfind as [Hmatch Hin]. done.
Qed.

(** Dana asks for the trainee role by a prefix of its name. *)
Lemma role_command_sets_override_witness :
  ∃ w1,
    role_command toLowerCase0 role_toString0 post_answer0 env0 (Some "700")
      admin_message ["MOD"; "t"] (Some th0) w0
    = post_answer0 admin_message th0
        ("Your role in this thread will now appear as **"
           +:+ role_name (mkRole "501" "Mod Trainee") +:+ "**.") w1
    ∧ stored_override w1 th0 (member_id (cmd_member admin_message))
      = Some (role_id (mkRole "501" "Mod Trainee"))
    ∧ (∀ u, u ≠ member_id (cmd_member admin_message) →
         stored_override w1 th0 u = stored_override w0 th0 u)
    ∧ mkRole "501" "Mod Trainee" ∈ cmd_guild_roles admin_message
    ∧ (role_id (mkRole "501" "Mod Trainee")
       = toLowerCase0 (Js.join " " ["MOD"; "t"])
       ∨ startsWith (toLowerCase0 (role_name (mkRole "501" "Mod Trainee")))
           (toLowerCase0 (Js.join " " ["MOD"; "t"])) = true).
Proof.
  refine (role_command_sets_override toLowerCase0 role_toString0 post_answer0
            env0 (Some "700") admin_message ["MOD"; "t"] th0
            (mkRole "501" "Mod Trainee") w0 th0 _ _ _ _ _).
  - reflexivity.
  - reflexivity.
  - reflexivity.
  - discriminate.
  - reflexivity.
Defined.

(** X15.  The [role] command toggles: an operator who may use it and
    already holds an override in the thread (object and store) loses the
    override whenever the first argument lower-cases to "reset" or the
    arguments name a role of the guild.  Naming another role does not
    switch to it: no override is stored for the operator when the helper
    is called, and the answer handed to it says that the role has been
    reset. *)
Theorem role_command_drops_override toLowerCase role_toString
    postSystemMessageWithFallback env inboxAdminRoleId msg args thread w row :
  persisted w thread = Some row →
  role_command_allowed inboxAdminRoleId msg args = true →
  Js.truthy_opt (getStaffRoleOverride thread (member_id (cmd_member msg))) = true →
  (toLowerCase (Js.show_opt (head args)) = "reset"
   ∨ is_Some (find_role toLowerCase (cmd_guild_roles msg)
                (toLowerCase (Js.join " " args)))) →
  ∃ w1,
    role_command toLowerCase role_toString postSystemMessageWithFallback env
      inboxAdminRoleId msg args (Some thread) w
    = postSystemMessageWithFallback msg thread
        "Your role in this thread has been reset to default." w1
    ∧ Js.truthy_opt (stored_override w1 thread (member_id (cmd_member msg)))
      = false
    ∧ (∀ u, u ≠ member_id (cmd_member msg) →
         stored_override w1 thread u = stored_override w thread u).
Proof.
  intros Hrow Hallowed Hhas Hargs.
  destruct (deleteStaffRoleOverride_run thread (member_id (cmd_member msg))
              w row Hrow) as (w1 & Hdel & Hrow1).
  pose proof (deleteStaffRoleOverride_scope thread (member_id (cmd_member msg)) w)
    as (_ & _ & _ & Hothers).
  rewrite Hdel in Hothers. simpl in Hothers.
  exists w1. split; [|split; [|exact Hothers]].
  - unfold role_command. rewrite Hallowed, Hhas. simpl.
    destruct (decide (toLowerCase (Js.show_opt (head args)) = "reset"))
      as [|Hne].
    + unfold bind. by rewrite Hdel.
    + destruct Hargs as [|[role Hrole]]; [done|]. rewrite Hrole.
      unfold bind. by rewrite Hdel.
  - unfold stored_override. unfold persisted in Hrow1. rewrite Hrow1.
    unfold getStaffRoleOverride.
    destruct (staff_role_overrides row) as [overrides|] eqn:Ho; [|by rewrite Ho].
    destruct (Js.truthy_opt (overrides !! member_id (cmd_member msg))) eqn:Ht.
    + simpl. by rewrite lookup_delete_eq.
    + by rewrite Ho.
Qed.

(** Dana, shown as Moderator, asks for the trainee role. *)
Lemma role_command_drops_override_witness :
  ∃ w1,
    role_command toLowerCase0 role_toString0 post_answer0 env0 (Some "700")
      admin_message ["501"] (Some th_dana) w_dana
    = post_answer0 admin_message th_dana
        "Your role in this thread has been reset to default." w1
    ∧ Js.truthy_opt (stored_override w1 th_dana (member_id (cmd_member admin_message)))
      = false
    ∧ (∀ u, u ≠ member_id (cmd_member admin_message) →
         stored_override w1 th_dana u = stored_override w_dana th_dana u).
Proof.
  refine (role_command_drops_override toLowerCase0 role_toString0 post_answer0
            env0 (Some "700") admin_message ["501"] th_dana w_dana th_dana
            _ _ _ _).
  - reflexivity.
  - reflexivity.
  - reflexivity.
  - right. by eexists.
Defined.

(** ** Closing in the name of the one who scheduled it *)

Section ScheduledClose.

Context (env : Env) (this : Thread).

Lemma close_live_run author silent sse w row a :
  persisted w this = Some row →
  relay_live w this →
  recorded_author author row = Some a →
  close env this author silent sse w
  = Ok tt
      (with_channels (delete (channel_id this))
         (closed_world this sse a row (after_closing_notice env this silent w))).
Proof.
  intros Hrow Hlive Ha.
  rewrite close_notice_step
    by (by intros _; unfold relay_answers; rewrite Hlive).
  pose proof (after_closing_notice_persisted env this silent w row Hrow) as Hread.
  rewrite Hlive in Hread.
  assert (persisted (after_closing_notice env this silent w) this = Some row)
    as Hread' by (by destruct silent).
  rewrite (close_silent_run _ this author sse _ row a Hread' Ha).
  by rewrite after_closing_notice_channels, Hlive.
Qed.

Lemma close_live_unscheduled silent sse w row :
  persisted w this = Some row →
  relay_live w this →
  scheduled_close_name row = None →
  ∃ e, close env this None silent sse w
       = Throw e (after_closing_notice env this silent w).
Proof.
  intros Hrow Hlive Hname.
  rewrite close_notice_step
    by (by intros _; unfold relay_answers; rewrite Hlive).
  pose proof (after_closing_notice_persisted env this silent w row Hrow) as Hread.
  rewrite Hlive in Hread.
  assert (persisted (after_closing_notice env this silent w) this = Some row)
    as Hread' by (by destruct silent).
  unfold persisted in Hread'.
  unfold close_with. simpl. unfold bind at 1. unfold ret at 1.
  unfold bind at 1. unfold bind at 1, threads_first, gets.
  rewrite Hread'. unfold bind at 1, row_or_throw, ret at 1. rewrite Hname.
  by eexists.
Qed.

End ScheduledClose.

(** X16.  A scheduled close that comes due closes the thread in the name
    of whoever scheduled it.  After [scheduleClose(time, user)], a
    [close] without an author on a live relay channel resolves, deletes
    the relay channel and stores the thread as [CLOSED] with the id of
    [user] and the name [username#discriminator] exactly as
    [scheduleClose] wrote it, also when the name itself holds a ["#"];
    the stored close time is the time of the call, not the scheduled
    one. *)
Theorem scheduled_close_records_scheduler env this time user silent sse w row :
  persisted w this = Some row →
  relay_live w this →
  ∃ w1 w2 row',
    scheduleClose this time user w = Ok tt w1
    ∧ close env this None silent sse w1 = Ok tt w2
    ∧ persisted w2 this = Some row'
    ∧ status row' = CLOSED
    ∧ scheduled_close_id row' = Some (id user)
    ∧ scheduled_close_name row'
      = Some (username user +:+ "#" +:+ discriminator user)
    ∧ scheduled_close_at row' = Some (clock w)
    ∧ channels w2 !! channel_id this = None.
Proof.
  intros Hrow Hlive.
  set (name := username user +:+ "#" +:+ discriminator user).
  set (row1 := set_scheduled_close (Some time) (Some (id user)) (Some name) row).
  set (w1 := with_threads (alter (set_scheduled_close (Some time) (Some (id user))
                                    (Some name)) (thread_id this)) w).
  assert (Hrow1 : persisted w1 this = Some row1).
  { unfold persisted in *. subst w1. simpl. by rewrite lookup_alter_eq, Hrow. }
  assert (Hlive1 : relay_live w1 this) by done.
  set (a := mkAuthor (Some (id user))
              (Js.join "#" (Js.slice_init (Js.split_hash name)))
              (Js.slice_last (Js.split_hash name))).
  assert (Ha : recorded_author None row1 = Some a) by done.
  eexists w1, _, _. split; [reflexivity|].
  split; [exact (close_live_run env this None silent sse w1 row1 a Hrow1 Hlive1 Ha)|].
  split.
  { unfold persisted. simpl. rewrite lookup_alter_eq.
    pose proof (after_closing_notice_persisted env this silent w1 row1 Hrow1) as Hread.
    rewrite Hlive1 in Hread. unfold persisted in Hread.
    assert (threads (after_closing_notice env this silent w1) !! thread_id this
            = Some row1) as -> by (by destruct silent).
    reflexivity. }
  rewrite after_closing_notice_clock. simpl.
  split; [done|]. split; [done|]. split.
  { f_equal. change (author_name a) with (rebuilt_name name).
    apply rebuilt_name_hash. apply has_hash_name. }
  split; [done|]. by rewrite after_closing_notice_channels, lookup_delete_eq.
Qed.

(** A close scheduled by a user whose name holds a ["#"]. *)
Lemma scheduled_close_records_scheduler_witness :
  ∃ w1 w2 row',
    scheduleClose th0 5000 (mkUser "7" "bob#the#mod" "0007") w0 = Ok tt w1
    ∧ close env0 th0 None false true w1 = Ok tt w2
    ∧ persisted w2 th0 = Some row'
    ∧ status row' = CLOSED
    ∧ scheduled_close_id row' = Some (id (mkUser "7" "bob#the#mod" "0007"))
    ∧ scheduled_close_name row'
      = Some (username (mkUser "7" "bob#the#mod" "0007") +:+ "#"
                +:+ discriminator (mkUser "7" "bob#the#mod" "0007"))
    ∧ scheduled_close_at row' = Some (clock w0)
    ∧ channels w2 !! channel_id th0 = None.
Proof.
  refine (scheduled_close_records_scheduler env0 th0 5000
            (mkUser "7" "bob#the#mod" "0007") false true w0 th0 _ _).
  - reflexivity.
  - reflexivity.
Defined.

(** X17.  [close] without an author on a thread for which no close was
    ever scheduled (the stored [scheduled_close_name] is null) rejects
    and closes nothing: the stored threads and the channels are as
    before, no event is emitted and the transcript is untouched.  Unless
    the close is silent, the notice "Closing thread..." has been
    delivered to the relay channel all the same. *)
Theorem close_without_author_unscheduled env this silent sse w row :
  persisted w this = Some row →
  relay_live w this →
  scheduled_close_name row = None →
  let r := close env this None silent sse w in
  ¬ resolved r
  ∧ threads (world_of r) = threads w
  ∧ channels (world_of r) = channels w
  ∧ thread_messages (world_of r) = thread_messages w
  ∧ sse_log (world_of r) = sse_log w
  ∧ sent (world_of r)
    = sent w ++ (if silent then []
                 else [mkSent (next_id w) (channel_id this)
                         (Text "Closing thread...") []]).
Proof.
  intros Hrow Hlive Hname r. subst r.
  destruct (close_live_unscheduled env this silent sse w row Hrow Hlive Hname)
    as [e ->].
  simpl. unfold after_closing_notice. rewrite Hlive.
  destruct silent; simpl; rewrite ?app_nil_r; by split_and!; [intros []|..].
Qed.

(** Thread 1 was never scheduled to close. *)
Lemma close_without_author_unscheduled_witness :
  let r := close env0 th0 None false true w0 in
  ¬ resolved r
  ∧ threads (world_of r) = threads w0
  ∧ channels (world_of r) = channels w0
  ∧ thread_messages (world_of r) = thread_messages w0
  ∧ sse_log (world_of r) = sse_log w0
  ∧ sent (world_of r)
    = sent w0 ++ (if false then []
                  else [mkSent (next_id w0) (channel_id th0)
                          (Text "Closing thread...") []]).
Proof.
  refine (close_without_author_unscheduled env0 th0 false true w0 th0 _ _ _).
  - reflexivity.
  - reflexivity.
  - reflexivity.
Defined.

(** X18.  [postNonLogMessage] is [postSystemMessage] without the log.
    In every state of the relay channel both deliver the same messages
    and leave the same stored threads, and both resolve or reject
    together; [postNonLogMessage] never adds a transcript row, while
    [postSystemMessage] adds its row exactly when the message was
    delivered. *)
Theorem postNonLogMessage_never_logs env this content w :
  let r := postNonLogMessage env this content [] w in
  let r' := postSystemMessage env this content [] w in
  thread_messages (world_of r) = thread_messages w
  ∧ sent (world_of r) = sent (world_of r')
  ∧ threads (world_of r) = threads (world_of r')
  ∧ channels (world_of r) = channels (world_of r')
  ∧ (resolved r ↔ resolved r')
  ∧ (length (thread_messages (world_of r')) - length (thread_messages w)
     = length (sent (world_of r')) - length (sent w))%nat.
Proof.
  intros r r'. subst r r'. unfold postNonLogMessage, bind.
  destruct (channels w !! channel_id this) as [[|c m]|] eqn:Hch.
  - rewrite postSystemMessage_live, postToThreadChannel_live by done.
    simpl. rewrite !length_app. simpl. split_and!; try done. lia.
  - destruct (decide (c = unknown_channel)) as [->|Hc].
    + rewrite postSystemMessage_gone, postToThreadChannel_gone
        by (by unfold relay_gone; rewrite Hch).
      simpl. split_and!; try done. lia.
    + rewrite (postSystemMessage_faulty env this _ _ _ c m),
        (postToThreadChannel_faulty env this _ _ _ c m) by done.
      simpl. split_and!; try done. lia.
  - rewrite postSystemMessage_gone, postToThreadChannel_gone
      by (by unfold relay_gone; rewrite Hch).
    simpl. split_and!; try done. lia.
Qed.

(** ** Deleting and saving chat rows *)

Section ChatRows.

Context (this : Thread).

Lemma filter_not_where_dm_thread messageId (rows : list ThreadMessage) :
  filter (λ row, tm_thread_id row = thread_id this)
    (filter (λ row, ¬ where_dm this messageId row) rows)
  = filter (λ row, dm_message_id row ≠ messageId)
      (filter (λ row, tm_thread_id row = thread_id this) rows).
Proof.
  rewrite !list_filter_filter. apply list_filter_iff.
  intros row. unfold where_dm. tauto.
Qed.

Lemma filter_not_where_dm_other messageId (rows : list ThreadMessage) :
  filter (λ row, tm_thread_id row ≠ thread_id this)
    (filter (λ row, ¬ where_dm this messageId row) rows)
  = filter (λ row, tm_thread_id row ≠ thread_id this) rows.
Proof.
  rewrite list_filter_filter. apply list_filter_iff.
  intros row. unfold where_dm. tauto.
Qed.

Lemma filter_none {A} (P : A → Prop) `{!∀ x, Decision (P x)} (l : list A) :
  Forall (λ x, ¬ P x) l → filter P l = [].
Proof.
  induction 1 as [|x l Hx _ IH]; [done|].
  rewrite filter_cons. by destruct (decide (P x)).
Qed.

Lemma filter_all {A} (P : A → Prop) `{!∀ x, Decision (P x)} (l : list A) :
  Forall P l → filter P l = l.
Proof.
  induction 1 as [|x l Hx _ IH]; [done|].
  rewrite filter_cons, IH. by destruct (decide (P x)).
Qed.

Lemma filter_where_dm_deleted messageId (rows : list ThreadMessage) :
  filter (where_dm this messageId)
    (filter (λ row, ¬ where_dm this messageId row) rows) = [].
Proof.
  induction rows as [|row rows IH]; [done|].
  rewrite filter_cons. destruct (decide (¬ where_dm this messageId row)).
  - by rewrite filter_cons_False.
  - done.
Qed.

End ChatRows.

(** X19.  After [deleteChatMessage] the message is gone from every read
    of the thread: [getThreadMessageFromDM] no longer finds a row for
    the id, and [getThreadMessages] returns what it returned before
    without the rows logged for that DM id, in the same order.  The rows
    of other threads, also those with the same DM id, are kept. *)
Theorem deleted_message_leaves_transcript this messageId msg w :
  msg_id msg = messageId →
  ∃ w' before,
    deleteChatMessage this messageId w = Ok tt w'
    ∧ getThreadMessageFromDM this msg w' = Ok None w'
    ∧ getThreadMessages this w = Ok before w
    ∧ getThreadMessages this w'
      = Ok (filter (λ row, dm_message_id row ≠ messageId) before) w'
    ∧ filter (λ row, tm_thread_id row ≠ thread_id this) (thread_messages w')
      = filter (λ row, tm_thread_id row ≠ thread_id this) (thread_messages w).
Proof.
  intros Hid. eexists _, _.
  split; [reflexivity|]. split.
  { unfold getThreadMessageFromDM, gets. simpl.
    by rewrite Hid, filter_where_dm_deleted. }
  split; [reflexivity|]. split.
  - unfold getThreadMessages, gets. simpl.
    by rewrite filter_not_where_dm_thread, order_by_created_at_filter.
  - simpl. apply filter_not_where_dm_other.
Qed.

(** The user deletes the message the thread started with. *)
Lemma deleted_message_leaves_transcript_witness :
  ∃ w' before,
    deleteChatMessage th0 "900" (world_of (receiveUserReply env0 th0 hi false w0))
    = Ok tt w'
    ∧ getThreadMessageFromDM th0 hi w' = Ok None w'
    ∧ getThreadMessages th0 (world_of (receiveUserReply env0 th0 hi false w0))
      = Ok before (world_of (receiveUserReply env0 th0 hi false w0))
    ∧ getThreadMessages th0 w'
      = Ok (filter (λ row, dm_message_id row ≠ "900") before) w'
    ∧ filter (λ row, tm_thread_id row ≠ thread_id th0) (thread_messages w')
      = filter (λ row, tm_thread_id row ≠ thread_id th0)
          (thread_messages (world_of (receiveUserReply env0 th0 hi false w0))).
Proof.
  refine (deleted_message_leaves_transcript th0 "900" hi _ _).
  reflexivity.
Defined.

(** X20.  A note an operator writes in the relay channel is logged under
    its own message id, on both id columns.  [saveChatMessage] always
    resolves; when no row of the thread carries the id yet,
    [getThreadMessageFromThread] then finds the new [CHAT] row, with the
    author's id, [username#discriminator] and the text, and
    [deleteChatMessage] with that id afterwards gives back the table as
    it was before the note was saved. *)
Theorem saved_chat_message_round_trip this msg sse w :
  Forall (λ row, ¬ where_thread_message this (staff_msg_id msg) row
                 ∧ ¬ where_dm this (staff_msg_id msg) row)
    (thread_messages w) →
  ∃ w1 row w2,
    saveChatMessage this msg sse w = Ok tt w1
    ∧ getThreadMessageFromThread this (staff_msg_id msg) w1 = Ok (Some row) w1
    ∧ message_type row = CHAT
    ∧ tm_user_id row = Some (staff_author_id msg)
    ∧ tm_user_name row
      = staff_author_username msg +:+ "#" +:+ staff_author_discriminator msg
    ∧ body row = staff_content msg
    ∧ is_anonymous row = false
    ∧ deleteChatMessage this (staff_msg_id msg) w1 = Ok tt w2
    ∧ thread_messages w2 = thread_messages w.
Proof.
  intros Hfresh.
  assert (Hnone : filter (where_thread_message this (staff_msg_id msg))
                    (thread_messages w) = []).
  { apply filter_none. eapply Forall_impl; [exact Hfresh|]. by intros row [? _]. }
  assert (Hall : filter (λ row, ¬ where_dm this (staff_msg_id msg) row)
                   (thread_messages w) = thread_messages w).
  { apply filter_all. eapply Forall_impl; [exact Hfresh|]. by intros row [_ ?]. }
  unfold saveChatMessage, addThreadMessageToDB.
  unfold bind at 1, gets. unfold bind at 1, thread_messages_insert, modify.
  unfold getThreadMessageFromThread, deleteChatMessage, gets, modify.
  destruct sse; simpl.
  all: eexists _, _, _; split; [reflexivity|]; simpl.
  all: rewrite filter_app, Hnone, filter_cons, filter_nil.
  all: rewrite decide_True by done; simpl.
  all: do 6 (split; [reflexivity|]).
  all: split; [reflexivity|]; simpl.
  all: rewrite filter_app, Hall, filter_cons, filter_nil.
  all: rewrite decide_False by (by intros Hnot; apply Hnot).
  all: by rewrite app_nil_r.
Qed.

(** Dana's note in the new thread. *)
Lemma saved_chat_message_round_trip_witness :
  ∃ w1 row w2,
    saveChatMessage th0 staff_note true w0 = Ok tt w1
    ∧ getThreadMessageFromThread th0 (staff_msg_id staff_note) w1
      = Ok (Some row) w1
    ∧ message_type row = CHAT
    ∧ tm_user_id row = Some (staff_author_id staff_note)
    ∧ tm_user_name row
      = staff_author_username staff_note +:+ "#"
          +:+ staff_author_discriminator staff_note
    ∧ body row = staff_content staff_note
    ∧ is_anonymous row = false
    ∧ deleteChatMessage th0 (staff_msg_id staff_note) w1 = Ok tt w2
    ∧ thread_messages w2 = thread_messages w0.
Proof.
  refine (saved_chat_message_round_trip th0 staff_note true w0 _).
  constructor.
Defined.

(** X21.  When the gateway rejects sends to the relay channel for a
    reason other than a missing channel, both directions reject with the
    gateway's error, log nothing and leave the stored threads as they
    are (the thread is not closed).  An inbound message delivers
    nothing.  An outbound reply has already delivered its DM when the DM
    could be sent, so the user got a reply that the transcript does not
    hold; when the DM could not be sent, the failure notice is rejected
    as well and nothing is delivered. *)
Theorem relay_error_rejects_unlogged env this moderator text replyAttachments
    isAnonymous sse msg sse' c m w :
  channels w !! channel_id this = Some (Faulty c m) →
  c ≠ unknown_channel →
  receiveUserReply env this msg sse' w = Throw (DiscordError c m) w
  ∧ (let r := replyToUser env this moderator text replyAttachments
                isAnonymous sse w in
     ¬ resolved r
     ∧ threads (world_of r) = threads w
     ∧ thread_messages (world_of r) = thread_messages w
     ∧ sent (world_of r)
       = sent w
         ++ match postToUser this
                    (Text (reply_dmContent env this moderator text isAnonymous))
                    (attachments_attachmentToFile env <$> replyAttachments) w with
            | Ok dm _ => [dm]
            | Throw _ _ => []
            end).
Proof.
  intros Hch Hc. split.
  - unfold receiveUserReply.
    destruct (inbound_attachments env _ _ _) as [[files threadContent] logContent].
    unfold bind at 1.
    by rewrite (postToThreadChannel_faulty env this _ _ _ c m).
  - intros r.
    assert (Hrun :
      r = Throw (DiscordError c m)
            match postToUser this
                    (Text (reply_dmContent env this moderator text isAnonymous))
                    (attachments_attachmentToFile env <$> replyAttachments) w with
            | Ok dm _ => with_sent (λ l, l ++ [dm]) w
            | Throw _ _ => w
            end).
    { subst r. unfold replyToUser, bind at 1, gets.
      rewrite reply_attachments_parts.
      unfold bind at 1, try_catch, bind at 1.
      destruct (postToUser this _ _ w) as [dm w1|e w1] eqn:Hdm.
      + apply postToUser_ok in Hdm as (-> & _). unfold ret at 1.
        unfold bind at 1.
        by rewrite (postToThreadChannel_faulty env this _ _ _ c m).
      + assert (w1 = w) as -> by (by eapply postToUser_throw).
        unfold bind at 1.
        by rewrite (postSystemMessage_faulty env this _ _ _ c m). }
    rewrite Hrun. simpl.
    destruct (postToUser this _ _ w) as [dm w1|e w1]; simpl;
      rewrite ?app_nil_r; by split_and!; [intros []|..].
Qed.

(** The bot may no longer write to the relay channel of thread 1. *)
Lemma relay_error_rejects_unlogged_witness :
  receiveUserReply env0 th0 hi false w_forbidden
  = Throw (DiscordError 50013 "Missing Permissions") w_forbidden
  ∧ (let r := replyToUser env0 th0 bob "hello" one_file false true w_forbidden in
     ¬ resolved r
     ∧ threads (world_of r) = threads w_forbidden
     ∧ thread_messages (world_of r) = thread_messages w_forbidden
     ∧ sent (world_of r)
       = sent w_forbidden
         ++ match postToUser th0
                    (Text (reply_dmContent env0 th0 bob "hello" false))
                    (attachments_attachmentToFile env0 <$> one_file)
                    w_forbidden with
            | Ok dm _ => [dm]
            | Throw _ _ => []
            end).
Proof.
  refine (relay_error_rejects_unlogged env0 th0 bob "hello" one_file false true
            hi false 50013 "Missing Permissions" w_forbidden _ _).
  - reflexivity.
  - discriminate.
Defined.

(** X22.  A thread object whose row is no longer in the store.  The
    methods that read the row before they write -- [alertStatus],
    [setStaffRoleOverride], [deleteStaffRoleOverride] and [close]
    without an author -- reject and change nothing; the methods that
    only update -- [scheduleClose], [cancelScheduledClose], [suspend]
    and [unsuspend] -- resolve and change nothing, so the caller cannot
    tell that nothing was written. *)
Theorem calls_on_missing_row env this userId status roleId time user sse w :
  persisted w this = None →
  (¬ resolved (alertStatus this userId status w)
   ∧ world_of (alertStatus this userId status w) = w)
  ∧ (¬ resolved (setStaffRoleOverride this userId roleId w)
     ∧ world_of (setStaffRoleOverride this userId roleId w) = w)
  ∧ (¬ resolved (deleteStaffRoleOverride this userId w)
     ∧ world_of (deleteStaffRoleOverride this userId w) = w)
  ∧ (¬ resolved (close env this None true sse w)
     ∧ world_of (close env this None true sse w) = w)
  ∧ scheduleClose this time user w = Ok tt w
  ∧ cancelScheduledClose this w = Ok tt w
  ∧ suspend this w = Ok tt w
  ∧ unsuspend this w = Ok tt w.
Proof.
  unfold persisted. intros Hrow.
  assert (Hsame : ∀ cols, threads_update (thread_id this) cols w = Ok tt w).
  { intros cols. unfold threads_update, modify, with_threads. f_equal.
    destruct w as [ths rows chs dms snt tms log clk]. simpl in *. f_equal.
    apply map_eq. intros tid. destruct (decide (tid = thread_id this)) as [->|Hne].
    - by rewrite lookup_alter_eq, Hrow.
    - by rewrite lookup_alter_ne. }
  assert (Halert : alertStatus this userId status w
                   = Throw (JsError "TypeError: Cannot read properties of undefined") w).
  { unfold alertStatus, bind, threads_first, gets, row_or_throw.
    by rewrite Hrow. }
  assert (Hset : setStaffRoleOverride this userId roleId w
                 = Throw (JsError "TypeError: Cannot read properties of undefined") w).
  { unfold setStaffRoleOverride, bind, threads_first, gets, row_or_throw.
    by rewrite Hrow. }
  assert (Hdel : deleteStaffRoleOverride this userId w
                 = Throw (JsError "TypeError: Cannot read properties of undefined") w).
  { unfold deleteStaffRoleOverride, bind, threads_first, gets, row_or_throw.
    by rewrite Hrow. }
  assert (Hclose : close env this None true sse w
                   = Throw (JsError "TypeError: Cannot read properties of undefined") w).
  { unfold close, close_with. simpl. unfold bind at 1. unfold ret at 1.
    unfold bind at 1. unfold bind at 1, threads_first, gets.
    by rewrite Hrow. }
  rewrite Halert, Hset, Hdel, Hclose. simpl.
  unfold scheduleClose, cancelScheduledClose, suspend, unsuspend.
  rewrite !Hsame. by split_and!; try intros [].
Qed.

(** Thread 2 is not in the store. *)
Lemma calls_on_missing_row_witness :
  (¬ resolved (alertStatus th_lost "7" true w0)
   ∧ world_of (alertStatus th_lost "7" true w0) = w0)
  ∧ (¬ resolved (setStaffRoleOverride th_lost "7" "500" w0)
     ∧ world_of (setStaffRoleOverride th_lost "7" "500" w0) = w0)
  ∧ (¬ resolved (deleteStaffRoleOverride th_lost "7" w0)
     ∧ world_of (deleteStaffRoleOverride th_lost "7" w0) = w0)
  ∧ (¬ resolved (close env0 th_lost None true false w0)
     ∧ world_of (close env0 th_lost None true false w0) = w0)
  ∧ scheduleClose th_lost 5000 (mkUser "7" "bob" "0007") w0 = Ok tt w0
  ∧ cancelScheduledClose th_lost w0 = Ok tt w0
  ∧ suspend th_lost w0 = Ok tt w0
  ∧ unsuspend th_lost w0 = Ok tt w0.
Proof.
  refine (calls_on_missing_row env0 th_lost "7" true "500" 5000
            (mkUser "7" "bob" "0007") false w0 _).
  reflexivity.
Defined.
